(** * Priority-preemption queueing simulators: embedding and properties

    The repository is a family of SimPy discrete-event simulators.  Each
    simulator is a handful of generator functions (arrival processes, a
    server or one provider per job) run by a SimPy [Environment].

    The embedding keeps that structure:
    - [SimPy] is the scheduler: the pending events are keyed by
      (time, priority, event id), [step] pops the least one, sets the clock
      and resumes whatever waits on it; [run (until)] is the stop event that
      [Environment.run] schedules;
    - every generator is a small state machine: its program counter says at
      which [yield] it is suspended, and the code between two yields is one
      function in a state-and-error monad;
    - simulated times and durations are rationals ([Q]); the random
      generator is a stream [draw : nat -> Q] read in call order;
    - the priority tag of the trace-driven simulators, which the code
      changes by the float constant 0.0001 and rounds with [np.ceil], is a
      binary64 float, as are the means the main loops compute by division. *)

From Stdlib Require Import String ZArith QArith Floats List Bool Lia Lqa.
From Stdlib Require Import Permutation.
Import ListNotations.

Local Open Scope Q_scope.

(** ** Comparisons on rationals as booleans *)

Definition Qltb (x y : Q) : bool := negb (Qle_bool y x).

Lemma Qltb_lt x y : Qltb x y = true <-> x < y.
Proof.
  unfold Qltb. rewrite negb_true_iff, <- not_true_iff_false, Qle_bool_iff.
  split; intro H; [apply Qnot_le_lt | apply Qlt_not_le]; exact H.
Qed.

Lemma Qltb_ge x y : Qltb x y = false <-> y <= x.
Proof.
  unfold Qltb. rewrite negb_false_iff. apply Qle_bool_iff.
Qed.

(** ** [heapq]

    Both the scheduler and the simulators' own [PriorityQueue] keep their
    entries in a [heapq] heap of tuples.  The heap is modelled by what
    [heappush] and [heappop] guarantee: the list holds the entries pushed
    and not yet popped, and [heappop] takes out a least one for the tuple
    order (two entries that the order does not separate are equal as
    tuples). *)

Module Heapq.

Section Heap.
Context {A : Type}.
Variable ltb : A -> A -> bool.

Definition heappush (items : list A) (x : A) : list A := x :: items.

Fixpoint heappop (items : list A) : option (A * list A) :=
  match items with
  | [] => None
  | a :: l' =>
      match heappop l' with
      | None => Some (a, [])
      | Some (m, r) => if ltb m a then Some (m, a :: r) else Some (a, l')
      end
  end.

Lemma heappop_none l : heappop l = None -> l = [].
Proof.
  destruct l as [| a l']; [reflexivity |]. simpl.
  destruct (heappop l') as [[m r] |]; [destruct (ltb m a) |];
    discriminate.
Qed.

Lemma heappop_in l m r :
  heappop l = Some (m, r) ->
  In m l /\ (forall x, In x r -> In x l) /\
  (forall x, In x l -> x = m \/ In x r).
Proof.
  revert m r. induction l as [| a l' IH]; intros m r H; [discriminate |].
  simpl in H. destruct (heappop l') as [[m' r'] |] eqn:P.
  - destruct (IH _ _ eq_refl) as (I1 & I2 & I3).
    destruct (ltb m' a); inversion H; subst; clear H.
    + split; [right; exact I1 |]. split.
      * intros x [-> | Hx]; [left; reflexivity | right; auto].
      * intros x [-> | Hx]; [right; left; reflexivity |].
        destruct (I3 _ Hx); [left | right; right]; assumption.
    + split; [left; reflexivity |]. split.
      * intros x Hx. right. exact Hx.
      * intros x [-> | Hx]; [left; reflexivity | right; exact Hx].
  - inversion H; subst; clear H. apply heappop_none in P. subst l'.
    split; [left; reflexivity |]. split.
    + intros x [].
    + intros x [-> | []]. left. reflexivity.
Qed.

Lemma heappop_length l m r :
  heappop l = Some (m, r) -> length l = S (length r).
Proof.
  revert m r. induction l as [| a l' IH]; intros m r H; [discriminate |].
  simpl in H. destruct (heappop l') as [[m' r'] |] eqn:P.
  - destruct (ltb m' a); inversion H; subst; simpl.
    + rewrite (IH _ _ eq_refl). reflexivity.
    + reflexivity.
  - inversion H; subst. apply heappop_none in P. subst. reflexivity.
Qed.

Lemma heappop_some l : l <> [] -> exists m r, heappop l = Some (m, r).
Proof.
  destruct l as [| a l']; [congruence |]. intros _. simpl.
  destruct (heappop l') as [[m r] |]; [destruct (ltb m a) |]; eauto.
Qed.

(** The tuple order is a strict weak order. *)
Hypothesis ltb_asym : forall a b, ltb a b = true -> ltb b a = false.
Hypothesis ltb_negtrans :
  forall a b c, ltb b a = false -> ltb c b = false -> ltb c a = false.

Lemma heappop_least l m r :
  heappop l = Some (m, r) -> forall x, In x r -> ltb x m = false.
Proof.
  revert m r. induction l as [| a l' IH]; intros m r H; [discriminate |].
  simpl in H. destruct (heappop l') as [[m' r'] |] eqn:P.
  - specialize (IH _ _ eq_refl).
    destruct (ltb m' a) eqn:L; inversion H; subst; clear H.
    + intros x [-> | Hx]; [apply ltb_asym; exact L | auto].
    + intros x Hx.
      destruct (heappop_in _ _ _ P) as (_ & _ & I3).
      destruct (I3 _ Hx) as [-> | Hr]; [exact L |].
      eapply ltb_negtrans; [exact L | auto].
  - inversion H; subst. intros x [].
Qed.

(** [heappop] takes one entry out and keeps all the others. *)
Lemma heappop_perm l m r : heappop l = Some (m, r) -> Permutation l (m :: r).
Proof.
  revert m r. induction l as [| a l' IH]; intros m r H; [discriminate |].
  simpl in H. destruct (heappop l') as [[m' r'] |] eqn:P.
  - specialize (IH _ _ eq_refl).
    destruct (ltb m' a); inversion H; subst; clear H.
    + eapply perm_trans; [apply perm_skip; exact IH | apply perm_swap].
    + apply Permutation_refl.
  - inversion H; subst. apply heappop_none in P. subst.
    apply Permutation_refl.
Qed.

Lemma heappop_filter (f : A -> bool) l m r :
  heappop l = Some (m, r) ->
  length (filter f l) = ((if f m then 1 else 0) + length (filter f r))%nat.
Proof.
  revert m r. induction l as [| a l' IH]; intros m r H; [discriminate |].
  simpl in H. destruct (heappop l') as [[m' r'] |] eqn:P.
  - specialize (IH _ _ eq_refl).
    destruct (ltb m' a); inversion H; subst; clear H; simpl.
    + destruct (f a), (f m); simpl in *; lia.
    + destruct (f m); reflexivity.
  - inversion H; subst. apply heappop_none in P. subst. simpl.
    destruct (f m); reflexivity.
Qed.

End Heap.

End Heapq.

(** ** The SimPy scheduler *)

Module SimPy.

(** [simpy.core]: URGENT = 0 (interrupts, process initialisation, the stop
    event of [run]), NORMAL = 1 (timeouts, [succeed]). *)
Definition URGENT : Z := 0%Z.
Definition NORMAL : Z := 1%Z.

Section Scheduler.
(** [W] says what an event is (whom it resumes). *)
Context {W : Type}.

Record event := Event
  { ev_time : Q; ev_prio : Z; ev_id : nat; ev_what : W }.

(** [Environment]: [_now], the [_eid] counter and the [_queue] heap. *)
Record env := Env { now : Q; eid : nat; queue : list event }.

(** Tuple order of the heap entries (time, priority, eid, event). *)
Definition ev_ltb (a b : event) : bool :=
  match ev_time a ?= ev_time b with
  | Lt => true
  | Gt => false
  | Eq => if (ev_prio a <? ev_prio b)%Z then true
          else if (ev_prio b <? ev_prio a)%Z then false
          else (ev_id a <? ev_id b)%nat
  end.

(** [Environment.schedule(event, priority, delay)]. *)
Definition schedule (prio : Z) (delay : Q) (w : W) (e : env) : env :=
  {| now := now e;
     eid := S (eid e);
     queue := Event (now e + delay) prio (eid e) w :: queue e |}.

(** [heappop(self._queue)]. *)
Definition pop_min (l : list event) : option (event * list event) :=
  Heapq.heappop ev_ltb l.

(** What [Environment.step] does before it runs the callbacks. *)
Definition advance (e : env) : option (event * env) :=
  match pop_min (queue e) with
  | None => None
  | Some (ev, rest) =>
      Some (ev, {| now := ev_time ev; eid := eid e; queue := rest |})
  end.

(** *** Facts on the heap order *)

Definition key_lt (a b : event) : Prop :=
  ev_time a < ev_time b \/
  (ev_time a == ev_time b /\
   ((ev_prio a < ev_prio b)%Z \/
    (ev_prio a = ev_prio b /\ (ev_id a < ev_id b)%nat))).

Definition key_le (a b : event) : Prop :=
  ev_time a < ev_time b \/
  (ev_time a == ev_time b /\
   ((ev_prio a < ev_prio b)%Z \/
    (ev_prio a = ev_prio b /\ (ev_id a <= ev_id b)%nat))).

Lemma ev_ltb_true a b : ev_ltb a b = true <-> key_lt a b.
Proof.
  unfold ev_ltb, key_lt.
  destruct (Qcompare_spec (ev_time a) (ev_time b)) as [E | L | G].
  - destruct (Z.ltb_spec (ev_prio a) (ev_prio b)).
    + split; auto.
    + destruct (Z.ltb_spec (ev_prio b) (ev_prio a)).
      * split; [discriminate |]. intro K. exfalso.
        destruct K as [L | [_ [L | [L _]]]]; [rewrite E in L; lra | lia | lia].
      * rewrite Nat.ltb_lt. split.
        -- intro. right. split; [exact E | right; split; lia].
        -- intros [L | [_ [L | [_ L]]]];
             [exfalso; rewrite E in L; lra | lia | exact L].
  - split; auto.
  - split; [discriminate |]. intro K. exfalso.
    destruct K as [L | [E _]]; [lra | rewrite E in G; lra].
Qed.

Lemma ev_ltb_false a b : ev_ltb a b = false <-> key_le b a.
Proof.
  rewrite <- not_true_iff_false, ev_ltb_true. unfold key_lt, key_le.
  destruct (Qcompare_spec (ev_time a) (ev_time b)) as [E | L | G].
  - split.
    + intro N. right. split; [symmetry; exact E |].
      destruct (Z.lt_trichotomy (ev_prio a) (ev_prio b)) as [L | [L | L]].
      * exfalso. apply N. right. split; [exact E | left; exact L].
      * right. split; [symmetry; exact L |].
        destruct (Nat.lt_ge_cases (ev_id a) (ev_id b)); [| assumption].
        exfalso. apply N. right. split; [exact E | right; split; assumption].
      * left. exact L.
    + intros [L | [_ [L | [P L]]]] [L' | [_ [L' | [P' L']]]];
        try (rewrite E in *; lra); lia.
  - split.
    + intro N. exfalso. apply N. left. exact L.
    + intros [L' | [E _]]; [lra | rewrite E in L; lra].
  - split.
    + intros _. left. exact G.
    + intros _ [L | [E _]]; [lra | rewrite E in G; lra].
Qed.

Lemma key_le_trans a b c : key_le a b -> key_le b c -> key_le a c.
Proof.
  unfold key_le.
  intros [L1 | [E1 H1]] [L2 | [E2 H2]].
  - left. lra.
  - left. rewrite <- E2. exact L1.
  - left. rewrite E1. exact L2.
  - right. split; [rewrite E1; exact E2 |].
    destruct H1 as [P1 | [P1 I1]], H2 as [P2 | [P2 I2]];
      [left | left | left | right; split]; lia.
Qed.

Lemma key_le_time a b : key_le a b -> ev_time a <= ev_time b.
Proof. intros [L | [E _]]; [lra | rewrite E; lra]. Qed.

(** *** Facts on [pop_min] *)

Lemma ev_ltb_asym a b : ev_ltb a b = true -> ev_ltb b a = false.
Proof.
  rewrite ev_ltb_true, ev_ltb_false. unfold key_lt, key_le.
  intros [L | [E [L | [P L]]]]; [left; exact L | right | right];
    (split; [exact E |]); [left; exact L | right; split; lia].
Qed.

Lemma ev_ltb_negtrans a b c :
  ev_ltb b a = false -> ev_ltb c b = false -> ev_ltb c a = false.
Proof.
  rewrite !ev_ltb_false. intros H1 H2. eapply key_le_trans; eassumption.
Qed.

Lemma pop_min_in l m r :
  pop_min l = Some (m, r) ->
  In m l /\ (forall x, In x r -> In x l) /\
  (forall x, In x l -> x = m \/ In x r).
Proof. apply Heapq.heappop_in. Qed.

Lemma pop_min_least l m r :
  pop_min l = Some (m, r) -> forall x, In x r -> key_le m x.
Proof.
  intros P x Hx. apply ev_ltb_false.
  eapply (Heapq.heappop_least ev_ltb ev_ltb_asym ev_ltb_negtrans);
    eassumption.
Qed.

End Scheduler.

Arguments event : clear implicits.
Arguments env : clear implicits.

(** What can end a run: the exceptions the simulators can raise, and the
    two ways [Environment.run] ends by itself. *)
Inductive exn :=
| StopSimulation      (* the [until] event was processed *)
| ValueError          (* [timeout] with a negative delay *)
| IndexError          (* pop from an empty heap, index out of an array *)
| AttributeError      (* [self.next] read before it is set *)
| NameError           (* a local read before it is assigned *)
| Interrupt           (* an interrupt thrown where no [except] catches it *)
| RuntimeError        (* an interrupt asked for a terminated process *)
| ZeroDivisionError.  (* a division by a zero parameter *)

Section Processes.
(** [U] is the state of the simulator's objects and generators. *)
Context {W U : Type}.

Record sim := Sim { E : env W; St : U }.

(** Code between two yields: it reads and writes the simulator state,
    schedules events, or raises. *)
Definition M (A : Type) : Type := sim -> exn + (A * sim).

Definition ret {A} (a : A) : M A := fun s => inr (a, s).
Definition bind {A B} (c : M A) (k : A -> M B) : M B :=
  fun s => match c s with
           | inl e => inl e
           | inr (a, s') => k a s'
           end.
Definition raise {A} (e : exn) : M A := fun _ => inl e.
Definition gets {A} (f : U -> A) : M A := fun s => inr (f (St s), s).
Definition modify (f : U -> U) : M unit :=
  fun s => inr (tt, Sim (E s) (f (St s))).
Definition env_now : M Q := fun s => inr (now (E s), s).

(** [env.timeout(delay)]: the id of the new event is returned, so that
    the process that yields it can remember what it waits for. *)
Definition timeout (delay : Q) (w : W) : M nat :=
  fun s => if Qltb delay 0 then inl ValueError
           else inr (eid (E s), Sim (schedule NORMAL delay w (E s)) (St s)).
(** [event.succeed()]. *)
Definition succeed (w : W) : M unit :=
  fun s => inr (tt, Sim (schedule NORMAL 0 w (E s)) (St s)).
(** [process.interrupt()], and [env.process(...)] for a new process. *)
Definition urgent (w : W) : M unit :=
  fun s => inr (tt, Sim (schedule URGENT 0 w (E s)) (St s)).

(** [dispatch w id] is what the callbacks of the event do. *)
Variable dispatch : W -> nat -> M unit.

Inductive outcome :=
| Next (s : sim)
| Halt (why : option exn) (s : sim).   (* [None]: EmptySchedule *)

(** [Environment.step]. *)
Definition step (s : sim) : outcome :=
  match advance (E s) with
  | None => Halt None s
  | Some (ev, e1) =>
      let s1 := Sim e1 (St s) in
      match dispatch (ev_what ev) (ev_id ev) s1 with
      | inl x => Halt (Some x) s1
      | inr (_, s2) => Next s2
      end
  end.

(** The loop of [Environment.run], cut after [fuel] events. *)
Fixpoint run (fuel : nat) (s : sim) : outcome :=
  match fuel with
  | O => Next s
  | S k => match step s with
           | Next s' => run k s'
           | h => h
           end
  end.

(** The state an outcome carries. *)
Definition state_of (o : outcome) : sim :=
  match o with
  | Next s => s
  | Halt _ s => s
  end.

Inductive reach (s0 : sim) : sim -> Prop :=
| reach_init : reach s0 s0
| reach_step s s' : reach s0 s -> step s = Next s' -> reach s0 s'.

Lemma run_reach s0 fuel s s' :
  reach s0 s -> run fuel s = Next s' -> reach s0 s'.
Proof.
  revert s. induction fuel as [| k IH]; intros s R H; simpl in H.
  - inversion H; subst. exact R.
  - destruct (step s) as [s1 |] eqn:St1; [| discriminate].
    apply (IH s1); [eapply reach_step; eassumption | exact H].
Qed.

Lemma reach_run s0 s : reach s0 s -> exists fuel, run fuel s0 = Next s.
Proof.
  induction 1 as [| s s' R [k IH] St1].
  - exists O. reflexivity.
  - exists (S k).
    clear R. revert s0 IH. induction k as [| k IHk]; intros s0 IH.
    + simpl in IH. inversion IH; subst. simpl. rewrite St1. reflexivity.
    + simpl in IH. destruct (step s0) as [s1 |] eqn:S0; [| discriminate].
      specialize (IHk _ IH). simpl in *. rewrite S0. exact IHk.
Qed.

Lemma run_halt_state s0 fuel sc why s :
  reach s0 sc -> run fuel sc = Halt why s ->
  exists sp, reach s0 sp /\ St s = St sp.
Proof.
  revert sc. induction fuel as [| k IH]; intros sc R H; simpl in H;
    [discriminate |].
  destruct (step sc) as [s1 | w1 s1] eqn:S1.
  - apply (IH s1); [eapply reach_step; eassumption | exact H].
  - inversion H; subst; clear H. exists sc. split; [exact R |].
    unfold step in S1.
    destruct (advance (E sc)) as [[ev e1] |]; [| inversion S1; reflexivity].
    destruct (dispatch _ _ _) as [x | [u s2]]; inversion S1; reflexivity.
Qed.

Lemma run_halt_step s0 fuel sc why s :
  reach s0 sc -> run fuel sc = Halt why s ->
  exists sp, reach s0 sp /\ step sp = Halt why s.
Proof.
  revert sc. induction fuel as [| k IH]; intros sc R H; simpl in H;
    [discriminate |].
  destruct (step sc) as [s1 | w1 s1] eqn:S1.
  - apply (IH s1); [eapply reach_step; eassumption | exact H].
  - inversion H; subst; clear H. exists sc. split; [exact R | exact S1].
Qed.

(** *** Scheduling only adds events, none in the past *)

Definition env_wf (e : env W) : Prop :=
  Forall (fun ev => now e <= ev_time ev) (queue e).

Definition extends (e e' : env W) : Prop :=
  now e' = now e /\
  exists new, queue e' = new ++ queue e /\
              Forall (fun ev => now e <= ev_time ev) new.

Definition grows {A} (c : M A) : Prop :=
  forall s a s', c s = inr (a, s') -> extends (E s) (E s').

Lemma extends_refl e : extends e e.
Proof. split; [reflexivity |]. exists []. split; [reflexivity | constructor]. Qed.

Lemma extends_trans e1 e2 e3 :
  extends e1 e2 -> extends e2 e3 -> extends e1 e3.
Proof.
  intros [N1 (n1 & Q1 & F1)] [N2 (n2 & Q2 & F2)].
  split; [congruence |]. exists (n2 ++ n1). split.
  - rewrite Q2, Q1, app_assoc. reflexivity.
  - apply Forall_app. split; [| exact F1].
    rewrite N1 in F2. exact F2.
Qed.

Lemma extends_schedule prio d w e :
  0 <= d -> extends e (schedule prio d w e).
Proof.
  intro D. split; [reflexivity |].
  exists [Event (now e + d) prio (eid e) w]. split; [reflexivity |].
  constructor; [simpl; lra | constructor].
Qed.

Lemma extends_wf e e' : extends e e' -> env_wf e -> env_wf e'.
Proof.
  intros [N (n & Q1 & F)] Wf. unfold env_wf. rewrite Q1, N.
  apply Forall_app. split; assumption.
Qed.

Lemma extends_in e e' ev : extends e e' -> In ev (queue e) -> In ev (queue e').
Proof.
  intros [_ (n & Q1 & _)] I. rewrite Q1. apply in_or_app. right. exact I.
Qed.

Lemma grows_ret {A} (a : A) : grows (ret a).
Proof. intros s a' s' H. inversion H; subst. apply extends_refl. Qed.

Lemma grows_bind {A B} (c : M A) (k : A -> M B) :
  grows c -> (forall a, grows (k a)) -> grows (bind c k).
Proof.
  intros Gc Gk s b s' H. unfold bind in H.
  destruct (c s) as [x | [a s1]] eqn:C; [discriminate |].
  eapply extends_trans; [eapply Gc; exact C | eapply Gk; exact H].
Qed.

Lemma grows_raise {A} x : grows (@raise A x).
Proof. intros s a s' H. discriminate. Qed.

Lemma grows_gets {A} (f : U -> A) : grows (gets f).
Proof. intros s a s' H. inversion H; subst. apply extends_refl. Qed.

Lemma grows_modify f : grows (modify f).
Proof. intros s a s' H. inversion H; subst. apply extends_refl. Qed.

Lemma grows_env_now : grows env_now.
Proof. intros s a s' H. inversion H; subst. apply extends_refl. Qed.

Lemma grows_timeout d w : grows (timeout d w).
Proof.
  intros s a s' H. unfold timeout in H.
  destruct (Qltb d 0) eqn:D; [discriminate |].
  inversion H; subst. apply extends_schedule. apply Qltb_ge. exact D.
Qed.

Lemma grows_succeed w : grows (succeed w).
Proof.
  intros s a s' H. inversion H; subst. apply extends_schedule. lra.
Qed.

Lemma grows_urgent w : grows (urgent w).
Proof.
  intros s a s' H. inversion H; subst. apply extends_schedule. lra.
Qed.

Lemma grows_if {A} (b : bool) (c1 c2 : M A) :
  grows c1 -> grows c2 -> grows (if b then c1 else c2).
Proof. destruct b; auto. Qed.

Hypothesis dispatch_grows : forall w i, grows (dispatch w i).

Lemma advance_wf e ev e1 :
  env_wf e -> advance e = Some (ev, e1) ->
  env_wf e1 /\ now e <= now e1 /\ now e1 = ev_time ev /\
  In ev (queue e) /\
  (forall x, In x (queue e) -> x = ev \/ In x (queue e1)) /\
  (forall x, In x (queue e1) -> In x (queue e) /\ key_le ev x).
Proof.
  intros Wf A. unfold advance in A.
  destruct (pop_min (queue e)) as [[m r] |] eqn:P; [| discriminate].
  inversion A; subst; clear A. simpl.
  destruct (pop_min_in _ _ _ P) as (I1 & I2 & I3).
  pose proof (pop_min_least _ _ _ P) as Lst.
  unfold env_wf in *. rewrite Forall_forall in Wf.
  repeat split; auto.
  apply Forall_forall. intros x Hx. simpl.
  apply key_le_time. auto.
Qed.

Lemma step_wf s s' :
  env_wf (E s) -> step s = Next s' ->
  env_wf (E s') /\ now (E s) <= now (E s').
Proof.
  intros Wf H. unfold step in H.
  destruct (advance (E s)) as [[ev e1] |] eqn:A; [| discriminate].
  destruct (dispatch _ _ _) as [x | [u s2]] eqn:D; [discriminate |].
  inversion H; subst; clear H.
  destruct (advance_wf _ _ _ Wf A) as (Wf1 & Le & _).
  pose proof (dispatch_grows _ _ _ _ _ D) as X. simpl in X.
  split; [eapply extends_wf; eassumption |].
  destruct X as [N _]. rewrite N. exact Le.
Qed.

Lemma reach_wf s0 s : env_wf (E s0) -> reach s0 s -> env_wf (E s).
Proof.
  intros Wf R. induction R as [| s s' R IH St1]; [exact Wf |].
  eapply step_wf; eassumption.
Qed.

(** *** [run(until)]: nothing is processed after the stop event *)

Definition stops_at (sv : event W) : Prop :=
  forall s, dispatch (ev_what sv) (ev_id sv) s = inl StopSimulation.

Lemma step_before_stop sv s s' :
  stops_at sv -> In sv (queue (E s)) -> step s = Next s' ->
  In sv (queue (E s')) /\ now (E s') <= ev_time sv.
Proof.
  intros Stop I H. unfold step in H.
  destruct (advance (E s)) as [[ev e1] |] eqn:A; [| discriminate].
  destruct (dispatch _ _ _) as [x | [u s2]] eqn:D; [discriminate |].
  inversion H; subst; clear H.
  unfold advance in A.
  destruct (pop_min (queue (E s))) as [[m r] |] eqn:P; [| discriminate].
  inversion A; subst; clear A.
  destruct (pop_min_in _ _ _ P) as (_ & _ & I3).
  destruct (I3 _ I) as [-> | Ir].
  - rewrite Stop in D. discriminate.
  - pose proof (dispatch_grows _ _ _ _ _ D) as X. simpl in X.
    split; [eapply extends_in; [exact X | exact Ir] |].
    destruct X as [N _]. rewrite N. simpl.
    apply key_le_time. eapply pop_min_least; eassumption.
Qed.

Lemma reach_before_stop sv s0 s :
  stops_at sv -> In sv (queue (E s0)) -> now (E s0) <= ev_time sv ->
  reach s0 s -> In sv (queue (E s)) /\ now (E s) <= ev_time sv.
Proof.
  intros Stop I L R. induction R as [| s s' R [IH1 IH2] St1]; [auto |].
  eapply step_before_stop; eassumption.
Qed.

(** *** Events due at the current instant *)

Definition pending (e : env W) (P : W -> Prop) : Prop :=
  exists ev, In ev (queue e) /\ P (ev_what ev) /\ ev_time ev <= now e.

Lemma pending_extends e e' P : extends e e' -> pending e P -> pending e' P.
Proof.
  intros X (ev & I & Pev & T). exists ev.
  split; [eapply extends_in; eassumption |]. split; [exact Pev |].
  destruct X as [N _]. rewrite N. exact T.
Qed.

Lemma pending_advance e ev e1 P :
  env_wf e -> advance e = Some (ev, e1) -> pending e P ->
  ~ P (ev_what ev) -> pending e1 P.
Proof.
  intros Wf A (x & I & Px & T) NP.
  destruct (advance_wf _ _ _ Wf A) as (_ & Le & _ & _ & I3 & _).
  destruct (I3 _ I) as [-> | Ir]; [contradiction |].
  exists x. split; [exact Ir |]. split; [exact Px | lra].
Qed.

(** While an event is due now, the clock does not move. *)
Lemma pending_holds_clock e ev e1 P :
  env_wf e -> advance e = Some (ev, e1) -> pending e P -> now e1 == now e.
Proof.
  intros Wf A (x & I & _ & T).
  destruct (advance_wf _ _ _ Wf A) as (_ & Le & N & _ & I3 & I4).
  apply Qle_antisym; [| exact Le].
  destruct (I3 _ I) as [-> | Ir]; [rewrite N; exact T |].
  destruct (I4 _ Ir) as [_ K]. apply key_le_time in K. rewrite N. lra.
Qed.

(** *** Counting the pending events of a kind *)

Definition count (P : W -> bool) (e : env W) : nat :=
  List.length (filter (fun ev => P (ev_what ev)) (queue e)).

Lemma count_schedule P prio d w e :
  count P (schedule prio d w e) = ((if P w then 1 else 0) + count P e)%nat.
Proof. unfold count. simpl. destruct (P w); reflexivity. Qed.

Lemma count_pop P (l : list (event W)) m r :
  pop_min l = Some (m, r) ->
  List.length (filter (fun ev => P (ev_what ev)) l)
  = ((if P (ev_what m) then 1 else 0)
     + List.length (filter (fun ev => P (ev_what ev)) r))%nat.
Proof.
  unfold pop_min. revert m r.
  induction l as [| a l' IH]; intros m r H; [discriminate |].
  simpl in H. destruct (Heapq.heappop ev_ltb l') as [[m' r'] |] eqn:Hp.
  - specialize (IH _ _ eq_refl).
    destruct (ev_ltb m' a); inversion H; subst; clear H; simpl.
    + destruct (P (ev_what a)), (P (ev_what m)); simpl in *; lia.
    + destruct (P (ev_what m)); reflexivity.
  - inversion H; subst. apply Heapq.heappop_none in Hp. subst. simpl.
    destruct (P (ev_what m)); reflexivity.
Qed.

Lemma count_advance P e ev e1 :
  advance e = Some (ev, e1) ->
  count P e = ((if P (ev_what ev) then 1 else 0) + count P e1)%nat.
Proof.
  unfold advance. intro A.
  destruct (pop_min (queue e)) as [[m r] |] eqn:Hp; [| discriminate].
  inversion A; subst. unfold count. simpl. apply count_pop. exact Hp.
Qed.

Lemma count_zero P e :
  count P e = 0%nat <-> forall ev, In ev (queue e) -> P (ev_what ev) = false.
Proof.
  unfold count. induction (queue e) as [| a l IH]; simpl.
  - split; [intros _ ev [] | reflexivity].
  - destruct (P (ev_what a)) eqn:Pa; simpl.
    + split; [discriminate |]. intro H.
      specialize (H a (or_introl eq_refl)). congruence.
    + rewrite IH. split.
      * intros H ev [<- | I]; auto.
      * intros H ev I. apply H. right. exact I.
Qed.

(** *** Busy time

    The simulated time spent in states where [busy] holds, over the first
    [fuel] events of a run. *)

Variable busy : U -> bool.

Fixpoint busy_time (fuel : nat) (s : sim) : Q :=
  match fuel with
  | O => 0
  | S k =>
      match advance (E s) with
      | None => 0
      | Some (_, e1) =>
          (if busy (St s) then now e1 - now (E s) else 0) +
          match step s with
          | Next s' => busy_time k s'
          | Halt _ _ => 0
          end
      end
  end.

Lemma busy_time_bound sv fuel s :
  stops_at sv -> env_wf (E s) -> In sv (queue (E s)) ->
  busy_time fuel s <= ev_time sv - now (E s).
Proof.
  intros Stop. revert s. induction fuel as [| k IH]; intros s Wf I; simpl.
  - unfold env_wf in Wf. rewrite Forall_forall in Wf.
    specialize (Wf _ I). simpl in Wf. lra.
  - destruct (advance (E s)) as [[ev e1] |] eqn:A.
    + destruct (advance_wf _ _ _ Wf A) as (Wf1 & Le & N & _ & I3 & I4).
      assert (T : now e1 <= ev_time sv).
      { destruct (I3 _ I) as [-> | Ir]; [rewrite N; lra |].
        unfold env_wf in Wf1. rewrite Forall_forall in Wf1. auto. }
      assert (B : (if busy (St s) then now e1 - now (E s) else 0)
                  <= now e1 - now (E s)) by (destruct (busy (St s)); lra).
      destruct (step s) as [s' | h s'] eqn:S1.
      * destruct (step_wf _ _ Wf S1) as [Wf' _].
        destruct (step_before_stop _ _ _ Stop I S1) as [I' _].
        specialize (IH _ Wf' I').
        assert (N' : now (E s') = now e1).
        { unfold step in S1. rewrite A in S1.
          destruct (dispatch _ _ _) as [x | [u s2]] eqn:D; [discriminate |].
          inversion S1; subst. destruct (dispatch_grows _ _ _ _ _ D) as [N' _].
          exact N'. }
        rewrite N' in IH. lra.
      * lra.
    + unfold env_wf in Wf. rewrite Forall_forall in Wf.
      specialize (Wf _ I). simpl in Wf. lra.
Qed.

End Processes.

Arguments sim : clear implicits.
Arguments M : clear implicits.
Arguments outcome : clear implicits.

End SimPy.

Declare Scope sim_scope.
Delimit Scope sim_scope with sim.
Notation "x <- c ;; k" := (SimPy.bind c (fun x => k))
  (at level 61, c at next level, right associativity) : sim_scope.
Notation "c ;;; k" := (SimPy.bind c (fun _ => k))
  (at level 61, right associativity) : sim_scope.

Local Open Scope sim_scope.

(** Code made of the scheduler's operations only adds events. *)
Ltac grows_step :=
  first
    [ apply SimPy.grows_ret | apply SimPy.grows_raise | apply SimPy.grows_gets
    | apply SimPy.grows_modify | apply SimPy.grows_env_now
    | apply SimPy.grows_timeout | apply SimPy.grows_succeed
    | apply SimPy.grows_urgent
    | apply SimPy.grows_bind; [| intros ?]
    | match goal with
      | |- SimPy.grows (if ?b then _ else _) => destruct b
      | |- SimPy.grows (match ?x with _ => _ end) => destruct x
      end ].
Ltac grows := repeat grows_step.

(** Symbolic execution of monadic code in a hypothesis [D : c s = inr _]:
    the tests are decided innermost first, the raising branches closed. *)
Ltac exec D :=
  repeat first
    [ discriminate D
    | progress cbn in D
    | match type of D with
      | context [match ?x with _ => _ end] =>
          lazymatch x with
          | context [match _ with _ => _ end] => fail
          | _ => destruct x eqn:?
          end
      end ];
  try (inversion D; subst; clear D).

(** ** numpy arrays of statistics *)

Module Numpy.

(** Index into an array of length [len]: negative indices count from the
    end, anything else out of range raises [IndexError]. *)
Definition index (len : nat) (i : Z) : option nat :=
  if ((0 <=? i) && (i <? Z.of_nat len))%Z then Some (Z.to_nat i)
  else if ((- Z.of_nat len <=? i) && (i <? 0))%Z
       then Some (Z.to_nat (Z.of_nat len + i))
       else None.

Fixpoint update {A} (a : list A) (k : nat) (f : A -> A) : list A :=
  match a, k with
  | [], _ => []
  | x :: a', O => f x :: a'
  | x :: a', S k' => x :: update a' k' f
  end.

(** [a[i] += x]. *)
Definition add_at (a : list Q) (i : Z) (x : Q) : option (list Q) :=
  match index (length a) i with
  | Some k => Some (update a k (fun y => y + x))
  | None => None
  end.

(** [np.zeros(3)]. *)
Definition zeros3 : list Q := [0; 0; 0].
Definition zeros2 : list Q := [0; 0].

Lemma update_length {A} (a : list A) k f : length (update a k f) = length a.
Proof.
  revert k. induction a as [| x a IH]; intros [| k]; simpl; auto.
Qed.

Lemma index_in_range len i :
  (0 <= i < Z.of_nat len)%Z -> index len i = Some (Z.to_nat i).
Proof.
  intro H. unfold index.
  destruct (Z.leb_spec 0 i); [| lia].
  destruct (Z.ltb_spec i (Z.of_nat len)); [reflexivity | lia].
Qed.

Lemma add_at_in_range a i x :
  (0 <= i < Z.of_nat (length a))%Z ->
  add_at a i x = Some (update a (Z.to_nat i) (fun y => y + x)).
Proof.
  intro H. unfold add_at. rewrite index_in_range by exact H. reflexivity.
Qed.

Lemma update_nth {A} (a : list A) k f d :
  (k < length a)%nat -> nth k (update a k f) d = f (nth k a d).
Proof.
  revert k. induction a as [| x a IH]; intros [| k] H; simpl in *;
    try lia; [reflexivity | apply IH; lia].
Qed.

Lemma update_nth_other {A} (a : list A) k k' f d :
  k' <> k -> nth k' (update a k f) d = nth k' a d.
Proof.
  revert k k'. induction a as [| x a IH]; intros [| k] [| k'] H; simpl;
    try reflexivity; try congruence.
  apply IH. congruence.
Qed.

End Numpy.

(** ** The simulators' own [PriorityQueue] class *)

Module PriorityQueue.

(** The heap entries: (priority, entry, service). *)
Record customer := Customer { priority : Z; entry : Q; service : Q }.

(** Python's order on those tuples. *)
Definition tuple_ltb (a b : customer) : bool :=
  if (priority a <? priority b)%Z then true
  else if (priority b <? priority a)%Z then false
  else match entry a ?= entry b with
       | Lt => true
       | Gt => false
       | Eq => Qltb (service a) (service b)
       end.

Definition push (items : list customer) (p : Z) (e sv : Q) : list customer :=
  Heapq.heappush items (Customer p e sv).

Definition pop (items : list customer) : option (customer * list customer) :=
  Heapq.heappop tuple_ltb items.

Definition empty (items : list customer) : bool :=
  match items with [] => true | _ => false end.

(** [a] is served no later than [b]. *)
Definition tuple_le (a b : customer) : Prop :=
  (priority a < priority b)%Z \/
  (priority a = priority b /\
   (entry a < entry b \/ (entry a == entry b /\ service a <= service b))).

Lemma tuple_ltb_false a b : tuple_ltb a b = false <-> tuple_le b a.
Proof.
  unfold tuple_ltb, tuple_le.
  destruct (Z.ltb_spec (priority a) (priority b)) as [L | L].
  { split; [discriminate |]. intro K. exfalso.
    destruct K as [K | [K _]]; lia. }
  destruct (Z.ltb_spec (priority b) (priority a)) as [L' | L'].
  { split; auto. }
  assert (P : priority b = priority a) by lia.
  destruct (Qcompare_spec (entry a) (entry b)) as [E | E | E].
  - rewrite Qltb_ge. split.
    + intro S. right. split; [exact P |]. right. split; [symmetry; exact E | exact S].
    + intros [K | [_ [K | [_ K]]]]; [lia | rewrite E in K; lra | exact K].
  - split; [discriminate |]. intro K. exfalso.
    destruct K as [K | [_ [K | [K _]]]]; [lia | lra | rewrite K in E; lra].
  - split; auto.
Qed.

Lemma tuple_le_trans a b c : tuple_le a b -> tuple_le b c -> tuple_le a c.
Proof.
  unfold tuple_le.
  intros [L1 | [P1 H1]] [L2 | [P2 H2]]; [left; lia | left; lia | left; lia |].
  right. split; [lia |].
  destruct H1 as [E1 | [E1 S1]], H2 as [E2 | [E2 S2]].
  - left. lra.
  - left. rewrite <- E2. exact E1.
  - left. rewrite E1. exact E2.
  - right. split; [rewrite E1; exact E2 | lra].
Qed.

Lemma tuple_ltb_asym a b : tuple_ltb a b = true -> tuple_ltb b a = false.
Proof.
  intro H. apply tuple_ltb_false.
  unfold tuple_ltb in H. unfold tuple_le.
  destruct (Z.ltb_spec (priority a) (priority b)) as [L | L]; [left; exact L |].
  destruct (Z.ltb_spec (priority b) (priority a)) as [L' | L']; [discriminate |].
  right. split; [lia |].
  destruct (Qcompare_spec (entry a) (entry b)) as [E | E | E];
    [| left; exact E | discriminate].
  right. split; [exact E |]. apply Qltb_lt in H. lra.
Qed.

Lemma tuple_ltb_negtrans a b c :
  tuple_ltb b a = false -> tuple_ltb c b = false -> tuple_ltb c a = false.
Proof.
  rewrite !tuple_ltb_false. intros H1 H2. eapply tuple_le_trans; eassumption.
Qed.

Lemma pop_in items c rest :
  pop items = Some (c, rest) ->
  In c items /\ (forall x, In x rest -> In x items) /\
  (forall x, In x items -> x = c \/ In x rest).
Proof. apply Heapq.heappop_in. Qed.

Lemma pop_least items c rest :
  pop items = Some (c, rest) -> forall x, In x rest -> tuple_le c x.
Proof.
  intros P x Hx. apply tuple_ltb_false.
  eapply (Heapq.heappop_least tuple_ltb tuple_ltb_asym tuple_ltb_negtrans);
    eassumption.
Qed.

Lemma pop_some items : empty items = false -> exists c rest, pop items = Some (c, rest).
Proof.
  intro H. apply Heapq.heappop_some. destruct items; [discriminate | congruence].
Qed.

Lemma empty_true items : empty items = true <-> items = [].
Proof. destruct items; simpl; split; congruence. Qed.

End PriorityQueue.

(** ** CBRS_WaitTime_Sim_v1.py: three classes, one server process,
       preemptive resume through the heap *)

Module WaitTimeSimV1.

Import SimPy PriorityQueue.

(** The events of a run, by what their callbacks resume. *)
Inductive what :=
| InitCust | InitInc | InitProv     (* [env.process(...)] in [__init__] *)
| CustTimeout | IncTimeout           (* the interarrival timeouts *)
| Wakeup (k : nat)                   (* [server_wakeup] object [k] succeeded *)
| ServTimeout                        (* [env.timeout(self.next[2])] *)
| Interruption                       (* [self.prov_proc.interrupt()] *)
| Until.                             (* the stop event of [env.run] *)

(** Where [provider] is suspended. *)
Inductive pc :=
| NotStarted
| AtWakeup (k : nat)     (* [yield self.server_wakeup], on object [k] *)
| AtService (t : nat).   (* [yield env.timeout(self.next[2])], event [t] *)

(** The attributes of [SimEnv], [provider]'s local [serv_start], and the
    number of samples drawn from [np.random] so far. *)
Record SimEnv := MkSimEnv
  { w : list Q;
    n : list Q;
    q : list customer;
    idle : bool;
    server_wakeup : nat;
    next : option customer;
    prov : pc;
    serv_start : Q;
    rng : nat }.

Definition set_w v u := MkSimEnv v (n u) (q u) (idle u) (server_wakeup u) (next u) (prov u) (serv_start u) (rng u).
Definition set_n v u := MkSimEnv (w u) v (q u) (idle u) (server_wakeup u) (next u) (prov u) (serv_start u) (rng u).
Definition set_q v u := MkSimEnv (w u) (n u) v (idle u) (server_wakeup u) (next u) (prov u) (serv_start u) (rng u).
Definition set_idle v u := MkSimEnv (w u) (n u) (q u) v (server_wakeup u) (next u) (prov u) (serv_start u) (rng u).
Definition set_server_wakeup v u := MkSimEnv (w u) (n u) (q u) (idle u) v (next u) (prov u) (serv_start u) (rng u).
Definition set_next v u := MkSimEnv (w u) (n u) (q u) (idle u) (server_wakeup u) v (prov u) (serv_start u) (rng u).
Definition set_prov v u := MkSimEnv (w u) (n u) (q u) (idle u) (server_wakeup u) (next u) v (serv_start u) (rng u).
Definition set_serv_start v u := MkSimEnv (w u) (n u) (q u) (idle u) (server_wakeup u) (next u) (prov u) v (rng u).
Definition set_rng v u := MkSimEnv (w u) (n u) (q u) (idle u) (server_wakeup u) (next u) (prov u) (serv_start u) v.

Section Simulator.

(** Parameters of [Simulator] and the constants it derives. *)
Variables (PHI Ki MUi : Q).
Variables (T_START SIM_TIME : Q).
(** The [k]-th sample [np.random] returns, whatever the distribution asked. *)
Variable draw : nat -> Q.
(** Inverse CDF of the generalised Pareto service time,
    [(SCALE/SHAPE)*((1-cdf)**(-SHAPE)-1)+LOC]. *)
Variable GPareto : Q -> Q.

Local Abbreviation M := (SimPy.M what SimEnv).

Definition random : M Q :=
  k <- gets rng ;; modify (set_rng (S k)) ;;; ret (draw k).

(** [self.server_wakeup.succeed(); self.server_wakeup = env.event()]. *)
Definition wake_server : M unit :=
  k <- gets server_wakeup ;;
  succeed (Wakeup k) ;;;
  modify (set_server_wakeup (S k)).

(** [self.next[0]]. *)
Definition next_priority : M Z :=
  nx <- gets next ;;
  match nx with
  | Some c => ret (priority c)
  | None => raise AttributeError
  end.

(** [custarrivals], from the [yield] at the top of the loop. *)
Definition custarrivals_yield : M unit :=
  d <- random ;; _ <- timeout d CustTimeout ;; ret tt.

(** [custarrivals], from the timeout to the next [yield]. *)
Definition custarrivals_resume : M unit :=
  arrival <- env_now ;;
  u <- random ;;
  let decision := 1 - u in
  let priority := if Qle_bool decision PHI then 1%Z else 2%Z in
  cdf <- random ;;
  let serv_time := GPareto cdf in
  items <- gets q ;;
  modify (set_q (push items priority arrival serv_time)) ;;;
  i <- gets idle ;;
  (if i then wake_server
   else p <- next_priority ;;
        if (priority <? p)%Z then urgent Interruption else ret tt) ;;;
  custarrivals_yield.

Definition incarrivals_yield : M unit :=
  d <- random ;; _ <- timeout d IncTimeout ;; ret tt.

(** [SHAPEi] and [SCALEi] are bound only when [Ki > 1]: with [Ki < 1] the
    gamma sample reads unbound names. *)
Definition incarrivals_resume : M unit :=
  arrival <- env_now ;;
  serv_time <- (if Qeq_bool Ki 1 then ret (1 / MUi)
                else if Qltb 1 Ki then random
                     else raise NameError) ;;
  items <- gets q ;;
  modify (set_q (push items 0 arrival serv_time)) ;;;
  i <- gets idle ;;
  (if i then wake_server
   else p <- next_priority ;;
        if (0 <? p)%Z then urgent Interruption else ret tt) ;;;
  incarrivals_yield.

(** [provider], from [self.next = self.q.pop()] to the service timeout. *)
Definition serve : M unit :=
  items <- gets q ;;
  match pop items with
  | None => raise IndexError
  | Some (c, rest) =>
      modify (set_q rest) ;;;
      modify (set_next (Some c)) ;;;
      modify (set_idle false) ;;;
      t <- env_now ;;
      modify (set_serv_start t) ;;;
      e <- timeout (service c) ServTimeout ;;
      modify (set_prov (AtService e))
  end.

(** [provider], from the top of [while True] to the next [yield]. *)
Definition provider_loop : M unit :=
  modify (set_idle true) ;;;
  items <- gets q ;;
  if empty items
  then k <- gets server_wakeup ;; modify (set_prov (AtWakeup k))
  else serve.

(** The statistics, recorded when the service timeout returns. *)
Definition record : M unit :=
  t <- env_now ;;
  if Qltb T_START t then
    nx <- gets next ;;
    match nx with
    | None => raise AttributeError
    | Some c =>
        ws <- gets w ;; ns <- gets n ;;
        match Numpy.add_at ws (priority c) (t - entry c),
              Numpy.add_at ns (priority c) 1 with
        | Some ws', Some ns' => modify (set_w ws') ;;; modify (set_n ns')
        | _, _ => raise IndexError
        end
    end
  else ret tt.

(** [except simpy.Interrupt]: the job goes back to the heap with what is
    left of its service. *)
Definition requeue : M unit :=
  t <- env_now ;;
  nx <- gets next ;;
  start <- gets serv_start ;;
  match nx with
  | None => raise AttributeError
  | Some c =>
      items <- gets q ;;
      modify (set_q (push items (priority c) (entry c)
                          (service c - (t - start))))
  end.

Definition dispatch (wh : what) (id : nat) : M unit :=
  match wh with
  | InitCust => custarrivals_yield
  | InitInc => incarrivals_yield
  | InitProv => provider_loop
  | CustTimeout => custarrivals_resume
  | IncTimeout => incarrivals_resume
  | Wakeup k =>
      p <- gets prov ;;
      match p with
      | AtWakeup k' => if (k =? k')%nat then serve else ret tt
      | _ => ret tt
      end
  | ServTimeout =>
      p <- gets prov ;;
      match p with
      | AtService t => if (t =? id)%nat then record ;;; provider_loop else ret tt
      | _ => ret tt
      end
  | Interruption =>
      p <- gets prov ;;
      match p with
      | AtService _ => requeue ;;; provider_loop
      | _ => raise Interrupt
      end
  | Until => raise StopSimulation
  end.

(** [SimEnv(env)] followed by the first lines of [env.run(until=SIM_TIME)]. *)
Definition fresh : SimEnv :=
  MkSimEnv Numpy.zeros3 Numpy.zeros3 [] true 0 None NotStarted 0 0.

Definition init : sim what SimEnv :=
  Sim (schedule URGENT SIM_TIME Until
        (schedule URGENT 0 InitProv
          (schedule URGENT 0 InitInc
            (schedule URGENT 0 InitCust (Env 0 0 [])))))
      fresh.

(** One replicate, cut after [fuel] events. *)
Definition simulate (fuel : nat) : outcome what SimEnv :=
  if Qle_bool SIM_TIME 0 then Halt (Some ValueError) init
  else run dispatch fuel init.

(** *** The scheduler's invariants hold for this simulator *)

Lemma grows_random : grows random.
Proof. unfold random. grows. Qed.

Lemma grows_serve : grows serve.
Proof. unfold serve. grows. Qed.

Lemma grows_provider_loop : grows provider_loop.
Proof. unfold provider_loop. grows; apply grows_serve. Qed.

Lemma dispatch_grows wh id : grows (dispatch wh id).
Proof.
  pose proof grows_random. pose proof grows_serve.
  pose proof grows_provider_loop.
  destruct wh; unfold dispatch, custarrivals_resume, custarrivals_yield,
    incarrivals_resume, incarrivals_yield, wake_server, next_priority,
    record, requeue; grows; assumption.
Qed.

(** *** Where the provider is, and what will resume it *)

Definition coherent (s : sim what SimEnv) : Prop :=
  let u := St s in
  match prov u with
  | NotStarted => idle u = true /\ pending (E s) (eq InitProv)
  | AtWakeup k =>
      idle u = true /\
      ((k = server_wakeup u /\ q u = []) \/
       ((k < server_wakeup u)%nat /\ pending (E s) (eq (Wakeup k))))
  | AtService _ => idle u = false
  end.

Definition inv (s : sim what SimEnv) : Prop := env_wf (E s) /\ coherent s.

Lemma pending_now (e : env what) prio wh (P : what -> Prop) :
  P wh -> pending (schedule prio 0 wh e) P.
Proof.
  intro Pw. exists (Event (now e + 0) prio (eid e) wh).
  split; [left; reflexivity |]. split; [exact Pw |]. simpl. lra.
Qed.

Lemma step_inv s s' : inv s -> step dispatch s = Next s' -> inv s'.
Proof.
  intros [Wf C] H.
  destruct (step_wf dispatch dispatch_grows _ _ Wf H) as [Wf' _].
  split; [exact Wf' |]. clear Wf'.
  unfold step in H.
  destruct (advance (E s)) as [[ev e1] |] eqn:A; [| discriminate].
  destruct (dispatch _ _ _) as [x | [[] s2]] eqn:D; [discriminate |].
  inversion H; subst; clear H.
  pose proof (dispatch_grows _ _ _ _ _ D) as X. simpl in X.
  assert (HP : forall P, pending (E s) P -> ~ P (ev_what ev) ->
                         pending (E s') P).
  { intros P Pe NP. eapply pending_extends; [exact X |].
    eapply pending_advance; eassumption. }
  clear A Wf.
  destruct s as [e u]. simpl in *.
  destruct ev as [tm pr id wh]. simpl in *.
  destruct u as [ws ns qs i k nx p st r].
  unfold coherent in C. simpl in C.
  destruct wh; unfold dispatch in D;
    cbv [custarrivals_yield custarrivals_resume incarrivals_yield
         incarrivals_resume wake_server next_priority provider_loop serve
         record requeue random
         bind gets modify ret raise timeout succeed urgent env_now] in D;
    exec D; unfold coherent; cbn in *.
  all: try reflexivity.
  all: repeat match goal with
         | |- match ?p with _ => _ end => destruct p
         | H : _ /\ _ |- _ => destruct H
         end; subst; try discriminate.
  all: try reflexivity.
  all: try (split; [reflexivity |]).
  all: try (left; split;
            [reflexivity
            | first [reflexivity | assumption | apply empty_true; assumption]]).
  all: repeat match goal with H : _ \/ _ |- _ => destruct H as [[? ?] | [? ?]] end;
    subst.
  all: try (left; split; reflexivity).
  all: try (right; split; [lia |]).
  all: try (apply HP; [assumption |]; intro Q; inversion Q; subst;
            rewrite ?Nat.eqb_refl in *; discriminate).
  all: try match goal with
         | |- pending ?E (eq ?W) =>
             match E with
             | context [schedule ?p 0 W ?e0] =>
                 exists (Event (now e0 + 0) p (eid e0) W);
                 split; [simpl; auto | split; [reflexivity | simpl; lra]]
             end
         end.
Qed.

Lemma init_wf : 0 <= SIM_TIME -> env_wf (E init).
Proof.
  intro H. unfold env_wf, init. simpl.
  repeat constructor; simpl; lra.
Qed.

Lemma init_inv : 0 <= SIM_TIME -> inv init.
Proof.
  intro H. split; [apply init_wf; exact H |].
  unfold coherent, init. simpl. split; [reflexivity |].
  exists (Event (0 + 0) URGENT 2 InitProv).
  split; [simpl; auto |]. split; [reflexivity | simpl; lra].
Qed.

Lemma reach_inv s : 0 <= SIM_TIME -> reach dispatch init s -> inv s.
Proof.
  intros H R. induction R as [| s s' R IH St1]; [apply init_inv; exact H |].
  eapply step_inv; eassumption.
Qed.

(** The stop event of [env.run(until=SIM_TIME)]. *)
Definition stop_event : event what := Event (0 + SIM_TIME) URGENT 3 Until.

Lemma stop_event_stops : stops_at dispatch stop_event.
Proof. intro s. reflexivity. Qed.

Lemma stop_event_init : In stop_event (queue (E init)).
Proof. left. reflexivity. Qed.

(** What resumes the provider when it is not serving. *)
Definition resumes_provider (u : SimEnv) (wh : what) : Prop :=
  match prov u with
  | NotStarted => wh = InitProv
  | AtWakeup k => wh = Wakeup k
  | AtService _ => False
  end.

Lemma idle_with_jobs_is_woken s :
  inv s -> idle (St s) = true -> q (St s) <> [] ->
  pending (E s) (resumes_provider (St s)).
Proof.
  intros [_ C] I Qn. unfold coherent in C. unfold resumes_provider.
  destruct (prov (St s)) as [| k | t].
  - destruct C as [_ (ev & In1 & P & T)]. exists ev. auto.
  - destruct C as [_ [[_ Qe] | [_ (ev & In1 & P & T)]]]; [contradiction |].
    exists ev. auto.
  - congruence.
Qed.

Lemma idle_clock_advance s ev e1 :
  inv s -> advance (E s) = Some (ev, e1) -> now (E s) < now e1 ->
  idle (St s) = true -> q (St s) = [].
Proof.
  intros I A L Id.
  destruct (q (St s)) as [| c rest] eqn:Qs; [reflexivity | exfalso].
  assert (P : pending (E s) (resumes_provider (St s))).
  { apply idle_with_jobs_is_woken; [exact I | exact Id | congruence]. }
  pose proof (pending_holds_clock _ _ _ _ (proj1 I) A P) as Eq1.
  rewrite Eq1 in L. lra.
Qed.

Lemma simulate_reach fuel s :
  simulate fuel = Next s -> 0 < SIM_TIME /\ reach dispatch init s.
Proof.
  unfold simulate. destruct (Qle_bool SIM_TIME 0) eqn:B; [discriminate |].
  intro H. split.
  - apply Qnot_le_lt. intro L. apply Qle_bool_iff in L. congruence.
  - eapply run_reach; [apply reach_init | exact H].
Qed.

Lemma busy_le_horizon fuel :
  0 <= SIM_TIME ->
  busy_time dispatch (fun u => negb (idle u)) fuel init <= SIM_TIME.
Proof.
  intro H.
  pose proof (busy_time_bound dispatch dispatch_grows (fun u => negb (idle u))
                stop_event fuel init stop_event_stops (init_wf H)
                stop_event_init) as B.
  simpl in B. lra.
Qed.

(** *** Interrupts hit the job they were meant for

    An interrupt is an URGENT event at the current time: nothing that
    changes the server's job is processed between the arrival that asks
    for it and the interrupt itself. *)

Definition is_intr (wh : what) : bool :=
  match wh with Interruption => true | _ => false end.

Definition is_initprov (wh : what) : bool :=
  match wh with InitProv => true | _ => false end.

Definition is_normal (wh : what) : bool :=
  match wh with
  | CustTimeout | IncTimeout | Wakeup _ | ServTimeout => true
  | _ => false
  end.

(** The job in service has a strictly better-placed job behind it. *)
Definition preempt_ok (u : SimEnv) : Prop :=
  exists t c0 c,
    prov u = AtService t /\ next u = Some c0 /\ In c (q u) /\
    (priority c < priority c0)%Z.

Definition sched_ok (s : sim what SimEnv) : Prop :=
  (forall ev, In ev (queue (E s)) ->
              is_normal (ev_what ev) = true -> ev_prio ev = NORMAL) /\
  (count is_intr (E s) <= 1)%nat /\
  (forall ev, In ev (queue (E s)) -> ev_what ev = Interruption ->
              ev_time ev <= now (E s) /\ ev_prio ev = URGENT /\
              preempt_ok (St s)) /\
  (count is_initprov (E s) <= 1)%nat /\
  (forall ev, In ev (queue (E s)) -> ev_what ev = InitProv ->
              prov (St s) = NotStarted).

Lemma no_interrupt_behind_normal s ev e1 :
  env_wf (E s) -> sched_ok s -> advance (E s) = Some (ev, e1) ->
  ev_prio ev = NORMAL -> count is_intr e1 = 0%nat.
Proof.
  intros Wf (_ & _ & Sc & _) A Pn.
  destruct (advance_wf _ _ _ Wf A) as (_ & _ & _ & I0 & _ & I4).
  apply count_zero. intros x Hx.
  destruct (ev_what x) eqn:Wx; try reflexivity. exfalso.
  destruct (I4 _ Hx) as [Ix K].
  destruct (Sc _ Ix Wx) as (T & U & _).
  unfold env_wf in Wf. rewrite Forall_forall in Wf.
  pose proof (Wf _ I0) as T0.
  unfold URGENT, NORMAL in *.
  destruct K as [K | [_ [K | [K _]]]]; [lra | lia | lia].
Qed.

Lemma step_sched_ok s s' :
  inv s -> sched_ok s -> step dispatch s = Next s' -> sched_ok s'.
Proof.
  intros [Wf C] Sk H.
  pose proof (no_interrupt_behind_normal s) as Rn.
  destruct Sk as (Sa & Sb & Sc & Sd & Se).
  unfold step in H.
  destruct (advance (E s)) as [[ev e1] |] eqn:A; [| discriminate].
  destruct (dispatch _ _ _) as [x | [[] s2]] eqn:D; [discriminate |].
  inversion H; subst; clear H.
  specialize (Rn ev e1 Wf (conj Sa (conj Sb (conj Sc (conj Sd Se)))) eq_refl).
  pose proof (count_advance is_intr _ _ _ A) as CI.
  pose proof (count_advance is_initprov _ _ _ A) as CP.
  destruct (advance_wf _ _ _ Wf A) as (Wf1 & Le & N & I0 & I3 & I4).
  assert (Ra : forall x, In x (queue e1) ->
                         is_normal (ev_what x) = true -> ev_prio x = NORMAL).
  { intros x Hx. apply Sa. apply I4. exact Hx. }
  assert (Rc : forall x, In x (queue e1) -> ev_what x = Interruption ->
                         ev_time x <= now e1 /\ ev_prio x = URGENT /\
                         preempt_ok (St s)).
  { intros x Hx Wx. destruct (Sc x (proj1 (I4 _ Hx)) Wx) as (T & U & P).
    repeat split; [lra | exact U | exact P]. }
  assert (Rd : forall x, In x (queue e1) -> ev_what x = InitProv ->
                         prov (St s) = NotStarted).
  { intros x Hx. apply Se. apply I4. exact Hx. }
  pose proof (Sa _ I0) as Pa. pose proof (Sc _ I0) as Pc.
  pose proof (Se _ I0) as Pe.
  clear Sa Sc Se A Wf I3 I4 I0.
  destruct s as [e u]. simpl in *.
  destruct ev as [tm pr id wh]. simpl in *.
  destruct u as [ws ns qs i k nx p st r].
  unfold coherent in C. simpl in C.
  destruct wh; simpl in *;
    try specialize (Rn (Pa eq_refl)); try specialize (Pe eq_refl);
    try (destruct (Pc eq_refl) as (_ & _ & (t0 & c0 & c1 & P1 & P2 & P3 & P4)));
    simpl in *; subst;
    try destruct p; try discriminate;
    unfold dispatch in D;
    cbv [custarrivals_yield custarrivals_resume incarrivals_yield
         incarrivals_resume wake_server next_priority provider_loop serve
         record requeue random
         bind gets modify ret raise timeout succeed urgent env_now] in D;
    exec D; unfold sched_ok; cbn [E St queue now].
  all: split; [| split; [| split; [| split]]].
  all: try (rewrite ?count_schedule; cbn; lia).
  all: intros x Hx Hw; cbn in Hx; repeat (destruct Hx as [<- | Hx]);
    cbn in Hw; try discriminate; cbn; try reflexivity.
  all: try (apply (Ra _ Hx Hw)).
  all: try (apply (Rd _ Hx Hw)).
  all: try (pose proof (Rd _ Hx Hw); discriminate).
  all: try (exfalso;
            assert (Z0 : count is_intr e1 = 0%nat) by lia;
            rewrite count_zero in Z0; specialize (Z0 _ Hx);
            rewrite Hw in Z0; discriminate).
  all: try (exfalso;
            assert (Z0 : count is_initprov e1 = 0%nat) by lia;
            rewrite count_zero in Z0; specialize (Z0 _ Hx);
            rewrite Hw in Z0; discriminate).
  all: try (destruct (Rc _ Hx Hw) as (T & U & P);
            split; [lra | split; [exact U | exact P]]).
  all: try (destruct (Rc _ Hx Hw) as (_ & _ & (? & ? & ? & P & _));
            discriminate P).
  all: try (split; [lra | split; [reflexivity |]];
            unfold preempt_ok; cbn;
            eexists; eexists; eexists;
            split; [reflexivity |]; split; [reflexivity |];
            split; [left; reflexivity |]; cbn;
            apply Z.ltb_lt; assumption).
Qed.

Lemma init_sched_ok : sched_ok init.
Proof.
  unfold sched_ok, init. cbn [E St queue now schedule].
  split; [| split; [| split; [| split]]];
    try (unfold count; cbn; lia).
  all: intros x Hx Hw; cbn in Hx; repeat (destruct Hx as [<- | Hx]);
    cbn in Hw; try discriminate; try contradiction; reflexivity.
Qed.

Lemma reach_sched_ok s :
  0 <= SIM_TIME -> reach dispatch init s -> inv s /\ sched_ok s.
Proof.
  intros H R. induction R as [| s s' R [IH1 IH2] St1].
  - split; [apply init_inv; exact H | apply init_sched_ok].
  - split; [eapply step_inv | eapply step_sched_ok]; eassumption.
Qed.

(** What the provider does with an interrupt, in one piece. *)
Lemma interrupt_requeues s ev e1 s' t c0 :
  advance (E s) = Some (ev, e1) -> ev_what ev = Interruption ->
  prov (St s) = AtService t -> next (St s) = Some c0 ->
  step dispatch s = Next s' ->
  let back := Customer (priority c0) (entry c0)
                       (service c0 - (ev_time ev - serv_start (St s))) in
  exists c1,
    pop (push (q (St s)) (priority c0) (entry c0)
              (service c0 - (ev_time ev - serv_start (St s))))
      = Some (c1, q (St s')) /\
    next (St s') = Some c1 /\
    In back (c1 :: q (St s')) /\
    w (St s') = w (St s) /\ n (St s') = n (St s).
Proof.
  intros A Wx P Nx H back. unfold step in H. rewrite A in H.
  destruct (dispatch _ _ _) as [x | [[] s2]] eqn:D; [discriminate |].
  inversion H; subst; clear H.
  assert (N : now e1 = ev_time ev).
  { unfold advance in A.
    destruct (pop_min (queue (E s))) as [[m r] |]; [| discriminate].
    inversion A; subst. reflexivity. }
  clear A.
  destruct s as [e u]. destruct ev as [tm pr id wh]. simpl in *.
  destruct u as [ws ns qs i k nx p st r]. simpl in *. subst.
  unfold dispatch in D.
  cbv [provider_loop serve requeue
       bind gets modify ret raise timeout env_now] in D.
  exec D; cbn.
  all: eexists; split;
    [unfold pop, push, Heapq.heappush; cbn;
     repeat match goal with
            | H : Heapq.heappop _ _ = _ |- _ => rewrite H
            | H : tuple_ltb _ _ = _ |- _ => rewrite H
            end; reflexivity |].
  all: repeat split; try reflexivity.
  all: try (left; reflexivity).
  all: right; left; reflexivity.
Qed.

Lemma interrupt_cause s ev e1 :
  0 <= SIM_TIME -> reach dispatch init s ->
  advance (E s) = Some (ev, e1) -> ev_what ev = Interruption ->
  preempt_ok (St s).
Proof.
  intros H R A Wx.
  destruct (reach_sched_ok _ H R) as [[Wf _] (_ & _ & Sc & _)].
  destruct (advance_wf _ _ _ Wf A) as (_ & _ & _ & I0 & _).
  destruct (Sc _ I0 Wx) as (_ & _ & P). exact P.
Qed.

(** What an arrival of class [pr] does to the provider: it asks for an
    interrupt exactly when the server is busy with a job of strictly
    greater priority number. *)
Definition interrupts_asked (pr : Z) (u : SimEnv) : nat :=
  if idle u then 0%nat
  else match next u with
       | Some c0 => if (pr <? priority c0)%Z then 1%nat else 0%nat
       | None => 0%nat
       end.

Lemma custarrivals_decision s s' :
  custarrivals_resume s = inr (tt, s') ->
  exists c,
    q (St s') = c :: q (St s) /\ entry c = now (E s) /\
    (priority c = 1%Z \/ priority c = 2%Z) /\
    count is_intr (E s')
    = (count is_intr (E s) + interrupts_asked (priority c) (St s))%nat.
Proof.
  intro D. destruct s as [e u]. destruct u as [ws ns qs i k nx p st r].
  cbv [custarrivals_yield custarrivals_resume wake_server next_priority
       random bind gets modify ret raise timeout succeed urgent env_now]
    in D.
  exec D; cbn; eexists; (split; [reflexivity |]); (split; [reflexivity |]);
    (split; [cbn; auto |]); unfold count, interrupts_asked; cbn;
    repeat match goal with H : (_ <? _)%Z = _ |- _ => rewrite H end; lia.
Qed.

Lemma incarrivals_decision s s' :
  incarrivals_resume s = inr (tt, s') ->
  exists c,
    q (St s') = c :: q (St s) /\ entry c = now (E s) /\
    priority c = 0%Z /\
    count is_intr (E s')
    = (count is_intr (E s) + interrupts_asked 0 (St s))%nat.
Proof.
  intro D. destruct s as [e u]. destruct u as [ws ns qs i k nx p st r].
  cbv [incarrivals_yield incarrivals_resume wake_server next_priority
       random bind gets modify ret raise timeout succeed urgent env_now]
    in D.
  exec D; cbn; eexists; (split; [reflexivity |]); (split; [reflexivity |]);
    (split; [reflexivity |]); unfold count, interrupts_asked; cbn;
    repeat match goal with H : (_ <? _)%Z = _ |- _ => rewrite H end; lia.
Qed.

(** *** Two timeouts due at the same instant *)

Lemma same_instant_order s ev e1 evS evA :
  0 <= SIM_TIME -> reach dispatch init s ->
  advance (E s) = Some (ev, e1) ->
  In evS (queue (E s)) -> In evA (queue (E s)) ->
  ev_what evS = ServTimeout ->
  ev_what evA = CustTimeout \/ ev_what evA = IncTimeout ->
  ev_time evS == ev_time evA ->
  (ev = evA -> (ev_id evA <= ev_id evS)%nat) /\
  (ev = evS -> (ev_id evS <= ev_id evA)%nat).
Proof.
  intros H R A IS IA WS WA T.
  destruct (reach_sched_ok _ H R) as [[Wf _] (Sa & _)].
  assert (PS : ev_prio evS = NORMAL) by (apply Sa; [exact IS | rewrite WS; reflexivity]).
  assert (PA : ev_prio evA = NORMAL)
    by (apply Sa; [exact IA | destruct WA as [-> | ->]; reflexivity]).
  destruct (advance_wf _ _ _ Wf A) as (_ & _ & _ & _ & I3 & I4).
  split; intro; subst ev.
  - destruct (I3 _ IS) as [-> | Hr];
      [destruct WA as [WA | WA]; congruence |].
    destruct (I4 _ Hr) as [_ [K | [_ [K | [_ K]]]]]; [lra | lia | exact K].
  - destruct (I3 _ IA) as [-> | Hr];
      [destruct WA as [WA | WA]; congruence |].
    destruct (I4 _ Hr) as [_ [K | [_ [K | [_ K]]]]]; [lra | lia | exact K].
Qed.

(** *** The run never raises

    With samples that are valid durations and [Ki >= 1], nothing in a run
    raises: the heap is never popped empty, [self.next] is set whenever it
    is read, no timeout gets a negative delay, and an interrupt finds the
    provider in its [try] block. *)

Section Safety.

Hypothesis draw_nonneg : forall k, 0 <= draw k.
Hypothesis GPareto_nonneg : forall k, 0 <= GPareto (draw k).
Hypothesis Ki_valid : 1 <= Ki.
Hypothesis MUi_pos : 0 < MUi.

Definition good (c : customer) : Prop :=
  (0 <= priority c <= 2)%Z /\ 0 <= service c.

Definition safe (s : sim what SimEnv) : Prop :=
  let u := St s in
  length (w u) = 3%nat /\ length (n u) = 3%nat /\
  Forall good (q u) /\
  match prov u with
  | NotStarted => True
  | AtWakeup k => (k < server_wakeup u)%nat -> q u <> []
  | AtService t =>
      exists c ev,
        next u = Some c /\ (0 <= priority c <= 2)%Z /\
        In ev (queue (E s)) /\ ev_what ev = ServTimeout /\ ev_id ev = t /\
        ev_time ev == serv_start u + service c
  end /\
  (forall ev k, In ev (queue (E s)) -> ev_what ev = Wakeup k ->
                (k < server_wakeup u)%nat).

Lemma good_pop items c rest :
  Forall good items -> pop items = Some (c, rest) ->
  good c /\ Forall good rest.
Proof.
  intros F P. destruct (pop_in _ _ _ P) as (I1 & I2 & _).
  rewrite Forall_forall in F. split; [auto |].
  apply Forall_forall. auto.
Qed.

Lemma add_at_3 a i x :
  length a = 3%nat -> (0 <= i <= 2)%Z ->
  exists a', Numpy.add_at a i x = Some a' /\ length a' = 3%nat.
Proof.
  intros L I. rewrite Numpy.add_at_in_range by lia.
  eexists. split; [reflexivity |]. rewrite Numpy.update_length. exact L.
Qed.

Lemma add_at_length a i x a' :
  Numpy.add_at a i x = Some a' -> length a' = length a.
Proof.
  unfold Numpy.add_at. destruct (Numpy.index _ _); [| discriminate].
  intro H. inversion H; subst. apply Numpy.update_length.
Qed.

Local Opaque Heapq.heappop.

Lemma step_safe s :
  inv s -> sched_ok s -> safe s ->
  match step dispatch s with
  | Next s' => safe s'
  | Halt (Some x) _ => x = StopSimulation
  | Halt None _ => queue (E s) = []
  end.
Proof.
  intros [Wf C] Sk (Lw & Ln & Fq & Sp & Sw).
  destruct Sk as (_ & _ & Sc & _ & _).
  unfold step.
  destruct (advance (E s)) as [[ev e1] |] eqn:A.
  2:{ unfold advance in A.
      destruct (pop_min (queue (E s))) as [[m r] |] eqn:P; [discriminate |].
      apply Heapq.heappop_none in P. exact P. }
  destruct (advance_wf _ _ _ Wf A) as (Wf1 & Le & N & I0 & I3 & I4).
  pose proof (Sc _ I0) as Pc. pose proof (fun k => Sw _ k I0) as Pw.
  assert (Rw : forall x k, In x (queue e1) -> ev_what x = Wakeup k ->
                           (k < server_wakeup (St s))%nat).
  { intros x k Hx. apply Sw. apply I4. exact Hx. }
  assert (Rt : forall x, In x (queue e1) -> now e1 <= ev_time x).
  { unfold env_wf in Wf1. rewrite Forall_forall in Wf1. exact Wf1. }
  assert (Rs : forall t, prov (St s) = AtService t ->
            exists c, next (St s) = Some c /\ (0 <= priority c <= 2)%Z /\
            ((ev_what ev = ServTimeout /\ ev_id ev = t) \/
             exists x, In x (queue e1) /\ ev_what x = ServTimeout /\
                       ev_id x = t /\
                       ev_time x == serv_start (St s) + service c)).
  { intros t P. rewrite P in Sp.
    destruct Sp as (c & x & Nx & Pr & Ix & Wx & Idx & Tx).
    exists c. split; [exact Nx |]. split; [exact Pr |].
    destruct (I3 _ Ix) as [-> | Hr]; [left; auto |].
    right. exists x. auto. }
  clear Sc Sw A I3 I4 I0 Wf Wf1.
  destruct s as [e u]. simpl in *.
  destruct ev as [tm pr id wh]. simpl in *.
  destruct u as [ws ns qs i k nx p st r].
  unfold coherent in C. simpl in *.
  destruct (dispatch wh id _) as [x | [[] s2]] eqn:D.
  - (* nothing raises but the stop event *)
    destruct wh; unfold dispatch in D;
    cbv [custarrivals_yield custarrivals_resume incarrivals_yield
         incarrivals_resume wake_server next_priority provider_loop serve
         record requeue random
         bind gets modify ret raise timeout succeed urgent env_now] in D;
    exec D; try reflexivity; exfalso.
    all: try match goal with
         | H : Qltb (draw ?j) 0 = true |- _ =>
             apply Qltb_lt in H; pose proof (draw_nonneg j); lra
         end.
    all: try (destruct (Pc eq_refl) as (_ & _ & (? & ? & ? & P1 & _));
              discriminate P1).
    all: try match goal with
         | H1 : Qeq_bool Ki 1 = false, H2 : Qltb 1 Ki = false |- _ =>
             apply Qltb_ge in H2;
             assert (H3 : Ki == 1) by lra;
             apply Qeq_bool_iff in H3; congruence
         end.
    all: try (destruct p; destruct C; discriminate).
    all: try (destruct p;
              [ destruct C; discriminate | destruct C; discriminate
              | destruct (Rs _ eq_refl) as (? & X & _); discriminate X ]).
    all: try (destruct (Rs _ eq_refl) as (? & X & _); discriminate X).
    all: try match goal with
         | F : Forall good ?l, H : pop ?l = Some (?c, _),
           H1 : Qltb (service ?c) 0 = true |- _ =>
             destruct (good_pop _ _ _ F H) as [[_ G] _];
             apply Qltb_lt in H1; lra
         end.
    all: try match goal with
         | H : pop ?l = None, H1 : empty ?l = false |- _ =>
             apply Heapq.heappop_none in H; subst; discriminate H1
         end.
    all: try match goal with
         | H : (?a =? ?b)%nat = true, H1 : pop ?l = None |- _ =>
             apply Nat.eqb_eq in H; subst;
             apply Heapq.heappop_none in H1; subst;
             apply Sp; [apply Pw; reflexivity | reflexivity]
         end.
    all: try match goal with
         | H : Numpy.add_at ?a (priority ?c) ?x = None |- _ =>
             destruct (Rs _ eq_refl) as (c0 & X & Pr & _);
             inversion X; subst c0;
             first [ destruct (add_at_3 a (priority c) x Lw Pr) as (? & Y & _)
                   | destruct (add_at_3 a (priority c) x Ln Pr) as (? & Y & _) ];
             congruence
         end.
    all: try match goal with
         | H : pop (push _ _ _ _) = None |- _ =>
             apply Heapq.heappop_none in H; discriminate H
         end.
    all: match goal with
         | H : pop (push ?l (priority ?c) ?a ?b) = Some (?c0, _),
           H1 : Qltb (service ?c0) 0 = true |- _ =>
             assert (Fb : Forall good (push l (priority c) a b));
             [ destruct (Rs _ eq_refl)
                 as (c' & X & Pr & [[Y _] | (x & Ix & _ & _ & Tx)]);
               [ discriminate Y |];
               inversion X; subst c';
               constructor; [| exact Fq];
               split; [exact Pr |]; simpl;
               pose proof (Rt _ Ix) as Ry; rewrite Tx in Ry; lra
             | destruct (good_pop _ _ _ Fb H) as [[_ G] _];
               apply Qltb_lt in H1; lra ]
         end.
  - destruct wh; unfold dispatch in D;
    cbv [custarrivals_yield custarrivals_resume incarrivals_yield
         incarrivals_resume wake_server next_priority provider_loop serve
         record requeue random
         bind gets modify ret raise timeout succeed urgent env_now] in D;
    exec D; unfold safe; cbn.
    all: try (destruct (Pc eq_refl) as (_ & _ & (? & ? & ? & P1 & _));
              discriminate P1).
    all: try match goal with
         | H : pop (push ?l (priority ?c) ?a ?b) = Some _ |- _ =>
             assert (Fb : Forall good (push l (priority c) a b));
             [ destruct (Rs _ eq_refl)
                 as (c' & X & Pr & [[Y _] | (x & Ix & _ & _ & Tx)]);
               [ discriminate Y |];
               inversion X; subst c';
               constructor; [| exact Fq];
               split; [exact Pr |]; simpl;
               pose proof (Rt _ Ix) as Ry; rewrite Tx in Ry; lra
             | destruct (good_pop _ _ _ Fb H) as [[Gp Gs] Gr] ]
         | H : pop ?l = Some _ |- _ =>
             destruct (good_pop _ _ _ Fq H) as [[Gp Gs] Gr]
         end.
    all: refine (conj _ (conj _ (conj _ (conj _ _)))).
    all: try assumption.
    all: try match goal with
         | H : Numpy.add_at _ _ _ = Some ?l |- length ?l = _ =>
             rewrite (add_at_length _ _ _ _ H); assumption
         end.
    all: try (intros x kx Hx Hw; cbn in Hx;
              repeat (destruct Hx as [<- | Hx]); cbn in Hw;
              first [ discriminate
                    | inversion Hw; subst; lia
                    | pose proof (Rw _ _ Hx Hw); lia
                    | pose proof (Pw _ eq_refl); pose proof (Rw _ _ Hx Hw); lia ]).
    all: try (intros; lia).
    all: try match goal with
         | |- Forall good (push _ _ _ _) =>
             constructor; [| assumption]; split; cbn;
             [ lia
             | first [ apply GPareto_nonneg | apply draw_nonneg
                     | apply Qlt_le_weak, Qlt_shift_div_l; lra ] ]
         end.
    all: try match goal with
         | |- match ?p with _ => _ end =>
             destruct p;
             [ exact I
             | first [ exact Sp | intros _; discriminate ]
             | destruct (Rs _ eq_refl)
                 as (c' & X & Pr & [[Y _] | (x & Ix & Wx & Idx & Tx)]);
               [ discriminate Y |];
               exists c', x; cbn; auto 10 ]
         end.
    all: try (eexists; eexists; split; [reflexivity |];
              split; [exact Gp |]; split; [left; reflexivity |];
              cbn; repeat split; reflexivity).
    all: try (destruct (Rs _ eq_refl)
                as (c' & X & Pr & [[_ Y] | (x & Ix & Wx & Idx & Tx)]);
              [ subst; rewrite Nat.eqb_refl in *; discriminate |];
              exists c', x; cbn; auto 10).
    all: destruct (Rs _ eq_refl)
           as (c' & X & Pr & [[Y _] | (x & Ix & Wx & Idx & Tx)]);
      [ discriminate Y |];
      exists c', x; cbn; auto 10.
Qed.

Local Transparent Heapq.heappop.

Definition is_until (wh : what) : bool :=
  match wh with Until => true | _ => false end.

(** Only [env.run] schedules a stop event. *)
Lemma step_until s s' :
  step dispatch s = Next s' ->
  (count is_until (E s') <= count is_until (E s))%nat.
Proof.
  intro H. unfold step in H.
  destruct (advance (E s)) as [[ev e1] |] eqn:A; [| discriminate].
  destruct (dispatch _ _ _) as [x | [[] s2]] eqn:D; [discriminate |].
  inversion H; subst; clear H.
  pose proof (count_advance is_until _ _ _ A) as CU. clear A.
  destruct s as [e u]. simpl in *.
  destruct ev as [tm pr id wh]. simpl in *.
  destruct u as [ws ns qs i k nx p st r].
  destruct wh; unfold dispatch in D;
    cbv [custarrivals_yield custarrivals_resume incarrivals_yield
         incarrivals_resume wake_server next_priority provider_loop serve
         record requeue random
         bind gets modify ret raise timeout succeed urgent env_now] in D;
    exec D; unfold count in *; cbn in *; lia.
Qed.

Lemma reach_until s :
  reach dispatch init s -> (count is_until (E s) <= 1)%nat.
Proof.
  intro R. induction R as [| s s' R IH St1].
  - unfold count, init. cbn. lia.
  - pose proof (step_until _ _ St1). lia.
Qed.

Lemma init_safe : safe init.
Proof.
  unfold safe, init. cbn.
  refine (conj eq_refl (conj eq_refl (conj (Forall_nil _) (conj I _)))).
  intros x kx Hx Hw. repeat (destruct Hx as [<- | Hx]); try discriminate.
  contradiction.
Qed.

(** Every state a run reaches is coherent, well scheduled and safe, and
    the stop event is still ahead. *)
Lemma reach_safe s :
  0 <= SIM_TIME -> reach dispatch init s ->
  inv s /\ sched_ok s /\ safe s /\ In stop_event (queue (E s)).
Proof.
  intros H R. induction R as [| s s' R (I1 & I2 & I3 & I4) St1].
  - split; [apply init_inv; exact H |].
    split; [apply init_sched_ok |].
    split; [apply init_safe | apply stop_event_init].
  - split; [eapply step_inv; eassumption |].
    split; [eapply step_sched_ok; eassumption |].
    split.
    + pose proof (step_safe s I1 I2 I3) as X. rewrite St1 in X. exact X.
    + eapply step_before_stop;
        [apply dispatch_grows | apply stop_event_stops | exact I4 | exact St1].
Qed.

(** A step from a reachable state goes on, or it is the stop event at the
    horizon. *)
Lemma step_never_raises s :
  0 <= SIM_TIME -> reach dispatch init s ->
  (exists s', step dispatch s = Next s') \/
  (exists s1, step dispatch s = Halt (Some StopSimulation) s1 /\
              now (E s1) == SIM_TIME).
Proof.
  intros H R. destruct (reach_safe s H R) as ([Wf C] & I2 & I3 & I4).
  pose proof (step_safe s (conj Wf C) I2 I3) as X.
  destruct (step dispatch s) as [s' | [x |] s1] eqn:St1.
  - left. exists s'. reflexivity.
  - right. exists s1. subst x. split; [reflexivity |].
    unfold step in St1.
    destruct (advance (E s)) as [[ev e1] |] eqn:A; [| discriminate].
    destruct (dispatch _ _ _) as [x | [[] s2]] eqn:D; [| discriminate].
    inversion St1; subst; clear St1. simpl.
    destruct (advance_wf _ _ _ Wf A) as (Wf1 & Le & N & I0 & I3' & I4').
    assert (Wh : ev_what ev = Until).
    { destruct (ev_what ev) eqn:Wh; try reflexivity; exfalso;
        unfold dispatch in D;
        cbv [custarrivals_yield custarrivals_resume incarrivals_yield
             incarrivals_resume wake_server next_priority provider_loop serve
             record requeue random
             bind gets modify ret raise timeout succeed urgent env_now] in D;
        exec D. }
    pose proof (reach_until s R) as CU.
    rewrite (count_advance is_until _ _ _ A), Wh in CU. simpl in CU.
    assert (Z0 : count is_until e1 = 0%nat) by lia.
    rewrite count_zero in Z0.
    destruct (I3' _ I4) as [Eq1 | Hr].
    + rewrite N, <- Eq1. simpl. lra.
    + specialize (Z0 _ Hr). discriminate Z0.
  - exfalso. rewrite X in I4. destruct I4.
Qed.

End Safety.

(** *** The preemptive priority discipline

    Unless an interrupt of the provider is pending, no waiting job has a
    smaller priority number than the job in service. *)

Definition best_in_service (s : sim what SimEnv) : Prop :=
  forall t c0 c,
    prov (St s) = AtService t -> next (St s) = Some c0 ->
    count is_intr (E s) = 0%nat -> In c (q (St s)) ->
    (priority c0 <= priority c)%Z.

Lemma pop_priority items c rest x :
  pop items = Some (c, rest) -> In x rest -> (priority c <= priority x)%Z.
Proof.
  intros P Hx. destruct (pop_least _ _ _ P _ Hx) as [K | [K _]]; lia.
Qed.

Local Opaque Heapq.heappop.

Lemma step_best s s' :
  coherent s -> best_in_service s -> step dispatch s = Next s' ->
  best_in_service s'.
Proof.
  intros C B H. unfold step in H.
  destruct (advance (E s)) as [[ev e1] |] eqn:A; [| discriminate].
  destruct (dispatch _ _ _) as [x | [[] s2]] eqn:D; [discriminate |].
  inversion H; subst; clear H.
  pose proof (count_advance is_intr _ _ _ A) as CI. clear A.
  destruct s as [e u]. simpl in *.
  destruct ev as [tm pr id wh]. simpl in *.
  destruct u as [ws ns qs i k nx p st r].
  unfold best_in_service in *. unfold coherent in C. simpl in B, C.
  destruct wh; unfold dispatch in D;
    cbv [custarrivals_yield custarrivals_resume incarrivals_yield
         incarrivals_resume wake_server next_priority provider_loop serve
         record requeue random
         bind gets modify ret raise timeout succeed urgent env_now] in D;
    exec D; cbn; intros t' c' x P' N' Z' Ix;
    try discriminate P'; unfold count in *; cbn in *;
    try discriminate Z'.
  all: try (eapply B; eauto; lia).
  all: try match goal with
       | H : pop _ = Some (?c, ?l), N : Some ?c = Some ?c', Ix : In _ ?l |- _ =>
           inversion N; subst c'; exact (pop_priority _ _ _ _ H Ix)
       end.
  all: try (subst p; discriminate C).
  all: destruct Ix as [<- | Ix]; [| eapply B; eauto; lia].
  all: inversion N'; subst; cbn.
  all: match goal with
       | H : (_ <? _)%Z = false |- _ => apply Z.ltb_ge in H; lia
       end.
Qed.

Local Transparent Heapq.heappop.


Lemma reach_best s :
  0 <= SIM_TIME -> reach dispatch init s -> best_in_service s.
Proof.
  intros H R. induction R as [| s s' R IH St1].
  - intros t c0 c P. discriminate P.
  - eapply step_best; [| exact IH | exact St1].
    apply (reach_inv _ H R).
Qed.

(** A waiting job with a smaller priority number than the job in service
    means that the interrupt is on its way, due at the current instant. *)
Lemma outranked_is_interrupted s t c0 c :
  0 <= SIM_TIME -> reach dispatch init s ->
  prov (St s) = AtService t -> next (St s) = Some c0 ->
  In c (q (St s)) -> (priority c < priority c0)%Z ->
  pending (E s) (eq Interruption).
Proof.
  intros H R P Nx Ic Lt.
  pose proof (reach_best s H R) as B.
  destruct (reach_sched_ok s H R) as [_ (_ & _ & Sc & _)].
  destruct (count is_intr (E s)) as [| m] eqn:Cn.
  - specialize (B _ _ _ P Nx Cn Ic). lia.
  - assert (X : exists ev, In ev (queue (E s)) /\ ev_what ev = Interruption).
    { unfold count in Cn. clear - Cn.
      induction (queue (E s)) as [| a l IH]; [discriminate |].
      simpl in Cn. destruct (ev_what a) eqn:Wa; simpl in Cn;
        try (destruct (IH Cn) as (ev & I1 & I2); exists ev; split;
             [right; exact I1 | exact I2]).
      exists a. split; [left; reflexivity | exact Wa]. }
    destruct X as (ev & I1 & I2).
    destruct (Sc _ I1 I2) as (T & _).
    exists ev. split; [exact I1 |]. split; [symmetry; exact I2 | exact T].
Qed.

(** *** No job is lost or duplicated

    The jobs in the system are those on the heap and the one the provider
    is serving; a job is known by its class and its arrival time (its
    remaining service changes when it is preempted). *)

Definition key (c : customer) : Z * Q := (priority c, entry c).

Definition in_service (u : SimEnv) : list customer :=
  match prov u, next u with
  | AtService _, Some c => [c]
  | _, _ => []
  end.

Definition jobs (u : SimEnv) : list (Z * Q) :=
  map key (q u ++ in_service u).

Lemma jobs_pop items c rest :
  pop items = Some (c, rest) ->
  Permutation (map key (rest ++ [c])) (map key items).
Proof.
  intro P. apply Permutation_map.
  eapply perm_trans; [apply Permutation_app_comm |]. simpl.
  apply Permutation_sym. apply (Heapq.heappop_perm _ _ _ _ P).
Qed.

Lemma jobs_snoc l c :
  Permutation (map key (l ++ [c])) (key c :: map key l).
Proof.
  rewrite map_app. simpl. apply Permutation_sym, Permutation_cons_append.
Qed.

Local Opaque Heapq.heappop.

Lemma step_jobs s s' ev e1 :
  inv s -> sched_ok s ->
  advance (E s) = Some (ev, e1) -> step dispatch s = Next s' ->
  match ev_what ev with
  | CustTimeout | IncTimeout =>
      exists p, Permutation (jobs (St s')) ((p, ev_time ev) :: jobs (St s))
  | ServTimeout =>
      match prov (St s), next (St s) with
      | AtService t, Some c0 =>
          if (t =? ev_id ev)%nat
          then Permutation (jobs (St s)) (key c0 :: jobs (St s'))
          else Permutation (jobs (St s')) (jobs (St s))
      | _, _ => Permutation (jobs (St s')) (jobs (St s))
      end
  | _ => Permutation (jobs (St s')) (jobs (St s))
  end.
Proof.
  intros [Wf C] (_ & _ & _ & _ & Se) A H. unfold step in H. rewrite A in H.
  destruct (advance_wf _ _ _ Wf A) as (_ & _ & _ & I0 & _).
  specialize (Se _ I0). clear Wf I0.
  destruct (dispatch _ _ _) as [x | [[] s2]] eqn:D; [discriminate |].
  inversion H; subst; clear H.
  assert (N : now e1 = ev_time ev).
  { unfold advance in A.
    destruct (pop_min (queue (E s))) as [[m r] |]; [| discriminate].
    inversion A; subst. reflexivity. }
  clear A.
  destruct s as [e u]. simpl in *.
  destruct ev as [tm pr id wh]. simpl in *.
  destruct u as [ws ns qs i k nx p st r].
  unfold coherent in C. simpl in C, Se.
  destruct wh; try (rewrite (Se eq_refl) in *); unfold dispatch in D;
    cbv [custarrivals_yield custarrivals_resume incarrivals_yield
         incarrivals_resume wake_server next_priority provider_loop serve
         record requeue random
         bind gets modify ret raise timeout succeed urgent env_now] in D;
    exec D; unfold jobs, in_service; cbn [St q prov next set_rng set_q
      set_idle set_server_wakeup set_next set_prov set_serv_start set_w set_n].
  all: rewrite ?app_nil_r.
  all: repeat match goal with
         | H : (?a =? ?b)%nat = _ |- context [(?a =? ?b)%nat] => rewrite H
         end.
  all: try apply Permutation_refl.
  all: try (eexists; cbn; apply Permutation_refl).
  all: try match goal with
         | |- match ?x with _ => _ end => destruct x
         end.
  all: rewrite ?app_nil_r.
  all: try apply Permutation_refl.
  all: try match goal with
         | H : pop ?l = Some (?c, ?r)
           |- Permutation (map key (?r ++ [?c])) (map key ?l) =>
             exact (jobs_pop _ _ _ H)
         | H : pop ?l = Some (?c, ?r)
           |- Permutation (map key (?l ++ [?c0]))
                          (key ?c0 :: map key (?r ++ [?c])) =>
             eapply perm_trans; [apply jobs_snoc |];
             apply perm_skip, Permutation_sym; exact (jobs_pop _ _ _ H)
         | |- Permutation (map key (?l ++ [?c0])) (key ?c0 :: map key ?l) =>
             apply jobs_snoc
         | H : pop (push ?l _ _ _) = Some (?c, ?r)
           |- Permutation (map key (?r ++ [?c])) (map key (?l ++ [?c0])) =>
             eapply perm_trans; [exact (jobs_pop _ _ _ H) |];
             apply Permutation_sym; apply jobs_snoc
         end.
Qed.

Local Transparent Heapq.heappop.

(** *** Nothing is recorded during the warm-up *)

Lemma v1_step_stats s s' :
  step dispatch s = Next s' -> now (E s') <= T_START ->
  w (St s') = w (St s) /\ n (St s') = n (St s).
Proof.
  intros H L. unfold step in H.
  destruct (advance (E s)) as [[ev e1] |] eqn:A; [| discriminate].
  destruct (dispatch _ _ _) as [x | [[] s2]] eqn:D; [discriminate |].
  inversion H; subst; clear H.
  destruct (dispatch_grows _ _ _ _ _ D) as [N _]. simpl in N.
  rewrite N in L. clear N A.
  destruct s as [e u]. simpl in *.
  destruct ev as [tm pr id wh]. simpl in *.
  destruct u as [ws ns qs i k nx p st r].
  destruct wh; unfold dispatch in D;
    cbv [custarrivals_yield custarrivals_resume incarrivals_yield
         incarrivals_resume wake_server next_priority provider_loop serve
         record requeue random
         bind gets modify ret raise timeout succeed urgent env_now] in D;
    exec D; cbn in *; auto.
  all: match goal with
       | H : Qltb T_START _ = true |- _ => apply Qltb_lt in H; lra
       end.
Qed.

Lemma v1_warmup_stats s :
  0 <= SIM_TIME -> reach dispatch init s -> now (E s) <= T_START ->
  w (St s) = Numpy.zeros3 /\ n (St s) = Numpy.zeros3.
Proof.
  intros H R. induction R as [| s s' R IH St1]; intro L;
    [split; reflexivity |].
  destruct (reach_inv _ H R) as [Wf _].
  destruct (step_wf dispatch dispatch_grows _ _ Wf St1) as [_ Le].
  destruct (v1_step_stats _ _ St1 L) as [W N].
  destruct IH as [IW IN]; [lra |]. split; congruence.
Qed.

End Simulator.

End WaitTimeSimV1.

(** ** MM1_Two_Class_Switchover_Per_Class_Sim.py: two classes, preemptive
       resume, and a switchover after each busy period of primary users *)

Module Switchover.

Import SimPy PriorityQueue.

Inductive what :=
| InitArrivals | InitServer
| ArrTimeout
| Wakeup (k : nat)
| ServTimeout                 (* [env.timeout(self.next[2])] *)
| SwitchTimeout               (* [env.timeout(np.random.exponential(1/SIGMA))] *)
| Interruption                (* [self.server_proc.interrupt()] *)
| Until.

(** Where [server] is suspended. *)
Inductive pc :=
| NotStarted
| AtWakeup (k : nat)
| AtService (t : nat)
| AtSwitchover (t : nat).

Record SimEnv := MkSimEnv
  { q : list customer;
    total_w : list Q;
    n : list Q;
    idle : bool;
    PUperiod : bool;
    Switchover : bool;
    PUcount : Z;
    server_wakeup : nat;
    next : option customer;
    srv : pc;
    start : Q;
    rng : nat }.

Definition set_q v u := MkSimEnv v (total_w u) (n u) (idle u) (PUperiod u) (Switchover u) (PUcount u) (server_wakeup u) (next u) (srv u) (start u) (rng u).
Definition set_total_w v u := MkSimEnv (q u) v (n u) (idle u) (PUperiod u) (Switchover u) (PUcount u) (server_wakeup u) (next u) (srv u) (start u) (rng u).
Definition set_n v u := MkSimEnv (q u) (total_w u) v (idle u) (PUperiod u) (Switchover u) (PUcount u) (server_wakeup u) (next u) (srv u) (start u) (rng u).
Definition set_idle v u := MkSimEnv (q u) (total_w u) (n u) v (PUperiod u) (Switchover u) (PUcount u) (server_wakeup u) (next u) (srv u) (start u) (rng u).
Definition set_PUperiod v u := MkSimEnv (q u) (total_w u) (n u) (idle u) v (Switchover u) (PUcount u) (server_wakeup u) (next u) (srv u) (start u) (rng u).
Definition set_Switchover v u := MkSimEnv (q u) (total_w u) (n u) (idle u) (PUperiod u) v (PUcount u) (server_wakeup u) (next u) (srv u) (start u) (rng u).
Definition set_PUcount v u := MkSimEnv (q u) (total_w u) (n u) (idle u) (PUperiod u) (Switchover u) v (server_wakeup u) (next u) (srv u) (start u) (rng u).
Definition set_server_wakeup v u := MkSimEnv (q u) (total_w u) (n u) (idle u) (PUperiod u) (Switchover u) (PUcount u) v (next u) (srv u) (start u) (rng u).
Definition set_next v u := MkSimEnv (q u) (total_w u) (n u) (idle u) (PUperiod u) (Switchover u) (PUcount u) (server_wakeup u) v (srv u) (start u) (rng u).
Definition set_srv v u := MkSimEnv (q u) (total_w u) (n u) (idle u) (PUperiod u) (Switchover u) (PUcount u) (server_wakeup u) (next u) v (start u) (rng u).
Definition set_start v u := MkSimEnv (q u) (total_w u) (n u) (idle u) (PUperiod u) (Switchover u) (PUcount u) (server_wakeup u) (next u) (srv u) v (rng u).
Definition set_rng v u := MkSimEnv (q u) (total_w u) (n u) (idle u) (PUperiod u) (Switchover u) (PUcount u) (server_wakeup u) (next u) (srv u) (start u) v.

Section Simulator.

Variables (PHI T_START SIM_TIME : Q).
Variable draw : nat -> Q.

Local Abbreviation M := (SimPy.M what SimEnv).

Definition random : M Q :=
  k <- gets rng ;; modify (set_rng (S k)) ;;; ret (draw k).

Definition wake_server : M unit :=
  k <- gets server_wakeup ;;
  succeed (Wakeup k) ;;;
  modify (set_server_wakeup (S k)).

Definition next_priority : M Z :=
  nx <- gets next ;;
  match nx with
  | Some c => ret (priority c)
  | None => raise AttributeError
  end.

Definition arrivals_yield : M unit :=
  d <- random ;; _ <- timeout d ArrTimeout ;; ret tt.

(** [arrivals], from the timeout to the next [yield]. *)
Definition arrivals_resume : M unit :=
  u <- random ;;
  let decision := 1 - u in
  let priority := if Qle_bool decision PHI then 0%Z else 1%Z in
  servlen <- random ;;
  t <- env_now ;;
  items <- gets q ;;
  modify (set_q (push items priority t servlen)) ;;;
  (if (priority =? 0)%Z
   then c <- gets PUcount ;; modify (set_PUcount (c + 1)%Z)
   else ret tt) ;;;
  i <- gets idle ;;
  (if i then wake_server
   else p <- next_priority ;;
        if (priority <? p)%Z then urgent Interruption
        else sw <- gets Switchover ;;
             if sw && (priority =? 0)%Z then urgent Interruption
             else ret tt) ;;;
  arrivals_yield.

(** [server], from [self.next = self.q.pop()] to the service timeout. *)
Definition serve : M unit :=
  items <- gets q ;;
  match pop items with
  | None => raise IndexError
  | Some (c, rest) =>
      modify (set_q rest) ;;;
      modify (set_next (Some c)) ;;;
      pu <- gets PUperiod ;;
      (if (priority c =? 0)%Z && negb pu
       then modify (set_PUperiod true) else ret tt) ;;;
      t <- env_now ;;
      modify (set_start t) ;;;
      e <- timeout (service c) ServTimeout ;;
      modify (set_srv (AtService e))
  end.

(** [server], from the top of [while True] to the next [yield]. *)
Definition server_loop : M unit :=
  items <- gets q ;;
  if empty items
  then modify (set_idle true) ;;;
       k <- gets server_wakeup ;; modify (set_srv (AtWakeup k))
  else serve.

(** The end of the loop body: the switchover [try] block, up to its
    [yield], or round the loop when there is no switchover. *)
Definition end_of_busy_period : M unit :=
  pu <- gets PUperiod ;;
  c <- gets PUcount ;;
  if pu && (c =? 0)%Z
  then modify (set_PUperiod false) ;;;
       modify (set_Switchover true) ;;;
       d <- random ;;
       e <- timeout d SwitchTimeout ;;
       modify (set_srv (AtSwitchover e))
  else server_loop.

(** After the service timeout: the statistics, and the departure of a
    primary user. *)
Definition record : M unit :=
  t <- env_now ;;
  if Qltb T_START t then
    nx <- gets next ;;
    match nx with
    | None => raise AttributeError
    | Some c =>
        ws <- gets total_w ;; ns <- gets n ;;
        match Numpy.add_at ws (priority c) (t - entry c),
              Numpy.add_at ns (priority c) 1 with
        | Some ws', Some ns' =>
            modify (set_total_w ws') ;;;
            modify (set_n ns') ;;;
            if (priority c =? 0)%Z
            then k <- gets PUcount ;; modify (set_PUcount (k - 1)%Z)
            else ret tt
        | _, _ => raise IndexError
        end
    end
  else ret tt.

(** [except simpy.Interrupt] of the service. *)
Definition requeue : M unit :=
  t <- env_now ;;
  nx <- gets next ;;
  st <- gets start ;;
  match nx with
  | None => raise AttributeError
  | Some c =>
      items <- gets q ;;
      modify (set_q (push items (priority c) (entry c)
                          (service c - (t - st))))
  end.

Definition dispatch (wh : what) (id : nat) : M unit :=
  match wh with
  | InitArrivals => arrivals_yield
  | InitServer => server_loop
  | ArrTimeout => arrivals_resume
  | Wakeup k =>
      p <- gets srv ;;
      match p with
      | AtWakeup k' =>
          if (k =? k')%nat then modify (set_idle false) ;;; serve else ret tt
      | _ => ret tt
      end
  | ServTimeout =>
      p <- gets srv ;;
      match p with
      | AtService t =>
          if (t =? id)%nat then record ;;; end_of_busy_period else ret tt
      | _ => ret tt
      end
  | SwitchTimeout =>
      p <- gets srv ;;
      match p with
      | AtSwitchover t =>
          if (t =? id)%nat
          then modify (set_Switchover false) ;;; server_loop
          else ret tt
      | _ => ret tt
      end
  | Interruption =>
      p <- gets srv ;;
      match p with
      | AtService _ => requeue ;;; end_of_busy_period
      | AtSwitchover _ => modify (set_Switchover false) ;;; server_loop
      | _ => raise Interrupt
      end
  | Until => raise StopSimulation
  end.

Definition fresh : SimEnv :=
  MkSimEnv [] Numpy.zeros2 Numpy.zeros2 true false false 0 0 None
           NotStarted 0 0.

Definition init : sim what SimEnv :=
  Sim (schedule URGENT SIM_TIME Until
        (schedule URGENT 0 InitServer
          (schedule URGENT 0 InitArrivals (Env 0 0 []))))
      fresh.

Definition simulate (fuel : nat) : outcome what SimEnv :=
  if Qle_bool SIM_TIME 0 then Halt (Some ValueError) init
  else run dispatch fuel init.

Lemma sw_grows_random : grows random.
Proof. unfold random. grows. Qed.

Lemma sw_grows_serve : grows serve.
Proof. unfold serve. grows. Qed.

Lemma sw_grows_server_loop : grows server_loop.
Proof. unfold server_loop. grows; apply sw_grows_serve. Qed.

Lemma grows_end_of_busy_period : grows end_of_busy_period.
Proof.
  unfold end_of_busy_period. grows;
    first [apply sw_grows_random | apply sw_grows_server_loop].
Qed.

Lemma sw_dispatch_grows wh id : grows (dispatch wh id).
Proof.
  pose proof sw_grows_random. pose proof sw_grows_serve.
  pose proof sw_grows_server_loop. pose proof grows_end_of_busy_period.
  destruct wh; unfold dispatch, arrivals_resume, arrivals_yield,
    wake_server, next_priority, record, requeue; grows; assumption.
Qed.

(** *** The count of primary users *)

Ltac exec_dispatch D :=
  unfold dispatch in D;
  cbv [arrivals_yield arrivals_resume wake_server next_priority server_loop
       serve end_of_busy_period record requeue random
       bind gets modify ret raise timeout succeed urgent env_now] in D;
  exec D.

Lemma step_now s s' ev e1 :
  advance (E s) = Some (ev, e1) -> step dispatch s = Next s' ->
  now (E s') = ev_time ev.
Proof.
  intros A H. unfold step in H. rewrite A in H.
  destruct (dispatch _ _ _) as [x | [[] s2]] eqn:D; [discriminate |].
  inversion H; subst; clear H.
  destruct (sw_dispatch_grows _ _ _ _ _ D) as [N _]. simpl in N.
  rewrite N. unfold advance in A.
  destruct (pop_min (queue (E s))) as [[m r] |]; [| discriminate].
  inversion A; subst. reflexivity.
Qed.

Lemma step_PUcount s s' :
  step dispatch s = Next s' ->
  (PUcount (St s) <= PUcount (St s'))%Z \/
  (T_START < now (E s') /\
   PUcount (St s') = (PUcount (St s) - 1)%Z /\
   exists ev e1 c,
     advance (E s) = Some (ev, e1) /\ ev_what ev = ServTimeout /\
     srv (St s) = AtService (ev_id ev) /\
     next (St s) = Some c /\ priority c = 0%Z).
Proof.
  intro H. pose proof H as H0. unfold step in H.
  destruct (advance (E s)) as [[ev e1] |] eqn:A; [| discriminate].
  pose proof (step_now _ _ _ _ A H0) as N. clear H0.
  destruct (dispatch _ _ _) as [x | [[] s2]] eqn:D; [discriminate |].
  inversion H; subst; clear H.
  destruct s as [e u]. simpl in *.
  destruct ev as [tm pr id wh]. simpl in *.
  destruct u as [qs ws ns i pu sw c k nx p st r].
  destruct wh; exec_dispatch D; cbn in *; try (left; lia).
  all: right; split; [subst; apply Qltb_lt; assumption |].
  all: split; [reflexivity |].
  all: eexists; eexists; eexists; split; [reflexivity |]; cbn.
  all: apply Nat.eqb_eq in Heqb; subst.
  all: repeat split; try reflexivity; apply Z.eqb_eq; assumption.
Qed.

(** A step starts a switchover when it leaves the server suspended on a
    switchover timeout it was not suspended on before. *)
Definition initiates_switchover (s s' : sim what SimEnv) : Prop :=
  exists t, srv (St s') = AtSwitchover t /\ srv (St s) <> AtSwitchover t.

Lemma step_no_switchover s s' :
  step dispatch s = Next s' -> now (E s') <= T_START ->
  (1 <= PUcount (St s))%Z -> ~ initiates_switchover s s'.
Proof.
  intros H L C1 (t & S' & S0). apply S0. clear S0. revert S'.
  pose proof H as H0. unfold step in H.
  destruct (advance (E s)) as [[ev e1] |] eqn:A; [| discriminate].
  pose proof (step_now _ _ _ _ A H0) as N. clear H0.
  destruct (dispatch _ _ _) as [x | [[] s2]] eqn:D; [discriminate |].
  inversion H; subst; clear H.
  destruct s as [e u]. simpl in *.
  destruct ev as [tm pr id wh]. simpl in *.
  destruct u as [qs ws ns i pu sw c k nx p st r].
  destruct wh; exec_dispatch D; cbn in *; try congruence.
  all: try match goal with
         | H : Qltb T_START _ = true |- _ => apply Qltb_lt in H; lra
         end.
  all: match goal with
       | H : _ && (_ =? 0)%Z = true |- _ =>
           apply andb_prop in H; destruct H as [_ H];
           apply Z.eqb_eq in H; lia
       end.
Qed.

Lemma warmup_reach s s' :
  env_wf (E s) -> reach dispatch s s' -> now (E s') <= T_START ->
  now (E s) <= now (E s') /\
  (PUcount (St s) <= PUcount (St s'))%Z.
Proof.
  intros Wf R. induction R as [| s1 s2 R IH St1]; intro L.
  - split; [lra | lia].
  - pose proof (reach_wf dispatch sw_dispatch_grows _ _ Wf R) as Wf1.
    destruct (step_wf dispatch sw_dispatch_grows _ _ Wf1 St1) as [_ Le].
    destruct IH as [IH1 IH2]; [lra |].
    split; [lra |].
    destruct (step_PUcount _ _ St1) as [K | [K _]]; [lia | lra].
Qed.

Lemma warmup_no_switchover s s1 s2 :
  env_wf (E s) -> (1 <= PUcount (St s))%Z ->
  reach dispatch s s1 -> step dispatch s1 = Next s2 ->
  now (E s2) <= T_START -> ~ initiates_switchover s1 s2.
Proof.
  intros Wf C1 R St1 L.
  pose proof (reach_wf dispatch sw_dispatch_grows _ _ Wf R) as Wf1.
  destruct (step_wf dispatch sw_dispatch_grows _ _ Wf1 St1) as [_ Le].
  destruct (warmup_reach _ _ Wf R) as [_ K]; [lra |].
  apply step_no_switchover; [exact St1 | exact L | lia].
Qed.

Lemma sw_init_wf : 0 <= SIM_TIME -> env_wf (E init).
Proof.
  intro H. unfold env_wf, init. simpl.
  repeat constructor; simpl; lra.
Qed.

Lemma sw_simulate_reach fuel s :
  simulate fuel = Next s -> 0 < SIM_TIME /\ reach dispatch init s.
Proof.
  unfold simulate. destruct (Qle_bool SIM_TIME 0) eqn:B; [discriminate |].
  intro H. split.
  - apply Qnot_le_lt. intro L. apply Qle_bool_iff in L. congruence.
  - eapply run_reach; [apply reach_init | exact H].
Qed.

(** *** Interrupts asked by an arrival *)

Definition is_intr (wh : what) : bool :=
  match wh with Interruption => true | _ => false end.

Definition is_initserver (wh : what) : bool :=
  match wh with InitServer => true | _ => false end.

(** The flag [Switchover] is up only while the server waits for the
    switchover timeout: no job is in service then.  (Before the server
    process has started the flag is down.) *)
Definition switching (s : sim what SimEnv) : Prop :=
  (Switchover (St s) = true -> exists t, srv (St s) = AtSwitchover t) /\
  (count is_initserver (E s) = 0%nat \/
   (count is_initserver (E s) = 1%nat /\ srv (St s) = NotStarted)).

Lemma step_switching s s' :
  switching s -> step dispatch s = Next s' -> switching s'.
Proof.
  intros [Sw Si] H. unfold step in H.
  destruct (advance (E s)) as [[ev e1] |] eqn:A; [| discriminate].
  destruct (dispatch _ _ _) as [x | [[] s2]] eqn:D; [discriminate |].
  inversion H; subst; clear H.
  pose proof (count_advance is_initserver _ _ _ A) as CI. clear A.
  destruct s as [e u]. simpl in *.
  destruct ev as [tm pr id wh]. simpl in *.
  destruct u as [qs ws ns i pu sw c k nx p st r].
  unfold switching in *. simpl in Sw, Si.
  destruct wh; exec_dispatch D; unfold count in *; cbn in *.
  all: split;
    [ try discriminate; try (intros _; eexists; reflexivity);
      try (intro Hs; destruct (Sw Hs) as [t1 E1]; try discriminate E1;
           eauto)
    | ].
  all: destruct Si as [Si | [Si Sp]];
    [ first [lia | left; lia]
    | first [discriminate Sp | congruence | lia | left; lia
            | right; split; [lia | first [assumption | reflexivity]]] ].
Qed.

Lemma reach_switching s : reach dispatch init s -> switching s.
Proof.
  intro R. induction R as [| s s' R IH St1].
  - split; [intro H; discriminate H |]. right. split; reflexivity.
  - eapply step_switching; eassumption.
Qed.

(** An arrival of class [pr] asks for an interrupt when the server is busy
    with a job of strictly greater priority number, or when a primary user
    arrives during a switchover. *)
Definition interrupts_asked (pr : Z) (u : SimEnv) : nat :=
  if idle u then 0%nat
  else match next u with
       | Some c0 =>
           if (pr <? priority c0)%Z then 1%nat
           else if Switchover u && (pr =? 0)%Z then 1%nat else 0%nat
       | None => 0%nat
       end.

Lemma arrivals_decision s s' :
  arrivals_resume s = inr (tt, s') ->
  exists c,
    q (St s') = c :: q (St s) /\ entry c = now (E s) /\
    (priority c = 0%Z \/ priority c = 1%Z) /\
    count is_intr (E s')
    = (count is_intr (E s) + interrupts_asked (priority c) (St s))%nat.
Proof.
  intro D. destruct s as [e u].
  destruct u as [qs ws ns i pu sw c k nx p st r].
  cbv [arrivals_yield arrivals_resume wake_server next_priority
       random bind gets modify ret raise timeout succeed urgent env_now]
    in D.
  exec D; cbn; eexists; (split; [reflexivity |]); (split; [reflexivity |]);
    (split; [cbn; auto |]); unfold count, interrupts_asked; cbn;
    repeat match goal with
           | H : (_ <? _)%Z = _ |- _ => rewrite H
           | H : _ && _ = _ |- _ => cbn in H; rewrite H
           end; lia.
Qed.

(** While a job is in service, only a strictly smaller priority number
    asks for an interrupt. *)
Lemma arrivals_preempt_strict s s' t c0 :
  switching s -> arrivals_resume s = inr (tt, s') ->
  srv (St s) = AtService t -> next (St s) = Some c0 ->
  exists c,
    q (St s') = c :: q (St s) /\
    (count is_intr (E s') <> count is_intr (E s) ->
     (priority c < priority c0)%Z).
Proof.
  intros Sw D P Nx.
  destruct (arrivals_decision _ _ D) as (c & Q1 & _ & _ & Cn).
  exists c. split; [exact Q1 |]. intro Ne.
  unfold interrupts_asked in Cn. rewrite Nx in Cn.
  destruct (idle (St s)); [lia |].
  destruct (Z.ltb_spec (priority c) (priority c0)) as [L | L]; [exact L |].
  destruct (Switchover (St s)) eqn:Sf; simpl in Cn; [| lia].
  destruct (proj1 Sw Sf) as [t1 E1]. congruence.
Qed.

(** *** [PUcount] and the primary users in the system

    [PUcount] goes up at every primary-user arrival and down only at a
    primary-user completion after [T_START]: it never falls below the
    number of primary users waiting or in service. *)

Definition is_pu (c : customer) : bool := (priority c =? 0)%Z.

Definition pus (l : list customer) : Z :=
  Z.of_nat (length (filter is_pu l)).

(** The primary users on the heap, and the one in service if any. *)
Definition present (u : SimEnv) : Z :=
  (pus (q u) +
   match srv u, next u with
   | AtService _, Some c => if is_pu c then 1 else 0
   | _, _ => 0
   end)%Z.

Definition slack (u : SimEnv) : Z := (PUcount u - present u)%Z.

Lemma pus_pop items c rest :
  pop items = Some (c, rest) ->
  pus items = ((if is_pu c then 1 else 0) + pus rest)%Z.
Proof.
  intro P. unfold pus.
  rewrite (Heapq.heappop_filter _ is_pu _ _ _ P).
  destruct (is_pu c); lia.
Qed.

Lemma pus_push l p e sv :
  pus (push l p e sv) = ((if (p =? 0)%Z then 1 else 0) + pus l)%Z.
Proof.
  unfold pus, push, Heapq.heappush. cbn [filter]. unfold is_pu at 1.
  cbn [priority]. destruct (p =? 0)%Z; cbn [length]; lia.
Qed.

Lemma pus_nonneg l : (0 <= pus l)%Z.
Proof. unfold pus. lia. Qed.

Local Opaque Heapq.heappop.

Lemma step_slack s s' :
  switching s -> step dispatch s = Next s' ->
  (slack (St s) <= slack (St s'))%Z.
Proof.
  intros [_ Si] H. unfold step in H.
  destruct (advance (E s)) as [[ev e1] |] eqn:A; [| discriminate].
  destruct (dispatch _ _ _) as [x | [[] s2]] eqn:D; [discriminate |].
  inversion H; subst; clear H.
  pose proof (count_advance is_initserver _ _ _ A) as CI. clear A.
  destruct s as [e u]. simpl in *.
  destruct ev as [tm pr id wh]. simpl in *.
  destruct u as [qs ws ns i pu sw c k nx p st r].
  simpl in Si.
  destruct wh;
    try (assert (p = NotStarted)
           by (destruct Si as [Si | [_ Sp]];
               [unfold count in *; simpl in *; lia | exact Sp]);
         subst p);
    exec_dispatch D; unfold slack, present;
    cbn [St q srv next PUcount set_q set_total_w set_n set_idle set_PUperiod
         set_Switchover set_PUcount set_server_wakeup set_next set_srv
         set_start set_rng].
  all: repeat match goal with
         | H : pop _ = Some _ |- _ => apply pus_pop in H
         end.
  all: rewrite ?pus_push in *.
  all: unfold is_pu in *; cbn [priority] in *.
  all: change (1 =? 0)%Z with false in *; change (0 =? 0)%Z with true in *.
  all: repeat match goal with
         | H : (?x =? 0)%Z = _ |- _ => rewrite H in *
         | |- context [(?x =? 0)%Z] => destruct (x =? 0)%Z
         | |- context [match ?p with NotStarted => _ | _ => _ end] =>
             destruct p
         | |- context [match ?n with Some _ => _ | None => _ end] =>
             destruct n
         end.
  all: lia.
Qed.

(** A primary user that completes during the warm-up stays counted. *)
Lemma warmup_completion_slack s s' ev e1 c0 :
  advance (E s) = Some (ev, e1) -> ev_what ev = ServTimeout ->
  srv (St s) = AtService (ev_id ev) -> next (St s) = Some c0 ->
  priority c0 = 0%Z -> ev_time ev <= T_START ->
  step dispatch s = Next s' ->
  (slack (St s) + 1 <= slack (St s'))%Z.
Proof.
  intros A Wx P Nx Pr T H. unfold step in H. rewrite A in H.
  destruct (dispatch _ _ _) as [x | [[] s2]] eqn:D; [discriminate |].
  inversion H; subst; clear H.
  assert (N : now e1 = ev_time ev).
  { unfold advance in A.
    destruct (pop_min (queue (E s))) as [[m r] |]; [| discriminate].
    inversion A; subst. reflexivity. }
  clear A.
  destruct s as [e u]. simpl in *.
  destruct ev as [tm pr id wh]. simpl in *.
  destruct u as [qs ws ns i pu sw c k nx p st r].
  simpl in *. subst wh p nx.
  exec_dispatch D; unfold slack, present;
    cbn [St q srv next PUcount set_q set_total_w set_n set_idle set_PUperiod
         set_Switchover set_PUcount set_server_wakeup set_next set_srv
         set_start set_rng].
  all: try match goal with
         | H : Qltb T_START _ = true |- _ => apply Qltb_lt in H; lra
         end.
  all: try (rewrite Nat.eqb_refl in *; discriminate).
  all: repeat match goal with
         | H : pop _ = Some _ |- _ => apply pus_pop in H
         end.
  all: unfold is_pu in *; rewrite ?Pr in *.
  all: change (0 =? 0)%Z with true in *.
  all: repeat match goal with
         | |- context [(?x =? 0)%Z] => destruct (x =? 0)%Z
         end.
  all: cbv iota in *.
  all: lia.
Qed.

(** The switchover test reads [PUcount == 0]. *)
Lemma initiates_PUcount s s' :
  step dispatch s = Next s' -> initiates_switchover s s' ->
  PUcount (St s') = 0%Z.
Proof.
  intros H (t & S' & S0). revert S' S0. unfold step in H.
  destruct (advance (E s)) as [[ev e1] |] eqn:A; [| discriminate].
  destruct (dispatch _ _ _) as [x | [[] s2]] eqn:D; [discriminate |].
  inversion H; subst; clear H A.
  destruct s as [e u]. simpl in *.
  destruct ev as [tm pr id wh]. simpl in *.
  destruct u as [qs ws ns i pu sw c k nx p st r].
  destruct wh; exec_dispatch D; cbn; intros S' S0;
    try discriminate S'; try congruence.
  all: match goal with
       | H : _ && (_ =? 0)%Z = true |- _ =>
           apply andb_prop in H; destruct H as [_ H];
           apply Z.eqb_eq in H; lia
       end.
Qed.

Local Transparent Heapq.heappop.

Lemma present_nonneg u : (pus (q u) <= present u)%Z.
Proof.
  unfold present.
  destruct (srv u); try lia. destruct (next u) as [c |]; try lia.
  destruct (is_pu c); lia.
Qed.

Lemma pus_zero l c : pus l = 0%Z -> In c l -> priority c <> 0%Z.
Proof.
  unfold pus. induction l as [| a l IH]; intros Z0 Ic; [destruct Ic |].
  destruct Ic as [<- | Ic].
  - simpl in Z0. unfold is_pu in Z0 at 1.
    destruct (Z.eqb_spec (priority a) 0); [simpl in Z0; lia | assumption].
  - apply IH; [| exact Ic]. simpl in Z0.
    destruct (is_pu a); simpl in Z0; lia.
Qed.

Lemma reach_from s1 s2 :
  reach dispatch init s1 -> reach dispatch s1 s2 -> reach dispatch init s2.
Proof.
  intros R1 R2. induction R2 as [| s s' R IH St1]; [exact R1 |].
  eapply reach_step; eassumption.
Qed.

Lemma reach_slack s1 s2 :
  reach dispatch init s1 -> reach dispatch s1 s2 ->
  (slack (St s1) <= slack (St s2))%Z.
Proof.
  intros R1 R2. induction R2 as [| s s' R IH St1]; [lia |].
  pose proof (reach_switching _ (reach_from _ _ R1 R)) as Sw.
  pose proof (step_slack _ _ Sw St1). lia.
Qed.

(** [PUcount] is at least the number of primary users in the system. *)
Lemma PUcount_bound s :
  reach dispatch init s -> (present (St s) <= PUcount (St s))%Z.
Proof.
  intro R. pose proof (reach_slack init s (reach_init _ _) R) as X.
  unfold slack in X. change (PUcount (St init)) with 0%Z in X.
  change (present (St init)) with 0%Z in X. lia.
Qed.


(** *** Nothing is recorded during the warm-up *)

Lemma sw_step_stats s s' :
  step dispatch s = Next s' -> now (E s') <= T_START ->
  total_w (St s') = total_w (St s) /\ n (St s') = n (St s).
Proof.
  intros H L. unfold step in H.
  destruct (advance (E s)) as [[ev e1] |] eqn:A; [| discriminate].
  destruct (dispatch _ _ _) as [x | [[] s2]] eqn:D; [discriminate |].
  inversion H; subst; clear H.
  destruct (sw_dispatch_grows _ _ _ _ _ D) as [N _]. simpl in N.
  rewrite N in L. clear N A.
  destruct s as [e u]. simpl in *.
  destruct ev as [tm pr id wh]. simpl in *.
  destruct u as [qs ws ns i pu sw c k nx p st r].
  destruct wh; exec_dispatch D; cbn in *; auto.
  all: match goal with
       | H : Qltb T_START _ = true |- _ => apply Qltb_lt in H; lra
       end.
Qed.

Lemma sw_warmup_stats s :
  0 <= SIM_TIME -> reach dispatch init s -> now (E s) <= T_START ->
  total_w (St s) = Numpy.zeros2 /\ n (St s) = Numpy.zeros2.
Proof.
  intros H R. induction R as [| s s' R IH St1]; intro L;
    [split; reflexivity |].
  pose proof (reach_wf dispatch sw_dispatch_grows _ _ (sw_init_wf H) R) as Wf.
  destruct (step_wf dispatch sw_dispatch_grows _ _ Wf St1) as [_ Le].
  destruct (sw_step_stats _ _ St1 L) as [W N].
  destruct IH as [IW IN]; [lra |]. split; congruence.
Qed.

End Simulator.

End Switchover.

(** ** MM1_Two_Class_Exceptional_Service_Per_Class_Sim.py: two classes,
       preemptive resume, and a setup before the first general user of a
       busy period *)

Module ExceptionalService.

Import SimPy PriorityQueue.

Inductive what :=
| InitArrivals | InitServer
| ArrTimeout
| Wakeup (k : nat)
| SetupTimeout                (* [env.timeout(np.random.exponential(1/SIGMA))] *)
| ServTimeout                 (* [env.timeout(self.next[2])] *)
| Interruption
| Until.

Inductive pc :=
| NotStarted
| AtWakeup (k : nat)
| AtSetup (t : nat)
| AtService (t : nat).

(** [start] is a local of [server]: it has no value before the first
    service begins. *)
Record SimEnv := MkSimEnv
  { total_w : list Q;
    n : list Q;
    idle : bool;
    GUperiod : bool;
    Setup : bool;
    q : list customer;
    server_wakeup : nat;
    next : option customer;
    srv : pc;
    start : option Q;
    rng : nat }.

Definition set_total_w v u := MkSimEnv v (n u) (idle u) (GUperiod u) (Setup u) (q u) (server_wakeup u) (next u) (srv u) (start u) (rng u).
Definition set_n v u := MkSimEnv (total_w u) v (idle u) (GUperiod u) (Setup u) (q u) (server_wakeup u) (next u) (srv u) (start u) (rng u).
Definition set_idle v u := MkSimEnv (total_w u) (n u) v (GUperiod u) (Setup u) (q u) (server_wakeup u) (next u) (srv u) (start u) (rng u).
Definition set_GUperiod v u := MkSimEnv (total_w u) (n u) (idle u) v (Setup u) (q u) (server_wakeup u) (next u) (srv u) (start u) (rng u).
Definition set_Setup v u := MkSimEnv (total_w u) (n u) (idle u) (GUperiod u) v (q u) (server_wakeup u) (next u) (srv u) (start u) (rng u).
Definition set_q v u := MkSimEnv (total_w u) (n u) (idle u) (GUperiod u) (Setup u) v (server_wakeup u) (next u) (srv u) (start u) (rng u).
Definition set_server_wakeup v u := MkSimEnv (total_w u) (n u) (idle u) (GUperiod u) (Setup u) (q u) v (next u) (srv u) (start u) (rng u).
Definition set_next v u := MkSimEnv (total_w u) (n u) (idle u) (GUperiod u) (Setup u) (q u) (server_wakeup u) v (srv u) (start u) (rng u).
Definition set_srv v u := MkSimEnv (total_w u) (n u) (idle u) (GUperiod u) (Setup u) (q u) (server_wakeup u) (next u) v (start u) (rng u).
Definition set_start v u := MkSimEnv (total_w u) (n u) (idle u) (GUperiod u) (Setup u) (q u) (server_wakeup u) (next u) (srv u) v (rng u).
Definition set_rng v u := MkSimEnv (total_w u) (n u) (idle u) (GUperiod u) (Setup u) (q u) (server_wakeup u) (next u) (srv u) (start u) v.

Section Simulator.

Variables (PHI T_START SIM_TIME : Q).
Variable draw : nat -> Q.

Local Abbreviation M := (SimPy.M what SimEnv).

Definition random : M Q :=
  k <- gets rng ;; modify (set_rng (S k)) ;;; ret (draw k).

Definition wake_server : M unit :=
  k <- gets server_wakeup ;;
  succeed (Wakeup k) ;;;
  modify (set_server_wakeup (S k)).

Definition next_priority : M Z :=
  nx <- gets next ;;
  match nx with
  | Some c => ret (priority c)
  | None => raise AttributeError
  end.

Definition arrivals_yield : M unit :=
  d <- random ;; _ <- timeout d ArrTimeout ;; ret tt.

Definition arrivals_resume : M unit :=
  u <- random ;;
  let decision := 1 - u in
  let priority := if Qle_bool decision PHI then 0%Z else 1%Z in
  servlen <- random ;;
  t <- env_now ;;
  items <- gets q ;;
  modify (set_q (push items priority t servlen)) ;;;
  i <- gets idle ;;
  (if i then wake_server
   else p <- next_priority ;;
        if (priority <? p)%Z then urgent Interruption else ret tt) ;;;
  arrivals_yield.

(** [start = env.now; yield env.timeout(self.next[2])]. *)
Definition begin_service (c : customer) : M unit :=
  t <- env_now ;;
  modify (set_start (Some t)) ;;;
  e <- timeout (service c) ServTimeout ;;
  modify (set_srv (AtService e)).

(** [server], from [self.next = self.q.pop()] to the next [yield]: the
    setup timeout for the first general user of a busy period, the service
    timeout otherwise. *)
Definition serve : M unit :=
  items <- gets q ;;
  match pop items with
  | None => raise IndexError
  | Some (c, rest) =>
      modify (set_q rest) ;;;
      modify (set_next (Some c)) ;;;
      modify (set_idle false) ;;;
      gu <- gets GUperiod ;;
      if (priority c =? 1)%Z && negb gu then
        modify (set_GUperiod true) ;;;
        modify (set_Setup true) ;;;
        d <- random ;;
        e <- timeout d SetupTimeout ;;
        modify (set_srv (AtSetup e))
      else
        (if (priority c =? 0)%Z && gu
         then modify (set_GUperiod false) else ret tt) ;;;
        begin_service c
  end.

Definition server_loop : M unit :=
  items <- gets q ;;
  if empty items
  then modify (set_idle true) ;;;
       k <- gets server_wakeup ;; modify (set_srv (AtWakeup k))
  else serve.

(** After the setup timeout: [self.Setup = False], then the service. *)
Definition setup_done : M unit :=
  modify (set_Setup false) ;;;
  nx <- gets next ;;
  match nx with
  | None => raise AttributeError
  | Some c => begin_service c
  end.

Definition record : M unit :=
  t <- env_now ;;
  if Qltb T_START t then
    nx <- gets next ;;
    match nx with
    | None => raise AttributeError
    | Some c =>
        ws <- gets total_w ;; ns <- gets n ;;
        match Numpy.add_at ws (priority c) (t - entry c),
              Numpy.add_at ns (priority c) 1 with
        | Some ws', Some ns' => modify (set_total_w ws') ;;; modify (set_n ns')
        | _, _ => raise IndexError
        end
    end
  else ret tt.

(** [except simpy.Interrupt], whichever of the two timeouts it hits. *)
Definition interrupted : M unit :=
  modify (set_GUperiod false) ;;;
  su <- gets Setup ;;
  if negb su then
    t <- env_now ;;
    nx <- gets next ;;
    st <- gets start ;;
    match nx, st with
    | None, _ => raise AttributeError
    | _, None => raise NameError
    | Some c, Some st =>
        items <- gets q ;;
        modify (set_q (push items (priority c) (entry c)
                            (service c - (t - st))))
    end
  else ret tt.

Definition dispatch (wh : what) (id : nat) : M unit :=
  match wh with
  | InitArrivals => arrivals_yield
  | InitServer => server_loop
  | ArrTimeout => arrivals_resume
  | Wakeup k =>
      p <- gets srv ;;
      match p with
      | AtWakeup k' => if (k =? k')%nat then serve else ret tt
      | _ => ret tt
      end
  | SetupTimeout =>
      p <- gets srv ;;
      match p with
      | AtSetup t => if (t =? id)%nat then setup_done else ret tt
      | _ => ret tt
      end
  | ServTimeout =>
      p <- gets srv ;;
      match p with
      | AtService t =>
          if (t =? id)%nat then record ;;; server_loop else ret tt
      | _ => ret tt
      end
  | Interruption =>
      p <- gets srv ;;
      match p with
      | AtSetup _ | AtService _ => interrupted ;;; server_loop
      | _ => raise Interrupt
      end
  | Until => raise StopSimulation
  end.

Definition fresh : SimEnv :=
  MkSimEnv Numpy.zeros2 Numpy.zeros2 true false false [] 0 None
           NotStarted None 0.

Definition init : sim what SimEnv :=
  Sim (schedule URGENT SIM_TIME Until
        (schedule URGENT 0 InitServer
          (schedule URGENT 0 InitArrivals (Env 0 0 []))))
      fresh.

Definition simulate (fuel : nat) : outcome what SimEnv :=
  if Qle_bool SIM_TIME 0 then Halt (Some ValueError) init
  else run dispatch fuel init.

(** An interrupt during the setup puts nothing back on the heap. *)
Lemma interrupted_in_setup s s' :
  Setup (St s) = true -> interrupted s = inr (tt, s') ->
  q (St s') = q (St s) /\ E s' = E s.
Proof.
  intros Su H. destruct s as [e u]. destruct u. simpl in Su. subst.
  unfold interrupted in H. cbv [bind gets modify ret] in H. cbn in H.
  inversion H; subst. split; reflexivity.
Qed.

(** *** The setup flag is up whenever the server waits on the setup
        timeout *)

Definition in_setup (s : sim what SimEnv) : Prop :=
  match srv (St s) with
  | AtSetup _ => Setup (St s) = true
  | _ => True
  end.

Ltac exec_dispatch D :=
  unfold dispatch in D;
  cbv [arrivals_yield arrivals_resume wake_server next_priority server_loop
       serve begin_service setup_done record interrupted random
       bind gets modify ret raise timeout succeed urgent env_now] in D;
  exec D.

Lemma step_in_setup s s' :
  in_setup s -> step dispatch s = Next s' -> in_setup s'.
Proof.
  intros C H.
  unfold step in H.
  destruct (advance (E s)) as [[ev e1] |] eqn:A; [| discriminate].
  destruct (dispatch _ _ _) as [x | [[] s2]] eqn:D; [discriminate |].
  inversion H; subst; clear H A.
  destruct s as [e u]. simpl in *.
  destruct ev as [tm pr id wh]. simpl in *.
  destruct u as [ws ns i gu su qs k nx p st r].
  unfold in_setup in C. simpl in C.
  destruct wh; exec_dispatch D; unfold in_setup; cbn in *;
    try reflexivity; try exact I; try assumption; try discriminate.
Qed.

Lemma reach_in_setup s : reach dispatch init s -> in_setup s.
Proof.
  intro R. induction R as [| s s' R IH St1].
  - exact I.
  - eapply step_in_setup; eassumption.
Qed.

(** An interrupt processed while the server waits on the setup timeout:
    the job that was being set up is in neither [q] nor [next] afterwards. *)
Lemma interrupt_during_setup s s' t id :
  srv (St s) = AtSetup t -> Setup (St s) = true ->
  dispatch Interruption id s = inr (tt, s') ->
  match pop (q (St s)) with
  | None => q (St s') = [] /\ idle (St s') = true
  | Some (c, rest) => q (St s') = rest /\ next (St s') = Some c
  end.
Proof.
  intros P Su D.
  destruct s as [e u]. destruct u as [ws ns i gu su qs k nx p st r].
  simpl in P, Su. subst.
  cbn [St q].
  destruct qs as [| c0 l].
  - cbn in D. inversion D; subst. cbn. split; reflexivity.
  - destruct (pop (c0 :: l)) as [[c rest] |] eqn:Pp.
    + unfold dispatch, interrupted, server_loop, serve in D.
      cbv [bind gets modify ret St E] in D. cbn [Setup negb set_GUperiod q
        total_w n idle GUperiod server_wakeup next srv start rng empty] in D.
      rewrite Pp in D.
      exec_dispatch D; cbn; split; reflexivity.
    + destruct (pop_some (c0 :: l)) as (c & rest & X); [reflexivity |].
      congruence.
Qed.

Lemma es_simulate_reach fuel s :
  simulate fuel = Next s -> reach dispatch init s.
Proof.
  unfold simulate. destruct (Qle_bool SIM_TIME 0); [discriminate |].
  intro H. eapply run_reach; [apply reach_init | exact H].
Qed.

(** *** A job interrupted during its service

    The setup flag is down whenever a general user is in service: its
    interrupt takes the requeueing branch. *)

Definition is_initserver (wh : what) : bool :=
  match wh with InitServer => true | _ => false end.

Definition flags (s : sim what SimEnv) : Prop :=
  let u := St s in
  (Setup u = true -> (exists t, srv u = AtSetup t) \/ GUperiod u = false) /\
  (forall t c, srv u = AtService t -> next u = Some c ->
               priority c = 1%Z -> Setup u = false) /\
  (count is_initserver (E s) = 0%nat \/
   (count is_initserver (E s) = 1%nat /\ srv u = NotStarted)).

Local Opaque Heapq.heappop.

Lemma step_flags s s' :
  flags s -> step dispatch s = Next s' -> flags s'.
Proof.
  intros (F1 & F2 & Si) H. unfold step in H.
  destruct (advance (E s)) as [[ev e1] |] eqn:A; [| discriminate].
  destruct (dispatch _ _ _) as [x | [[] s2]] eqn:D; [discriminate |].
  inversion H; subst; clear H.
  pose proof (count_advance is_initserver _ _ _ A) as CI. clear A.
  destruct s as [e u]. simpl in *.
  destruct ev as [tm pr id wh]. simpl in *.
  destruct u as [ws ns i gu su qs k nx p st r].
  simpl in F1, F2, Si.
  destruct wh;
    try (assert (p = NotStarted)
           by (destruct Si as [Si | [_ Sp]];
               [unfold count in *; simpl in *; lia | exact Sp]);
         subst p);
    exec_dispatch D; unfold flags, count in *; cbn in *.
  all: refine (conj _ (conj _ _)).
  all: try (destruct Si as [Si | [Si Sp]];
            [ first [lia | left; lia]
            | first [ discriminate Sp | lia | left; lia
                    | right; split; [lia | first [assumption | reflexivity]] ] ]).
  all: try (intro Hs; try discriminate Hs;
            first [ right; reflexivity
                  | left; eexists; reflexivity
                  | destruct (F1 Hs) as [[t1 E1] | G];
                    [ first [ discriminate E1 | left; eexists; exact E1 ]
                    | right; first [ exact G | reflexivity ] ] ]).
  all: try (intros t' c' P' N' Pr'; try discriminate P';
            inversion N'; subst;
            first [ reflexivity
                  | solve [eapply F2; eauto]
                  | rewrite Pr' in *; cbn in *;
                    first [ discriminate
                          | destruct su; [exfalso | reflexivity];
                            destruct (F1 eq_refl) as [[t1 E1] | G];
                            [ discriminate E1
                            | subst; cbn in *; discriminate ] ] ]).
Qed.

Lemma reach_flags s : reach dispatch init s -> flags s.
Proof.
  intro R. induction R as [| s s' R IH St1].
  - unfold flags, init, count. cbn.
    split; [discriminate |]. split; [discriminate |].
    right. split; reflexivity.
  - eapply step_flags; eassumption.
Qed.

(** An interrupt processed while the flag is down and a job is in service:
    the job goes back on the heap with what is left of its service, and the
    server takes the least job of the heap. *)
Lemma interrupt_during_service s s' t id c :
  Setup (St s) = false -> srv (St s) = AtService t ->
  next (St s) = Some c ->
  dispatch Interruption id s = inr (tt, s') ->
  exists st c1,
    start (St s) = Some st /\
    pop (push (q (St s)) (priority c) (entry c)
              (service c - (now (E s) - st)))
      = Some (c1, q (St s')) /\
    next (St s') = Some c1.
Proof.
  intros Su P Nx D.
  destruct s as [e u]. destruct u as [ws ns i gu su qs k nx p st r].
  simpl in Su, P, Nx. subst.
  exec_dispatch D; cbn; eexists; eexists;
    (split; [reflexivity |]); split; first [eassumption | reflexivity].
Qed.

Local Transparent Heapq.heappop.

(** *** Nothing is recorded during the warm-up *)

Lemma es_dispatch_grows wh id : grows (dispatch wh id).
Proof.
  assert (G1 : grows random) by (unfold random; grows).
  assert (G2 : forall c, grows (begin_service c))
    by (intro c; unfold begin_service; grows).
  assert (G3 : grows serve) by (unfold serve; grows; auto).
  assert (G4 : grows server_loop) by (unfold server_loop; grows; exact G3).
  destruct wh; unfold dispatch, arrivals_resume, arrivals_yield,
    wake_server, next_priority, setup_done, record, interrupted;
    grows; auto.
Qed.

Lemma es_init_wf : 0 <= SIM_TIME -> env_wf (E init).
Proof.
  intro H. unfold env_wf, init. simpl.
  repeat constructor; simpl; lra.
Qed.

Lemma es_step_stats s s' :
  step dispatch s = Next s' -> now (E s') <= T_START ->
  total_w (St s') = total_w (St s) /\ n (St s') = n (St s).
Proof.
  intros H L. unfold step in H.
  destruct (advance (E s)) as [[ev e1] |] eqn:A; [| discriminate].
  destruct (dispatch _ _ _) as [x | [[] s2]] eqn:D; [discriminate |].
  inversion H; subst; clear H.
  destruct (es_dispatch_grows _ _ _ _ _ D) as [N _]. simpl in N.
  rewrite N in L. clear N A.
  destruct s as [e u]. simpl in *.
  destruct ev as [tm pr id wh]. simpl in *.
  destruct u as [ws ns i gu su qs k nx p st r].
  destruct wh; exec_dispatch D; cbn in *; auto.
  all: match goal with
       | H : Qltb T_START _ = true |- _ => apply Qltb_lt in H; lra
       end.
Qed.

Lemma es_warmup_stats s :
  0 <= SIM_TIME -> reach dispatch init s -> now (E s) <= T_START ->
  total_w (St s) = Numpy.zeros2 /\ n (St s) = Numpy.zeros2.
Proof.
  intros H R. induction R as [| s s' R IH St1]; intro L;
    [split; reflexivity |].
  pose proof (reach_wf dispatch es_dispatch_grows _ _ (es_init_wf H) R) as Wf.
  destruct (step_wf dispatch es_dispatch_grows _ _ Wf St1) as [_ Le].
  destruct (es_step_stats _ _ St1 L) as [W N].
  destruct IH as [IW IN]; [lra |]. split; congruence.
Qed.

End Simulator.

End ExceptionalService.

(** ** MD1_NP_Two_Class.py: two classes, deterministic service, no
       preemption *)

Module MD1.

Import SimPy.

(** The heap entries: (priority, entry). *)
Definition packet : Type := (Z * Q)%type.

Definition tuple_ltb (a b : packet) : bool :=
  if (fst a <? fst b)%Z then true
  else if (fst b <? fst a)%Z then false
  else Qltb (snd a) (snd b).

Definition push (items : list packet) (p : Z) (e : Q) : list packet :=
  Heapq.heappush items (p, e).

Definition pop (items : list packet) : option (packet * list packet) :=
  Heapq.heappop tuple_ltb items.

Definition empty (items : list packet) : bool :=
  match items with [] => true | _ => false end.

Inductive what :=
| InitArrivals | InitServer
| ArrTimeout
| Wakeup (k : nat)
| ServTimeout
| Until.

Inductive pc :=
| NotStarted
| AtWakeup (k : nat)
| AtService (t : nat).

Record Simulate := MkSimulate
  { total_w : list Q;
    n : list Q;
    idle : bool;
    q : list packet;
    server_wakeup : nat;
    next : option packet;
    srv : pc;
    rng : nat }.

Definition set_total_w v u := MkSimulate v (n u) (idle u) (q u) (server_wakeup u) (next u) (srv u) (rng u).
Definition set_n v u := MkSimulate (total_w u) v (idle u) (q u) (server_wakeup u) (next u) (srv u) (rng u).
Definition set_idle v u := MkSimulate (total_w u) (n u) v (q u) (server_wakeup u) (next u) (srv u) (rng u).
Definition set_q v u := MkSimulate (total_w u) (n u) (idle u) v (server_wakeup u) (next u) (srv u) (rng u).
Definition set_server_wakeup v u := MkSimulate (total_w u) (n u) (idle u) (q u) v (next u) (srv u) (rng u).
Definition set_next v u := MkSimulate (total_w u) (n u) (idle u) (q u) (server_wakeup u) v (srv u) (rng u).
Definition set_srv v u := MkSimulate (total_w u) (n u) (idle u) (q u) (server_wakeup u) (next u) v (rng u).
Definition set_rng v u := MkSimulate (total_w u) (n u) (idle u) (q u) (server_wakeup u) (next u) (srv u) v.

Section Simulator.

(** The module-level constants. *)
Variables (SERV_TIME THRESHOLD T_START SIM_TIME : Q).
Variable draw : nat -> Q.

Local Abbreviation M := (SimPy.M what Simulate).

Definition random : M Q :=
  k <- gets rng ;; modify (set_rng (S k)) ;;; ret (draw k).

Definition arrivals_yield : M unit :=
  d <- random ;; _ <- timeout d ArrTimeout ;; ret tt.

Definition arrivals_resume : M unit :=
  u <- random ;;
  t <- env_now ;;
  items <- gets q ;;
  (if Qltb u THRESHOLD
   then modify (set_q (push items 0 t))
   else modify (set_q (push items 1 t))) ;;;
  i <- gets idle ;;
  (if i
   then k <- gets server_wakeup ;;
        succeed (Wakeup k) ;;;
        modify (set_server_wakeup (S k))
   else ret tt) ;;;
  arrivals_yield.

(** [server], from [self.next = self.q.pop()] to the service timeout. *)
Definition serve : M unit :=
  items <- gets q ;;
  match pop items with
  | None => raise IndexError
  | Some (c, rest) =>
      modify (set_q rest) ;;;
      modify (set_next (Some c)) ;;;
      modify (set_idle false) ;;;
      e <- timeout SERV_TIME ServTimeout ;;
      modify (set_srv (AtService e))
  end.

Definition server_loop : M unit :=
  modify (set_idle true) ;;;
  items <- gets q ;;
  if empty items
  then k <- gets server_wakeup ;; modify (set_srv (AtWakeup k))
  else serve.

Definition record : M unit :=
  t <- env_now ;;
  if Qltb T_START t then
    nx <- gets next ;;
    match nx with
    | None => raise AttributeError
    | Some c =>
        ws <- gets total_w ;; ns <- gets n ;;
        match Numpy.add_at ws (fst c) (t - snd c),
              Numpy.add_at ns (fst c) 1 with
        | Some ws', Some ns' => modify (set_total_w ws') ;;; modify (set_n ns')
        | _, _ => raise IndexError
        end
    end
  else ret tt.

Definition dispatch (wh : what) (id : nat) : M unit :=
  match wh with
  | InitArrivals => arrivals_yield
  | InitServer => server_loop
  | ArrTimeout => arrivals_resume
  | Wakeup k =>
      p <- gets srv ;;
      match p with
      | AtWakeup k' => if (k =? k')%nat then serve else ret tt
      | _ => ret tt
      end
  | ServTimeout =>
      p <- gets srv ;;
      match p with
      | AtService t =>
          if (t =? id)%nat then record ;;; server_loop else ret tt
      | _ => ret tt
      end
  | Until => raise StopSimulation
  end.

Definition fresh : Simulate :=
  MkSimulate Numpy.zeros2 Numpy.zeros2 true [] 0 None NotStarted 0.

Definition init : sim what Simulate :=
  Sim (schedule URGENT SIM_TIME Until
        (schedule URGENT 0 InitServer
          (schedule URGENT 0 InitArrivals (Env 0 0 []))))
      fresh.

Definition simulate (fuel : nat) : outcome what Simulate :=
  if Qle_bool SIM_TIME 0 then Halt (Some ValueError) init
  else run dispatch fuel init.

Lemma md1_grows_random : grows random.
Proof. unfold random. grows. Qed.

Lemma md1_grows_serve : grows serve.
Proof. unfold serve. grows. Qed.

Lemma md1_grows_server_loop : grows server_loop.
Proof. unfold server_loop. grows; apply md1_grows_serve. Qed.

Lemma md1_dispatch_grows wh id : grows (dispatch wh id).
Proof.
  pose proof md1_grows_random. pose proof md1_grows_serve.
  pose proof md1_grows_server_loop.
  destruct wh; unfold dispatch, arrivals_resume, arrivals_yield, record;
    grows; assumption.
Qed.

Ltac exec_dispatch D :=
  unfold dispatch in D;
  cbv [arrivals_yield arrivals_resume server_loop serve record random
       bind gets modify ret raise timeout succeed urgent env_now] in D;
  exec D.

Definition stop_event : event what := Event (0 + SIM_TIME) URGENT 2 Until.

Lemma md1_stop_event_stops : stops_at dispatch stop_event.
Proof. intro s. reflexivity. Qed.

Lemma md1_init_wf : 0 <= SIM_TIME -> env_wf (E init).
Proof.
  intro H. unfold env_wf, init. simpl.
  repeat constructor; simpl; lra.
Qed.

Lemma md1_simulate_reach fuel s :
  simulate fuel = Next s -> 0 < SIM_TIME /\ reach dispatch init s.
Proof.
  unfold simulate. destruct (Qle_bool SIM_TIME 0) eqn:B; [discriminate |].
  intro H. split.
  - apply Qnot_le_lt. intro L. apply Qle_bool_iff in L. congruence.
  - eapply run_reach; [apply reach_init | exact H].
Qed.

(** *** Warm-up gating over a whole run *)

Lemma step_stats s s' :
  step dispatch s = Next s' -> now (E s') <= T_START ->
  total_w (St s') = total_w (St s) /\ n (St s') = n (St s).
Proof.
  intros H L. unfold step in H.
  destruct (advance (E s)) as [[ev e1] |] eqn:A; [| discriminate].
  destruct (dispatch _ _ _) as [x | [[] s2]] eqn:D; [discriminate |].
  inversion H; subst; clear H.
  destruct (md1_dispatch_grows _ _ _ _ _ D) as [N _]. simpl in N.
  rewrite N in L. clear N A.
  destruct s as [e u]. simpl in *.
  destruct ev as [tm pr id wh]. simpl in *.
  destruct u as [ws ns i qs k nx p r].
  destruct wh; exec_dispatch D; cbn in *; auto.
  all: match goal with
       | H : Qltb T_START _ = true |- _ => apply Qltb_lt in H; lra
       end.
Qed.

Lemma reach_no_stats s :
  SIM_TIME <= T_START -> 0 <= SIM_TIME -> reach dispatch init s ->
  total_w (St s) = Numpy.zeros2 /\ n (St s) = Numpy.zeros2.
Proof.
  intros HT H0 R.
  induction R as [| s s' R IH St1]; [split; reflexivity |].
  pose proof (reach_before_stop dispatch md1_dispatch_grows stop_event init s
                md1_stop_event_stops (or_introl eq_refl)) as B.
  destruct B as [I _]; [simpl; lra | exact R |].
  destruct (step_before_stop dispatch md1_dispatch_grows _ _ _
              md1_stop_event_stops I St1) as [_ L].
  simpl in L.
  destruct (step_stats _ _ St1) as [W N]; [lra |].
  destruct IH as [IW IN]. split; congruence.
Qed.

(** The simulator state a run ends with, whichever way it ends. *)
Definition final (o : outcome what Simulate) : Simulate :=
  match o with
  | Next s => St s
  | Halt _ s => St s
  end.

Lemma simulate_no_stats fuel :
  SIM_TIME <= T_START ->
  total_w (final (simulate fuel)) = Numpy.zeros2 /\
  n (final (simulate fuel)) = Numpy.zeros2.
Proof.
  intro HT. unfold simulate.
  destruct (Qle_bool SIM_TIME 0) eqn:B; [split; reflexivity |].
  assert (H0 : 0 <= SIM_TIME).
  { apply Qlt_le_weak, Qnot_le_lt. intro L.
    apply Qle_bool_iff in L. congruence. }
  destruct (run dispatch fuel init) as [s | why s] eqn:R; simpl.
  - apply reach_no_stats; [exact HT | exact H0 |].
    eapply run_reach; [apply reach_init | exact R].
  - destruct (run_halt_state dispatch init fuel init why s
                (reach_init _ _) R) as (sp & Rp & Eq1).
    rewrite Eq1. apply reach_no_stats; assumption.
Qed.

(** The recording lines on their own. *)
Lemma record_gate s :
  (now (E s) <= T_START -> record s = inr (tt, s)) /\
  (T_START < now (E s) ->
   forall s', record s = inr (tt, s') ->
   exists c, next (St s) = Some c /\
     Numpy.add_at (total_w (St s)) (fst c) (now (E s) - snd c)
       = Some (total_w (St s')) /\
     Numpy.add_at (n (St s)) (fst c) 1 = Some (n (St s'))).
Proof.
  destruct s as [e u]. destruct u as [ws ns i qs k nx p r]. split.
  - intro L. apply Qltb_ge in L. simpl in L. unfold record.
    cbv [bind gets modify ret raise env_now]. cbn. rewrite L. reflexivity.
  - intros L s' H. apply Qltb_lt in L. simpl in L. unfold record in H.
    cbv [bind gets modify ret raise env_now] in H. cbn in H.
    rewrite L in H. exec H. eexists. cbn. auto.
Qed.

(** *** Where the server is, and what will resume it *)

Definition coherent (s : sim what Simulate) : Prop :=
  let u := St s in
  match srv u with
  | NotStarted => idle u = true /\ pending (E s) (eq InitServer)
  | AtWakeup k =>
      idle u = true /\
      ((k = server_wakeup u /\ q u = []) \/
       ((k < server_wakeup u)%nat /\ pending (E s) (eq (Wakeup k))))
  | AtService _ => idle u = false
  end.

Lemma step_coherent s s' :
  env_wf (E s) -> coherent s -> step dispatch s = Next s' -> coherent s'.
Proof.
  intros Wf C H.
  unfold step in H.
  destruct (advance (E s)) as [[ev e1] |] eqn:A; [| discriminate].
  destruct (dispatch _ _ _) as [x | [[] s2]] eqn:D; [discriminate |].
  inversion H; subst; clear H.
  pose proof (md1_dispatch_grows _ _ _ _ _ D) as X. simpl in X.
  assert (HP : forall P, pending (E s) P -> ~ P (ev_what ev) ->
                         pending (E s') P).
  { intros P Pe NP. eapply pending_extends; [exact X |].
    eapply pending_advance; eassumption. }
  clear A Wf.
  destruct s as [e u]. simpl in *.
  destruct ev as [tm pr id wh]. simpl in *.
  destruct u as [ws ns i qs k nx p r].
  unfold coherent in C. simpl in C.
  destruct wh; exec_dispatch D; unfold coherent; cbn in *.
  all: try reflexivity.
  all: repeat match goal with
         | |- match ?p with _ => _ end => destruct p
         | H : _ /\ _ |- _ => destruct H
         end; subst; try discriminate.
  all: try reflexivity.
  all: try (split; [reflexivity |]).
  all: try (left; split;
            [reflexivity
            | first [reflexivity | assumption
                    | match goal with
                      | H : empty ?l = true |- ?l = [] =>
                          destruct l; [reflexivity | discriminate H]
                      end]]).
  all: repeat match goal with H : _ \/ _ |- _ => destruct H as [[? ?] | [? ?]] end;
    subst.
  all: try (left; split; reflexivity).
  all: try (right; split; [lia |]).
  all: try (apply HP; [assumption |]; intro Q; inversion Q; subst;
            rewrite ?Nat.eqb_refl in *; discriminate).
  all: try match goal with
         | |- pending ?E (eq ?W) =>
             match E with
             | context [schedule ?p 0 W ?e0] =>
                 exists (Event (now e0 + 0) p (eid e0) W);
                 split; [simpl; auto | split; [reflexivity | simpl; lra]]
             end
         end.
Qed.

Lemma reach_coherent s :
  0 <= SIM_TIME -> reach dispatch init s -> env_wf (E s) /\ coherent s.
Proof.
  intros H R. induction R as [| s s' R [IH1 IH2] St1].
  - split; [apply md1_init_wf; exact H |].
    unfold coherent, init. simpl. split; [reflexivity |].
    exists (Event (0 + 0) URGENT 1 InitServer).
    split; [simpl; auto |]. split; [reflexivity | simpl; lra].
  - split; [| eapply step_coherent; eassumption].
    eapply step_wf; [apply md1_dispatch_grows | |]; eassumption.
Qed.

Definition resumes_server (u : Simulate) (wh : what) : Prop :=
  match srv u with
  | NotStarted => wh = InitServer
  | AtWakeup k => wh = Wakeup k
  | AtService _ => False
  end.

Lemma idle_with_packets_is_woken s :
  coherent s -> idle (St s) = true -> q (St s) <> [] ->
  pending (E s) (resumes_server (St s)).
Proof.
  intros C I Qn. unfold coherent in C. unfold resumes_server.
  destruct (srv (St s)) as [| k | t].
  - destruct C as [_ (ev & In1 & P & T)]. exists ev. auto.
  - destruct C as [_ [[_ Qe] | [_ (ev & In1 & P & T)]]]; [contradiction |].
    exists ev. auto.
  - congruence.
Qed.

Lemma md1_idle_clock_advance s ev e1 :
  env_wf (E s) -> coherent s ->
  advance (E s) = Some (ev, e1) -> now (E s) < now e1 ->
  idle (St s) = true -> q (St s) = [].
Proof.
  intros Wf C A L Id.
  destruct (q (St s)) as [| c rest] eqn:Qs; [reflexivity | exfalso].
  assert (P : pending (E s) (resumes_server (St s))).
  { apply idle_with_packets_is_woken; [exact C | exact Id | congruence]. }
  pose proof (pending_holds_clock _ _ _ _ Wf A P) as Eq1.
  rewrite Eq1 in L. lra.
Qed.

Lemma md1_busy_le_horizon fuel :
  0 <= SIM_TIME ->
  busy_time dispatch (fun u => negb (idle u)) fuel init <= SIM_TIME.
Proof.
  intro H.
  pose proof (busy_time_bound dispatch md1_dispatch_grows
                (fun u => negb (idle u)) stop_event fuel init
                md1_stop_event_stops (md1_init_wf H)
                (or_introl eq_refl)) as B.
  simpl in B. lra.
Qed.

(** *** The run never raises, and no flow time is shorter than a service *)

Section Safety.

Hypothesis draw_nonneg : forall k, 0 <= draw k.
Hypothesis SERV_TIME_nonneg : 0 <= SERV_TIME.

Definition good (now : Q) (c : packet) : Prop :=
  (fst c = 0 \/ fst c = 1)%Z /\ snd c <= now.

Definition safe (s : sim what Simulate) : Prop :=
  let u := St s in
  (exists w0 w1 n0 n1,
      total_w u = [w0; w1] /\ n u = [n0; n1] /\
      SERV_TIME * n0 <= w0 /\ SERV_TIME * n1 <= w1) /\
  Forall (good (now (E s))) (q u) /\
  (forall ev, In ev (queue (E s)) -> (ev_id ev < eid (E s))%nat) /\
  match srv u with
  | NotStarted => True
  | AtWakeup k => (k < server_wakeup u)%nat -> q u <> []
  | AtService t =>
      exists c,
        next u = Some c /\ (fst c = 0 \/ fst c = 1)%Z /\
        forall ev, In ev (queue (E s)) -> ev_what ev = ServTimeout ->
                   ev_id ev = t -> snd c + SERV_TIME <= ev_time ev
  end /\
  (forall ev k, In ev (queue (E s)) -> ev_what ev = Wakeup k ->
                (k < server_wakeup u)%nat).

Lemma md1_good_pop now items c rest :
  Forall (good now) items -> pop items = Some (c, rest) ->
  good now c /\ Forall (good now) rest.
Proof.
  intros F P. destruct (Heapq.heappop_in _ _ _ _ P) as (I1 & I2 & _).
  rewrite Forall_forall in F. split; [auto |].
  apply Forall_forall. auto.
Qed.

Lemma good_later t t' items :
  t <= t' -> Forall (good t) items -> Forall (good t') items.
Proof.
  intros L F. eapply Forall_impl; [| exact F].
  intros c [G1 G2]. split; [exact G1 | lra].
Qed.

Local Opaque Heapq.heappop.

Lemma md1_step_safe s :
  env_wf (E s) -> coherent s -> safe s ->
  match step dispatch s with
  | Next s' => safe s'
  | Halt (Some x) _ => x = StopSimulation
  | Halt None _ => queue (E s) = []
  end.
Proof.
  intros Wf C (Stt & Fq & Fid & Sp & Sw).
  unfold step.
  destruct (advance (E s)) as [[ev e1] |] eqn:A.
  2:{ unfold advance in A.
      destruct (pop_min (queue (E s))) as [[m r] |] eqn:P; [discriminate |].
      apply Heapq.heappop_none in P. exact P. }
  destruct (advance_wf _ _ _ Wf A) as (Wf1 & Le & N & I0 & I3 & I4).
  assert (Ee : eid e1 = eid (E s)).
  { unfold advance in A.
    destruct (pop_min (queue (E s))) as [[m r] |]; [| discriminate].
    inversion A; subst. reflexivity. }
  pose proof (fun k => Sw _ k I0) as Pw.
  assert (Rw : forall x k, In x (queue e1) -> ev_what x = Wakeup k ->
                           (k < server_wakeup (St s))%nat).
  { intros x k Hx. apply Sw. apply I4. exact Hx. }
  assert (Rid : forall x, In x (queue e1) -> (ev_id x < eid e1)%nat).
  { intros x Hx. rewrite Ee. apply Fid. apply I4. exact Hx. }
  assert (Fq1 : Forall (good (now e1)) (q (St s))).
  { eapply good_later; eassumption. }
  assert (Rs : forall t, srv (St s) = AtService t ->
            exists c, next (St s) = Some c /\ (fst c = 0 \/ fst c = 1)%Z /\
              (ev_what ev = ServTimeout -> ev_id ev = t ->
               snd c + SERV_TIME <= now e1) /\
              (forall x, In x (queue e1) -> ev_what x = ServTimeout ->
                         ev_id x = t -> snd c + SERV_TIME <= ev_time x)).
  { intros t P. rewrite P in Sp. destruct Sp as (c & Nx & Pr & Hc).
    exists c. split; [exact Nx |]. split; [exact Pr |]. split.
    - intros Wx Ix. rewrite N. apply Hc; assumption.
    - intros x Hx. apply Hc. apply I4. exact Hx. }
  clear Sw A I3 I4 I0 Wf Wf1 Fq Fid Ee.
  destruct Stt as (w0 & w1 & n0 & n1 & Ew & En & S0 & S1).
  destruct s as [e u]. simpl in *.
  destruct ev as [tm pr id wh]. simpl in *.
  destruct u as [ws ns i qs k nx p r].
  unfold coherent in C. simpl in *. subst ws ns.
  destruct (dispatch wh id _) as [x | [[] s2]] eqn:D.
  - destruct wh; exec_dispatch D; try reflexivity; exfalso.
    all: try match goal with
         | H : Qltb (draw ?j) 0 = true |- _ =>
             apply Qltb_lt in H; pose proof (draw_nonneg j); lra
         | H : Qltb SERV_TIME 0 = true |- _ => apply Qltb_lt in H; lra
         end.
    all: try match goal with
         | H : pop ?l = None, H1 : empty ?l = false |- _ =>
             apply Heapq.heappop_none in H; subst; discriminate H1
         end.
    all: try match goal with
         | H : (?a =? ?b)%nat = true, H1 : pop ?l = None |- _ =>
             apply Nat.eqb_eq in H; subst;
             apply Heapq.heappop_none in H1; subst;
             apply Sp; [apply Pw; reflexivity | reflexivity]
         end.
    all: try (destruct (Rs _ eq_refl) as (? & X & _); discriminate X).
    all: try match goal with
         | H : Numpy.add_at _ (fst ?c) _ = None |- _ =>
             destruct (Rs _ eq_refl) as (c0 & X & [Pr | Pr] & _);
             inversion X; subst c0; rewrite Pr in H; discriminate H
         end.
  - destruct wh; exec_dispatch D; unfold safe; cbn.
    all: refine (conj _ (conj _ (conj _ (conj _ _)))).
    all: try (exists w0, w1, n0, n1; repeat split; assumption).
    all: try assumption.
    all: try (intros x kx Hx Hw; cbn in Hx;
              repeat (destruct Hx as [<- | Hx]); cbn in Hw;
              first [ discriminate
                    | inversion Hw; subst; lia
                    | pose proof (Rw _ _ Hx Hw); lia
                    | pose proof (Pw _ eq_refl); pose proof (Rw _ _ Hx Hw); lia ]).
    all: try (intros x Hx; cbn in Hx;
              repeat (destruct Hx as [<- | Hx]); cbn;
              first [ lia | pose proof (Rid _ Hx); lia ]).
    all: try match goal with
         | H : pop ?l = Some _ |- _ =>
             destruct (md1_good_pop _ _ _ _ Fq1 H) as [[Gp Gs] Gr]
         end.
    all: try assumption.
    all: try match goal with
         | |- Forall (good _) (push _ _ _) =>
             constructor; [| assumption]; split; cbn; [auto | lra]
         end.
    all: try match goal with
         | |- match ?p with _ => _ end =>
             destruct p;
             [ exact I
             | first [ exact Sp | intros _; discriminate ]
             | destruct (Rs _ eq_refl) as (c' & X & Pr & _ & Hc);
               exists c'; split; [exact X |]; split; [exact Pr |];
               intros x Hx Wx Ix; cbn in Hx;
               repeat (destruct Hx as [<- | Hx]); try discriminate Wx;
               apply Hc; assumption ]
         end.
    all: try (eexists; split; [reflexivity |]; split; [exact Gp |];
              intros x Hx Wx Ix; cbn in Hx;
              repeat (destruct Hx as [<- | Hx]); try discriminate Wx;
              [ cbn; lra | pose proof (Rid _ Hx); lia ]).
    all: try (destruct (Rs _ eq_refl) as (c' & X & Pr & _ & Hc);
              exists c'; split; [exact X |]; split; [exact Pr |];
              intros x Hx Wx Ix; apply Hc; assumption).
    all: try match goal with
         | H1 : Numpy.add_at _ (fst ?c) _ = Some ?l,
           H2 : Numpy.add_at _ (fst ?c) _ = Some ?l0,
           H3 : (?t =? ?id)%nat = true |- _ =>
             apply Nat.eqb_eq in H3; subst;
             destruct (Rs _ eq_refl) as (c0 & X & [Pr | Pr] & Hn & _);
             inversion X; subst c0; specialize (Hn eq_refl eq_refl);
             rewrite Pr in H1, H2; cbn in H1, H2;
             inversion H1; inversion H2; subst;
             eexists; eexists; eexists; eexists;
             (split; [reflexivity |]); (split; [reflexivity |]);
             split; lra
         end.
Qed.

Local Transparent Heapq.heappop.

Definition is_until (wh : what) : bool :=
  match wh with Until => true | _ => false end.

Lemma md1_step_until s s' :
  step dispatch s = Next s' ->
  (count is_until (E s') <= count is_until (E s))%nat.
Proof.
  intro H. unfold step in H.
  destruct (advance (E s)) as [[ev e1] |] eqn:A; [| discriminate].
  destruct (dispatch _ _ _) as [x | [[] s2]] eqn:D; [discriminate |].
  inversion H; subst; clear H.
  pose proof (count_advance is_until _ _ _ A) as CU. clear A.
  destruct s as [e u]. simpl in *.
  destruct ev as [tm pr id wh]. simpl in *.
  destruct u as [ws ns i qs k nx p r].
  destruct wh; exec_dispatch D; unfold count in *; cbn in *; lia.
Qed.

Lemma md1_reach_until s :
  reach dispatch init s -> (count is_until (E s) <= 1)%nat.
Proof.
  intro R. induction R as [| s s' R IH St1].
  - unfold count, init. cbn. lia.
  - pose proof (md1_step_until _ _ St1). lia.
Qed.

Lemma md1_init_safe : safe init.
Proof.
  unfold safe, init. cbn.
  refine (conj _ (conj (Forall_nil _) (conj _ (conj I _)))).
  - exists 0, 0, 0, 0. repeat split; lra.
  - intros x Hx. repeat (destruct Hx as [<- | Hx]); cbn; try lia.
    all: try contradiction.
  - intros x kx Hx Hw. repeat (destruct Hx as [<- | Hx]); try discriminate.
    all: try contradiction.
Qed.

Lemma md1_reach_safe s :
  0 <= SIM_TIME -> reach dispatch init s ->
  env_wf (E s) /\ coherent s /\ safe s /\ In stop_event (queue (E s)).
Proof.
  intros H R. induction R as [| s s' R (I1 & I2 & I3 & I4) St1].
  - split; [apply md1_init_wf; exact H |].
    split; [apply (reach_coherent init H (reach_init _ _)) |].
    split; [apply md1_init_safe | left; reflexivity].
  - destruct (reach_coherent s' H (reach_step _ _ _ _ R St1)) as [Wf' C'].
    split; [exact Wf' |]. split; [exact C' |]. split.
    + pose proof (md1_step_safe s I1 I2 I3) as X. rewrite St1 in X. exact X.
    + eapply step_before_stop;
        [apply md1_dispatch_grows | apply md1_stop_event_stops | exact I4
        | exact St1].
Qed.

Lemma md1_step_never_raises s :
  0 <= SIM_TIME -> reach dispatch init s ->
  (exists s', step dispatch s = Next s') \/
  (exists s1, step dispatch s = Halt (Some StopSimulation) s1 /\
              now (E s1) == SIM_TIME).
Proof.
  intros H R. destruct (md1_reach_safe s H R) as (Wf & C & I3 & I4).
  pose proof (md1_step_safe s Wf C I3) as X.
  destruct (step dispatch s) as [s' | [x |] s1] eqn:St1.
  - left. exists s'. reflexivity.
  - right. exists s1. subst x. split; [reflexivity |].
    unfold step in St1.
    destruct (advance (E s)) as [[ev e1] |] eqn:A; [| discriminate].
    destruct (dispatch _ _ _) as [x | [[] s2]] eqn:D; [| discriminate].
    inversion St1; subst; clear St1. simpl.
    destruct (advance_wf _ _ _ Wf A) as (Wf1 & Le & N & I0 & I3' & I4').
    assert (Wh : ev_what ev = Until).
    { destruct (ev_what ev) eqn:Wh; try reflexivity; exfalso;
        exec_dispatch D. }
    pose proof (md1_reach_until s R) as CU.
    rewrite (count_advance is_until _ _ _ A), Wh in CU. simpl in CU.
    assert (Z0 : count is_until e1 = 0%nat) by lia.
    rewrite count_zero in Z0.
    destruct (I3' _ I4) as [Eq1 | Hr].
    + rewrite N, <- Eq1. simpl. lra.
    + specialize (Z0 _ Hr). discriminate Z0.
  - exfalso. rewrite X in I4. destruct I4.
Qed.

(** No packet is recorded with a flow time shorter than its service. *)
Lemma flow_time_bound s :
  0 <= SIM_TIME -> reach dispatch init s ->
  SERV_TIME * nth 0 (n (St s)) 0 <= nth 0 (total_w (St s)) 0 /\
  SERV_TIME * nth 1 (n (St s)) 0 <= nth 1 (total_w (St s)) 0.
Proof.
  intros H R.
  destruct (md1_reach_safe s H R)
    as (_ & _ & ((w0 & w1 & n0 & n1 & Ew & En & S0 & S1) & _) & _).
  rewrite Ew, En. simpl. split; assumption.
Qed.

End Safety.

End Simulator.

(** *** The analytical formulae the script compares the simulation with *)

Section Analytical.

Variables (MU AR_LAMBDA THRESHOLD : Q).

Definition SERV_TIME : Q := 1 / MU.
Definition SERV_MOMTWO : Q := SERV_TIME * SERV_TIME.
Definition RHO : Q := AR_LAMBDA / MU.
(** Mean residual time. *)
Definition R : Q := AR_LAMBDA * SERV_MOMTWO / 2.

(** [w[0]] and [w[1]]: the mean time in system of the two classes. *)
Definition w0 : Q := R / (1 - THRESHOLD * RHO) + SERV_TIME.
Definition w1 : Q := R / ((1 - THRESHOLD * RHO) * (1 - RHO)) + SERV_TIME.

Lemma analytical_waits :
  0 < MU -> 0 <= AR_LAMBDA -> AR_LAMBDA < MU ->
  0 <= THRESHOLD -> THRESHOLD <= 1 ->
  SERV_TIME <= w0 /\ w0 <= w1 /\
  THRESHOLD * (w0 - SERV_TIME) + (1 - THRESHOLD) * (w1 - SERV_TIME)
  == R / (1 - RHO).
Proof.
  intros Hm Hl Hs Ht0 Ht1.
  assert (Rh0 : 0 <= RHO).
  { unfold RHO. apply Qle_shift_div_l; [exact Hm | lra]. }
  assert (Rh1 : RHO < 1).
  { unfold RHO. apply Qlt_shift_div_r; [exact Hm | lra]. }
  assert (St : 0 < SERV_TIME).
  { unfold SERV_TIME. apply Qlt_shift_div_l; [exact Hm | lra]. }
  assert (R0 : 0 <= R).
  { unfold R, SERV_MOMTWO. apply Qle_shift_div_l; [lra |].
    rewrite Qmult_0_l. apply Qmult_le_0_compat; [exact Hl |].
    apply Qmult_le_0_compat; lra. }
  assert (T1 : THRESHOLD * RHO <= RHO).
  { rewrite <- (Qmult_1_l RHO) at 2. apply Qmult_le_compat_r; assumption. }
  assert (T0 : 0 <= THRESHOLD * RHO) by (apply Qmult_le_0_compat; assumption).
  assert (D0 : 0 < 1 - THRESHOLD * RHO) by lra.
  assert (D1 : 0 < 1 - RHO) by lra.
  assert (D01 : 0 < (1 - THRESHOLD * RHO) * (1 - RHO))
    by (apply Qmult_lt_0_compat; assumption).
  set (a := 1 - THRESHOLD * RHO) in *. set (b := 1 - RHO) in *.
  assert (Q0 : 0 <= R / a) by (apply Qle_shift_div_l; [exact D0 | lra]).
  assert (Q01 : R / a <= R / (a * b)).
  { apply Qle_shift_div_l; [exact D01 |].
    assert (X : R / a * (a * b) == R * b) by (field; lra).
    rewrite X.
    assert (X1 : b * R <= 1 * R)
      by (apply Qmult_le_compat_r; [unfold b; lra | exact R0]).
    lra. }
  unfold w0, w1. fold a. fold b.
  split; [lra |]. split; [lra |].
  assert (X : THRESHOLD * RHO == 1 - a) by (unfold a; ring).
  assert (Y : THRESHOLD * (R / a + SERV_TIME - SERV_TIME) +
              (1 - THRESHOLD) * (R / (a * b) + SERV_TIME - SERV_TIME)
              == R * (THRESHOLD * b + (1 - THRESHOLD)) / (a * b))
    by (field; split; lra).
  rewrite Y.
  assert (Z0 : THRESHOLD * b + (1 - THRESHOLD) == a) by (unfold a, b; ring).
  rewrite Z0. field. split; lra.
Qed.

End Analytical.

End MD1.

(** ** One provider process per job on a [simpy.PreemptiveResource]

    [CBRS_WaitTime_Preemption_Sim.py] and the trace-driven breakdown
    simulators start a [provider] generator for every arrival.  The
    generator is embedded as the state machine of its yields: it asks the
    resource for a turn, is granted it, runs its timeout, and is either
    resumed by the timeout or thrown a [simpy.Interrupt] by a request of
    higher priority. *)

Module PreemptionSim.

(** What the generator yields. *)
Inductive yielded :=
| Request (priority : Z)     (* [self.server.request(priority=prio)] *)
| Timeout (delay : Q)        (* [self.env.timeout(serv)] *)
| Return.                    (* the generator is exhausted *)

Inductive pc := AtRequest | AtTimeout | Finished.

(** The arguments and locals of [provider(self, arr, prio, serv)]. *)
Record provider := MkProvider
  { arr : Q;
    prio : Z;
    serv : Q;
    preemptions : Z;
    start : Q;
    notDone : bool;
    at_ : pc }.

(** The accumulators [self.w], [self.n], [self.p]. *)
Record stats := MkStats { w : list Q; n : list Q; p : list Q }.

Definition fresh : stats := MkStats Numpy.zeros3 Numpy.zeros3 Numpy.zeros3.

Section Provider.

Variable t_start : Q.

(** [env.process(self.provider(arrival, priority, serv_time))], run to the
    first yield. *)
Definition spawn (arrival : Q) (priority : Z) (serv_time : Q)
  : provider * yielded :=
  (MkProvider arrival priority serv_time 0 0 true AtRequest,
   Request priority).

(** [yield MyTurn] returns at time [now]. *)
Definition granted (now : Q) (j : provider) : provider * yielded :=
  (MkProvider (arr j) (prio j) (serv j) (preemptions j) now (notDone j)
              AtTimeout,
   Timeout (serv j)).

(** [except simpy.Interrupt], at time [now], and round the loop to the next
    request. *)
Definition interrupted (now : Q) (j : provider) : provider * yielded :=
  (MkProvider (arr j) (prio j) (serv j - (now - start j))
              (preemptions j + 1) (start j) (notDone j) AtRequest,
   Request (prio j)).

(** The lines after the loop. *)
Definition record (now : Q) (j : provider) (s : stats) : option stats :=
  if Qltb t_start now then
    match Numpy.add_at (w s) (prio j) (now - arr j),
          Numpy.add_at (n s) (prio j) 1,
          Numpy.add_at (p s) (prio j) (inject_Z (preemptions j)) with
    | Some w', Some n', Some p' => Some (MkStats w' n' p')
    | _, _, _ => None
    end
  else Some s.

(** The timeout returns at time [now]: the loop ends and the statistics
    are recorded. *)
Definition completed (now : Q) (j : provider) (s : stats)
  : option (provider * stats) :=
  match record now j s with
  | Some s' =>
      Some (MkProvider (arr j) (prio j) (serv j) (preemptions j) (start j)
                       false Finished, s')
  | None => None
  end.

End Provider.

(** The main loop: [Waits[k] = w/n], [Nums[k] = n], [Preemptions[k] = p/n],
    element by element in binary64; [np.zeros] and the counts are floats. *)
Definition np_divide (a b : list float) : list float :=
  map (fun xy => (fst xy / snd xy)%float) (combine a b).

Definition replicate_row (w n p : list float)
  : list float * list float * list float :=
  (np_divide w n, n, np_divide p n).

(** The head of [Simulator]: the constants it derives, before the loop over
    the replicates.  [SHAPE] and [SCALE] are bound only when [K > 1]. *)
Record gamma_params := MkGamma { SHAPE : Q; SCALE : Q }.

Definition derive (K MU : Q) : option gamma_params :=
  if Qltb 1 K then Some (MkGamma (1 / (K - 1)) ((K - 1) / MU)) else None.

(** [serv_time] in [custarrivals]: the sample [sample] stands for
    [np.random.gamma(SHAPE, SCALE)], which reads the two names. *)
Definition serv_time (K MU : Q) (g : option gamma_params) (sample : Q)
  : SimPy.exn + Q :=
  if Qeq_bool K 1 then inr (1 / MU)
  else match g with
       | Some _ => inr sample
       | None => inl SimPy.NameError
       end.

(** [Simulator]: the constants, then [ITERATIONS] replicates, each a fresh
    [PriorityQueue()] and its [launchSimulation()].  No test comes before
    the loop. *)
Definition Simulator {R} (K MU : Q) (ITERATIONS : nat)
  (launchSimulation : option gamma_params -> R) : list R :=
  let g := derive K MU in
  map (fun _ => launchSimulation g) (seq 0 ITERATIONS).

(** *** A job served in several quanta

    [quanta qs j]: the job is granted the server at [g] and interrupted at
    [t], for every [(g, t)] of [qs] in turn. *)

Fixpoint quanta (qs : list (Q * Q)) (j : provider) : provider :=
  match qs with
  | [] => j
  | (g, t) :: qs' => quanta qs' (fst (interrupted t (fst (granted g j))))
  end.

(** The service received in those quanta. *)
Fixpoint served (qs : list (Q * Q)) : Q :=
  match qs with
  | [] => 0
  | (g, t) :: qs' => (t - g) + served qs'
  end.

Lemma quanta_resume qs j :
  serv (quanta qs j) == serv j - served qs /\
  preemptions (quanta qs j) = (preemptions j + Z.of_nat (length qs))%Z /\
  prio (quanta qs j) = prio j /\ arr (quanta qs j) = arr j /\
  notDone (quanta qs j) = notDone j.
Proof.
  revert j. induction qs as [| [g t] qs IH]; intro j.
  - simpl. repeat split; [lra | lia].
  - destruct (IH (fst (interrupted t (fst (granted g j)))))
      as (S1 & P1 & R1 & A1 & N1).
    cbn [quanta served length]. rewrite S1, P1, R1, A1, N1.
    unfold interrupted, granted. cbn.
    repeat split; [lra | lia].
Qed.

End PreemptionSim.

(** ** 3_mg1_sbd_Model_A_traces.py: breakdowns read from traces, two
       customer classes, one provider process per job *)

Module Traces.

Local Open Scope float_scope.

(** The float literal [0.0001] of the source: the nearest binary64. *)
Definition penalty : float := 0x1.a36e2eb1c432dp-14.

(** [np.int_(np.ceil(x))] for a finite [x], read off the mantissa and
    exponent of the float. *)
Definition ceil_int (x : float) : option Z :=
  match Prim2SF x with
  | S754_zero _ => Some 0%Z
  | S754_finite neg m e =>
      if (0 <=? e)%Z then
        Some ((if neg then -1 else 1) * (Zpos m * 2 ^ e))%Z
      else
        let d := (2 ^ (- e))%Z in
        if neg then Some (- (Zpos m / d))%Z
        else Some ((Zpos m + d - 1) / d)%Z
  | S754_infinity _ | S754_nan => None
  end.

Inductive yielded :=
| Request (priority : float)
| Timeout (delay : Q)
| Return.

Inductive pc := AtRequest | AtTimeout | Finished.

(** The arguments and locals of
    [provider(env, arrival, prio, serv_time, t_start, server)]. *)
Record provider := MkProvider
  { arrival : Q;
    prio : float;
    serv_time : Q;
    preemption : Z;
    start : Q;
    notDone : bool;
    at_ : pc }.

(** [server.wait], [server.n], [server.preemptions]. *)
Record stats := MkStats
  { wait : list Q; n : list Q; preemptions : list Q }.

Definition fresh : stats := MkStats Numpy.zeros3 Numpy.zeros3 Numpy.zeros3.

(** The customer classes, as [arrivals_SU] and [arrivals_PU] pass them. *)
Definition class_priority (c : Z) : float := PrimFloat.of_uint63 (Uint63.of_Z c).

Definition spawn (arr : Q) (c : Z) (serv : Q) : provider * yielded :=
  (MkProvider arr (class_priority c) serv 0 0 true AtRequest,
   Request (class_priority c)).

Definition granted (now : Q) (j : provider) : provider * yielded :=
  (MkProvider (arrival j) (prio j) (serv_time j) (preemption j) now
              (notDone j) AtTimeout,
   Timeout (serv_time j)).

(** [except simpy.Interrupt], at time [now]. *)
Definition interrupted (now : Q) (j : provider) : provider * yielded :=
  let prio' := prio j - penalty in
  (MkProvider (arrival j) prio' (serv_time j - (now - start j))%Q
              (preemption j + 1)%Z (start j) (notDone j) AtRequest,
   Request prio').

(** [tmp]: the index under which the job is recorded. *)
Definition tmp (x : float) : option Z :=
  if PrimFloat.eqb x 0 then Some 0%Z else ceil_int x.

(** The class whose accumulators a job of priority tag [x] updates. *)
Definition recorded_class (x : float) : option nat :=
  match tmp x with
  | Some i => Numpy.index 3 i
  | None => None
  end.

Definition record (t_start now : Q) (j : provider) (s : stats)
  : option stats :=
  if Qltb t_start now then
    match tmp (prio j) with
    | None => None
    | Some i =>
        match Numpy.add_at (wait s) i (now - arrival j)%Q,
              Numpy.add_at (n s) i 1%Q,
              Numpy.add_at (preemptions s) i (inject_Z (preemption j)) with
        | Some w', Some n', Some p' => Some (MkStats w' n' p')
        | _, _, _ => None
        end
    end
  else Some s.

Definition completed (t_start now : Q) (j : provider) (s : stats)
  : option (provider * stats) :=
  match record t_start now j s with
  | Some s' =>
      Some (MkProvider (arrival j) (prio j) (serv_time j) (preemption j)
                       (start j) false Finished, s')
  | None => None
  end.

(** The priority tag after [k] preemptions. *)
Fixpoint lowered (k : nat) (x : float) : float :=
  match k with
  | O => x
  | S k' => lowered k' (x - penalty)
  end.

(** A job preempted at the times [ts], one after the other. *)
Fixpoint preempted (ts : list Q) (j : provider) : provider :=
  match ts with
  | [] => j
  | t :: ts' => preempted ts' (fst (interrupted t j))
  end.

Lemma preempted_prio ts j :
  prio (preempted ts j) = lowered (length ts) (prio j) /\
  preemption (preempted ts j) = (preemption j + Z.of_nat (length ts))%Z /\
  arrival (preempted ts j) = arrival j.
Proof.
  revert j. induction ts as [| t ts IH]; intro j.
  - simpl. repeat split. lia.
  - destruct (IH (fst (interrupted t j))) as (P & C & A).
    cbn [preempted length lowered]. rewrite P, C, A.
    unfold interrupted. cbn [fst prio preemption arrival].
    repeat split. lia.
Qed.

Lemma lowered_add i k x : lowered (i + k) x = lowered k (lowered i x).
Proof.
  revert x. induction i as [| i IH]; intro x; simpl; [reflexivity | apply IH].
Qed.

(** [recorded_class] checked on the tags after 0, 1, ..., [k]
    preemptions. *)
Fixpoint all_recorded (f : option nat -> bool) (k : nat) (x : float) : bool :=
  f (recorded_class x) &&
  match k with
  | O => true
  | S k' => all_recorded f k' (x - penalty)
  end.

Lemma all_recorded_spec f k x :
  all_recorded f k x = true ->
  forall i, (i <= k)%nat -> f (recorded_class (lowered i x)) = true.
Proof.
  revert x. induction k as [| k IH]; intros x H i Hi; simpl in H;
    apply andb_prop in H; destruct H as [H0 H1].
  - assert (i = O) by lia. subst. exact H0.
  - destruct i as [| i]; [exact H0 |]. simpl. apply IH; [exact H1 | lia].
Qed.

Local Close Scope float_scope.

(** The head of the script: the checks made before the loop over the
    replicates. *)
Inductive startup :=
| Exit (message : string)           (* [print(message); exit()] *)
| Proceed.

Definition msg_unstable : string :=
  "Unstable system specified. Lambda should be less than Mu."%string.
Definition msg_K : string := "K must be at least 1"%string.
Definition msg_PHI : string := "PHI must be in [0,1]"%string.

Definition check (LAM MU K LAMBDA_IN MU_IN : Q) : startup :=
  let FM_EFF := (1 / MU) * (1 + LAMBDA_IN / MU_IN) in
  let MU_EFF := 1 / FM_EFF in
  if Qle_bool MU_EFF LAM then Exit msg_unstable
  else if Qltb K 1 then Exit msg_K
  else Proceed.

(** The main loop, once per [PHI[l]] and replicate; [simulate phi] is one
    replicate.  Nothing runs when the check exits. *)
Definition main {R} (LAM MU K LAMBDA_IN MU_IN : Q) (PHI : list Q)
  (simulate : Q -> R) : startup * list R :=
  match check LAM MU K LAMBDA_IN MU_IN with
  | Exit m => (Exit m, [])
  | Proceed => (Proceed, map simulate PHI)
  end.

(** [Mean_Wait[k,l,c] = wait[c]/n[c]], a binary64 division. *)
Definition mean (total count : float) : float := (total / count)%float.

(** *** [arrivals_PU]: the breakdowns read from the traces

    The generator keeps [off_time] and the index [i]; it waits on its own
    timeouts only, so the time at which it resumes is the time at which it
    yielded plus the delay.  [clock] is that time. *)

Section ArrivalsPU.

Variables IN_ARRIVALS IN_SERVICE : list Q.

Record pu_state := MkPU { off_time : Q; i : nat; clock : Q }.

(** [off_time = 0; i = 0], the process being started at time 0. *)
Definition pu_start : pu_state := MkPU 0 0 0.

(** A started provider: [provider(env, arrival, priority, serv_time, ...)]. *)
Record job := MkJob { j_arrival : Q; j_priority : Z; j_serv_time : Q }.

(** From the top of the loop to the [yield]: the delay of the timeout. *)
Definition arrivals_PU_yield (st : pu_state) : SimPy.exn + Q :=
  match nth_error IN_ARRIVALS (i st) with
  | None => inl SimPy.IndexError
  | Some on_time =>
      let d := off_time st + on_time in
      if Qltb d 0 then inl SimPy.ValueError else inr d
  end.

(** From the timeout to the end of the loop body.  [IN_SERVICE[i]] is read
    before the index is reduced modulo [len(IN_SERVICE)], so the modulus is
    not zero where it is computed. *)
Definition arrivals_PU_resume (now : Q) (st : pu_state)
  : SimPy.exn + (pu_state * job) :=
  match nth_error IN_SERVICE (i st) with
  | None => inl SimPy.IndexError
  | Some serv_time =>
      inr (MkPU serv_time ((i st + 1) mod length IN_SERVICE) now,
           MkJob now 0 serv_time)
  end.

(** One turn of the loop. *)
Definition arrivals_PU_turn (st : pu_state) : SimPy.exn + (pu_state * job) :=
  match arrivals_PU_yield st with
  | inl x => inl x
  | inr d => arrivals_PU_resume (clock st + d) st
  end.

(** The first [k] turns, and the jobs they start, oldest first. *)
Fixpoint arrivals_PU (k : nat) (st : pu_state)
  : SimPy.exn + (pu_state * list job) :=
  match k with
  | O => inr (st, [])
  | S k' =>
      match arrivals_PU_turn st with
      | inl x => inl x
      | inr (st', j) =>
          match arrivals_PU k' st' with
          | inl x => inl x
          | inr (st'', js) => inr (st'', j :: js)
          end
      end
  end.

(** The entries the [k]-th turn reads. *)
Definition on_time (k : nat) : Q := nth (k mod length IN_SERVICE) IN_ARRIVALS 0.
Definition repair (k : nat) : Q := nth (k mod length IN_SERVICE) IN_SERVICE 0.

(** When the [k]-th breakdown arrives: the sum the clock holds, in the
    order in which the timeouts add it up. *)
Fixpoint arrival_time (k : nat) : Q :=
  match k with
  | O => 0 + (0 + on_time 0)
  | S k' => arrival_time k' + (repair k' + on_time k)
  end.

Lemma arrivals_PU_app k1 k2 st st1 js1 :
  arrivals_PU k1 st = inr (st1, js1) ->
  arrivals_PU (k1 + k2) st =
  match arrivals_PU k2 st1 with
  | inl x => inl x
  | inr (st2, js2) => inr (st2, js1 ++ js2)
  end.
Proof.
  revert st st1 js1. induction k1 as [| k1 IH]; intros st st1 js1 H.
  - simpl in H. inversion H; subst. simpl.
    destruct (arrivals_PU k2 st1) as [x | [st2 js2]]; reflexivity.
  - simpl in H. simpl.
    destruct (arrivals_PU_turn st) as [x | [st' j]]; [discriminate |].
    destruct (arrivals_PU k1 st') as [x | [st'' js]] eqn:R; [discriminate |].
    inversion H; subst. rewrite (IH _ _ _ R).
    destruct (arrivals_PU k2 st1) as [x | [st2 js2]]; reflexivity.
Qed.

Section Readings.

Hypothesis on_nonneg : forall x, In x IN_ARRIVALS -> 0 <= x.
Hypothesis repair_nonneg : forall x, In x IN_SERVICE -> 0 <= x.

(** The state after [k] turns. *)
Definition pu_after (k : nat) : pu_state :=
  match k with
  | O => pu_start
  | S k' => MkPU (repair k') (k mod length IN_SERVICE) (arrival_time k')
  end.

Lemma pu_after_i k :
  (0 < length IN_SERVICE)%nat ->
  i (pu_after k) = (k mod length IN_SERVICE)%nat.
Proof.
  intro H. destruct k; [| reflexivity]. simpl. symmetry.
  apply Nat.Div0.mod_0_l.
Qed.

Lemma pu_after_off k :
  (0 < length IN_SERVICE)%nat -> 0 <= off_time (pu_after k).
Proof.
  intro H. destruct k; simpl; [lra |].
  apply repair_nonneg. apply nth_In. apply Nat.mod_upper_bound. lia.
Qed.

Lemma turn_after k :
  (0 < length IN_SERVICE)%nat ->
  (k mod length IN_SERVICE < length IN_ARRIVALS)%nat ->
  arrivals_PU_turn (pu_after k)
  = inr (pu_after (S k), MkJob (arrival_time k) 0 (repair k)).
Proof.
  intros H L.
  assert (M : (k mod length IN_SERVICE < length IN_SERVICE)%nat)
    by (apply Nat.mod_upper_bound; lia).
  pose proof (pu_after_off k H) as O.
  unfold arrivals_PU_turn, arrivals_PU_yield, arrivals_PU_resume.
  rewrite (pu_after_i k H).
  rewrite (nth_error_nth' IN_ARRIVALS 0) by lia.
  rewrite (nth_error_nth' IN_SERVICE 0) by lia.
  fold (on_time k). fold (repair k).
  assert (P : 0 <= on_time k) by (apply on_nonneg, nth_In; exact L).
  assert (B : Qltb (off_time (pu_after k) + on_time k) 0 = false)
    by (apply Qltb_ge; lra).
  rewrite B. unfold pu_after at 3.
  rewrite Nat.Div0.add_mod_idemp_l. rewrite Nat.add_1_r.
  destruct k as [| k']; reflexivity.
Qed.

Lemma arrivals_PU_jobs k :
  (0 < length IN_SERVICE)%nat ->
  (forall j, (j < k)%nat ->
             (j mod length IN_SERVICE < length IN_ARRIVALS)%nat) ->
  arrivals_PU k pu_start
  = inr (pu_after k,
         map (fun j => MkJob (arrival_time j) 0 (repair j)) (seq 0 k)).
Proof.
  intros H L. induction k as [| k IH]; [reflexivity |].
  replace (S k) with (k + 1)%nat by lia.
  rewrite (arrivals_PU_app k 1 _ _ _ (IH (fun j Hj => L j (Nat.lt_lt_succ_r _ _ Hj)))).
  simpl arrivals_PU.
  rewrite (turn_after k H (L k (Nat.lt_succ_diag_r k))).
  rewrite seq_app, map_app. simpl.
  replace (k + 1)%nat with (S k) by lia. reflexivity.
Qed.

(** [IN_ARRIVALS] is read at the index into [IN_SERVICE]: a shorter trace
    of arrivals is overrun. *)
Lemma arrivals_PU_overrun :
  (length IN_ARRIVALS < length IN_SERVICE)%nat ->
  arrivals_PU (S (length IN_ARRIVALS)) pu_start = inl SimPy.IndexError.
Proof.
  intro L. set (m := length IN_ARRIVALS) in *.
  assert (H : (0 < length IN_SERVICE)%nat) by lia.
  replace (S m) with (m + 1)%nat by lia.
  assert (J : forall j, (j < m)%nat ->
                        (j mod length IN_SERVICE < m)%nat).
  { intros j Hj. rewrite Nat.mod_small by lia. exact Hj. }
  rewrite (arrivals_PU_app m 1 _ _ _ (arrivals_PU_jobs m H J)).
  simpl arrivals_PU. unfold arrivals_PU_turn, arrivals_PU_yield.
  rewrite (pu_after_i m H), Nat.mod_small by lia.
  assert (N : nth_error IN_ARRIVALS m = None)
    by (apply nth_error_None; unfold m; lia).
  rewrite N. reflexivity.
Qed.

(** A breakdown arrives no sooner than the previous one plus its repair. *)
Lemma arrival_spacing k :
  (0 < length IN_SERVICE)%nat ->
  (S k mod length IN_SERVICE < length IN_ARRIVALS)%nat ->
  arrival_time k + repair k <= arrival_time (S k).
Proof.
  intros H L. simpl.
  assert (P : 0 <= on_time (S k)) by (apply on_nonneg, nth_In; exact L).
  lra.
Qed.

End Readings.

(** With an empty trace of repairs the first turn raises. *)
Lemma arrivals_PU_no_service k :
  IN_SERVICE = [] -> (forall x, In x IN_ARRIVALS -> 0 <= x) ->
  arrivals_PU (S k) pu_start = inl SimPy.IndexError.
Proof.
  intros E0 P. simpl. unfold arrivals_PU_turn, arrivals_PU_yield,
    arrivals_PU_resume. simpl.
  destruct IN_ARRIVALS as [| a l]; [reflexivity |]. simpl.
  assert (B : Qltb (0 + a) 0 = false).
  { apply Qltb_ge. pose proof (P a (or_introl eq_refl)). lra. }
  rewrite B, E0. reflexivity.
Qed.

End ArrivalsPU.

End Traces.

(** ** MG1_NP_Two_Class.py (Two Tier): the checks at the head of the
       script *)

Module MG1NP.

Fixpoint unstable (LAM : list Q) (MU : Q) : bool :=
  match LAM with
  | [] => false
  | l :: LAM' => Qle_bool MU l || unstable LAM' MU
  end.

Definition check (LAM : list Q) (MU PHI K : Q) : Traces.startup :=
  if unstable LAM MU then Traces.Exit Traces.msg_unstable
  else if Qltb PHI 0 || Qltb 1 PHI then Traces.Exit Traces.msg_PHI
  else if Qltb K 1 then Traces.Exit Traces.msg_K
  else Traces.Proceed.

End MG1NP.

(** ** 2_mg1_sbd_Model_A_lats.py (Single Class): the checks at the head of
       the script *)

Module Lats.

Definition msg_K_IN : string := "K_IN must be at least 1"%string.

Definition check (LAM : list Q) (MU K LAMBDA_IN MU_IN K_IN : Q)
  : Traces.startup :=
  if Qltb K 1 then Traces.Exit Traces.msg_K
  else if Qltb K_IN 1 then Traces.Exit msg_K_IN
  else
    let FM_EFF := (1 / MU) * (1 + LAMBDA_IN / MU_IN) in
    let MU_EFF := 1 / FM_EFF in
    if existsb (fun l => Qle_bool MU_EFF l) LAM
    then Traces.Exit Traces.msg_unstable
    else Traces.Proceed.

End Lats.

(** ** 3_mg1_sbd_Model_A_traces_action_learning_old.py: the means of a
       replicate, with the expected value when a class is empty *)

Module ActionLearning.

Definition class_mean (expected total count : float) : float :=
  if PrimFloat.eqb count 0 then expected else (total / count)%float.

End ActionLearning.

(** * The claims *)

Local Open Scope Q_scope.

(** ** C2: warm-up gating of the statistics *)

(** C2. The accumulators of a class change exactly when a job completes at a
    time strictly after the warm-up cutoff: the recording lines of
    [provider] leave [w], [n] and [p] as they are when [now <= t_start],
    and add the flow time, one completion and the job's preemptions to the
    job's class when [t_start < now]; the recording lines of the M/D/1
    server do likewise; and a run of the M/D/1 simulator whose cutoff is at
    or beyond the horizon ends with every accumulator at zero. *)
Theorem warmup_gating :
  (forall t_start now j s,
      now <= t_start -> PreemptionSim.record t_start now j s = Some s) /\
  (forall t_start now j s,
      t_start < now ->
      (0 <= PreemptionSim.prio j < 3)%Z ->
      length (PreemptionSim.w s) = 3%nat ->
      length (PreemptionSim.n s) = 3%nat ->
      length (PreemptionSim.p s) = 3%nat ->
      let c := Z.to_nat (PreemptionSim.prio j) in
      let bump x := fun y => y + x in
      PreemptionSim.record t_start now j s =
      Some (PreemptionSim.MkStats
              (Numpy.update (PreemptionSim.w s) c
                 (bump (now - PreemptionSim.arr j)))
              (Numpy.update (PreemptionSim.n s) c (bump 1))
              (Numpy.update (PreemptionSim.p s) c
                 (bump (inject_Z (PreemptionSim.preemptions j)))))) /\
  (forall SERV_TIME THRESHOLD T_START SIM_TIME draw s,
      (SimPy.now (SimPy.E s) <= T_START ->
       MD1.record T_START s = inr (tt, s)) /\
      (T_START < SimPy.now (SimPy.E s) ->
       forall s', MD1.record T_START s = inr (tt, s') ->
       exists c, MD1.next (SimPy.St s) = Some c /\
         Numpy.add_at (MD1.total_w (SimPy.St s)) (fst c)
                      (SimPy.now (SimPy.E s) - snd c)
           = Some (MD1.total_w (SimPy.St s')) /\
         Numpy.add_at (MD1.n (SimPy.St s)) (fst c) 1
           = Some (MD1.n (SimPy.St s'))) /\
      (SIM_TIME <= T_START ->
       forall fuel,
         let o := MD1.simulate SERV_TIME THRESHOLD T_START SIM_TIME draw fuel in
         MD1.total_w (MD1.final o) = Numpy.zeros2 /\
         MD1.n (MD1.final o) = Numpy.zeros2)).
Proof.
  split; [| split].
  - intros t_start now j s L. unfold PreemptionSim.record.
    apply Qltb_ge in L. rewrite L. reflexivity.
  - intros t_start now j s L P Lw Ln Lp c bump.
    unfold PreemptionSim.record. apply Qltb_lt in L. rewrite L.
    rewrite !Numpy.add_at_in_range by (rewrite ?Lw, ?Ln, ?Lp; simpl; lia).
    reflexivity.
  - intros SERV_TIME THRESHOLD T_START SIM_TIME draw s.
    destruct (MD1.record_gate T_START s) as [G1 G2].
    split; [exact G1 |]. split; [exact G2 |].
    intros HT fuel o. apply MD1.simulate_no_stats. exact HT.
Qed.

Definition a_provider : PreemptionSim.provider :=
  fst (PreemptionSim.granted 2 (fst (PreemptionSim.spawn 1 2 5))).

Lemma warmup_gating_witness :
  (8 <= 10 /\
   PreemptionSim.record 10 8 a_provider PreemptionSim.fresh
   = Some PreemptionSim.fresh) /\
  (10 < 12 /\
   PreemptionSim.record 10 12 a_provider PreemptionSim.fresh
   = Some (PreemptionSim.MkStats [0; 0; 0 + (12 - 1)] [0; 0; 0 + 1]
                                 [0; 0; 0 + inject_Z 0])) /\
  (20 <= 20 /\
   MD1.n (MD1.final (MD1.simulate (1 # 20) (2 # 5) 20 20 (fun _ => 1 # 18) 200))
   = Numpy.zeros2).
Proof.
  destruct warmup_gating as (A & B & C).
  split; [| split].
  - split; [lra | apply A; lra].
  - split; [lra |].
    apply (B 10 12 a_provider PreemptionSim.fresh);
      [lra | cbn; lia | reflexivity | reflexivity
      | reflexivity].
  - split; [lra |].
    destruct (C (1 # 20) (2 # 5) 20 20 (fun _ => 1 # 18)
                (MD1.init 20)) as (_ & _ & C3).
    apply C3. lra.
Defined.

(** ** C9: the count of primary users during the warm-up *)

(** C9. In the two-class switchover simulator a step lowers [PUcount] only
    by one, only when the service timeout of a primary-user job returns at
    a time strictly after [T_START]; so along any stretch of a run that
    ends at or before [T_START] the count does not decrease, and from a
    state where it is at least one no step of such a stretch starts a
    switchover. *)
Theorem PUcount_warmup PHI T_START SIM_TIME draw fuel s k s' :
  Switchover.simulate PHI T_START SIM_TIME draw fuel = SimPy.Next s ->
  SimPy.run (Switchover.dispatch PHI T_START draw) k s = SimPy.Next s' ->
  SimPy.now (SimPy.E s') <= T_START ->
  (Switchover.PUcount (SimPy.St s) <= Switchover.PUcount (SimPy.St s'))%Z /\
  ((1 <= Switchover.PUcount (SimPy.St s))%Z ->
   forall i s1 s2,
     SimPy.run (Switchover.dispatch PHI T_START draw) i s = SimPy.Next s1 ->
     SimPy.step (Switchover.dispatch PHI T_START draw) s1 = SimPy.Next s2 ->
     SimPy.now (SimPy.E s2) <= T_START ->
     ~ Switchover.initiates_switchover s1 s2) /\
  (forall s1 s2,
     SimPy.step (Switchover.dispatch PHI T_START draw) s1 = SimPy.Next s2 ->
     (Switchover.PUcount (SimPy.St s2) < Switchover.PUcount (SimPy.St s1))%Z ->
     T_START < SimPy.now (SimPy.E s2) /\
     Switchover.PUcount (SimPy.St s2)
       = (Switchover.PUcount (SimPy.St s1) - 1)%Z /\
     exists ev e1 c,
       SimPy.advance (SimPy.E s1) = Some (ev, e1) /\
       SimPy.ev_what ev = Switchover.ServTimeout /\
       Switchover.srv (SimPy.St s1) = Switchover.AtService (SimPy.ev_id ev) /\
       Switchover.next (SimPy.St s1) = Some c /\
       PriorityQueue.priority c = 0%Z).
Proof.
  intros Sim Run L.
  destruct (Switchover.sw_simulate_reach _ _ _ _ _ _ Sim) as [H0 R0].
  assert (Wf : SimPy.env_wf (SimPy.E s)).
  { apply (SimPy.reach_wf _ (Switchover.sw_dispatch_grows PHI T_START draw)
             (Switchover.init SIM_TIME) s);
      [apply Switchover.sw_init_wf; lra | exact R0]. }
  split; [| split].
  - eapply Switchover.warmup_reach; [exact Wf | | exact L].
    eapply SimPy.run_reach; [apply SimPy.reach_init | exact Run].
  - intros C1 i s1 s2 Ri St1 L2.
    eapply Switchover.warmup_no_switchover; try eassumption.
    eapply SimPy.run_reach; [apply SimPy.reach_init | exact Ri].
  - intros s1 s2 St1 Lt.
    destruct (Switchover.step_PUcount _ _ _ _ _ St1) as [K | K]; [lia |].
    exact K.
Qed.

(** A run of the switchover simulator: a primary user (service 3) arrives
    at time 1, a general user at time 2, the next arrival is far away. *)
Definition sw_draw (k : nat) : Q := nth k [1; 1; 3; 1; 0; 4; 900] 1000.
Definition sw_dispatch := Switchover.dispatch (1 # 2) 50 sw_draw.
Definition sw_s := SimPy.state_of (Switchover.simulate (1 # 2) 50 500 sw_draw 3).
Definition sw_s' := SimPy.state_of (SimPy.run sw_dispatch 4 sw_s).

Lemma PUcount_warmup_witness :
  (Switchover.simulate (1 # 2) 50 500 sw_draw 3 = SimPy.Next sw_s /\
   SimPy.run sw_dispatch 4 sw_s = SimPy.Next sw_s' /\
   SimPy.now (SimPy.E sw_s') <= 50) /\
  (Switchover.PUcount (SimPy.St sw_s)
   <= Switchover.PUcount (SimPy.St sw_s'))%Z.
Proof.
  assert (H1 : Switchover.simulate (1 # 2) 50 500 sw_draw 3 = SimPy.Next sw_s)
    by (vm_compute; reflexivity).
  assert (H2 : SimPy.run sw_dispatch 4 sw_s = SimPy.Next sw_s')
    by (vm_compute; reflexivity).
  assert (H3 : SimPy.now (SimPy.E sw_s') <= 50)
    by (apply Qle_bool_iff; vm_compute; reflexivity).
  split; [auto |].
  exact (proj1 (PUcount_warmup _ _ _ _ _ _ _ _ H1 H2 H3)).
Defined.

(** ** C5: a job preempted during the setup *)

(** A run of the exceptional-service simulator: a general user (service 5)
    arrives at time 1 and its setup starts (it would last 10); a primary
    user (service 3) arrives at time 2. *)
Definition es_draw (k : nat) : Q := nth k [1; 0; 5; 1; 10; 1; 3; 1000] 1000.
Definition es_run (fuel : nat) :=
  ExceptionalService.simulate (1 # 2) 0 100 es_draw fuel.
Definition es_job : PriorityQueue.customer := PriorityQueue.Customer 1 1 5.

(** C5. In the exceptional-service simulator the general user whose setup
    is interrupted by a primary user is not put back on the heap.  In every
    state a run reaches with the server waiting on the setup timeout, the
    setup flag is up, and processing an interrupt there pushes nothing: the
    server goes on with the least job of the heap as it was (or goes idle on
    an empty heap), and the job that was being set up is dropped.  In the
    run [es_run] the general user is in setup after four events, it is
    neither waiting nor in service after the interrupt, and the run ends at
    the horizon with an empty heap, an idle server and no general user
    recorded. *)
Theorem setup_preemption_drops_job :
  (forall PHI T_START SIM_TIME draw fuel s t id s',
     ExceptionalService.simulate PHI T_START SIM_TIME draw fuel
       = SimPy.Next s ->
     ExceptionalService.srv (SimPy.St s) = ExceptionalService.AtSetup t ->
     ExceptionalService.dispatch PHI T_START draw
       ExceptionalService.Interruption id s = inr (tt, s') ->
     ExceptionalService.Setup (SimPy.St s) = true /\
     match PriorityQueue.pop (ExceptionalService.q (SimPy.St s)) with
     | None =>
         ExceptionalService.q (SimPy.St s') = [] /\
         ExceptionalService.idle (SimPy.St s') = true
     | Some (c, rest) =>
         ExceptionalService.q (SimPy.St s') = rest /\
         ExceptionalService.next (SimPy.St s') = Some c
     end) /\
  (forall s s',
     ExceptionalService.Setup (SimPy.St s) = true ->
     ExceptionalService.interrupted s = inr (tt, s') ->
     ExceptionalService.q (SimPy.St s') = ExceptionalService.q (SimPy.St s)) /\
  (exists s, es_run 4 = SimPy.Next s /\
     ExceptionalService.next (SimPy.St s) = Some es_job /\
     ExceptionalService.Setup (SimPy.St s) = true /\
     ExceptionalService.srv (SimPy.St s) = ExceptionalService.AtSetup 6) /\
  (exists s, es_run 6 = SimPy.Next s /\
     ExceptionalService.q (SimPy.St s) = [] /\
     ExceptionalService.next (SimPy.St s)
       = Some (PriorityQueue.Customer 0 2 3)) /\
  (exists s, es_run 9 = SimPy.Halt (Some SimPy.StopSimulation) s /\
     SimPy.now (SimPy.E s) == 100 /\
     ExceptionalService.q (SimPy.St s) = [] /\
     ExceptionalService.idle (SimPy.St s) = true /\
     ExceptionalService.n (SimPy.St s) = [0 + 1; 0]).
Proof.
  split; [| split; [| split; [| split]]].
  - intros PHI T_START SIM_TIME draw fuel s t id s' Sim P D.
    pose proof (ExceptionalService.reach_in_setup _ _ _ _ _
                  (ExceptionalService.es_simulate_reach _ _ _ _ _ _ Sim))
      as Su.
    unfold ExceptionalService.in_setup in Su. rewrite P in Su.
    split; [exact Su |].
    exact (ExceptionalService.interrupt_during_setup _ _ _ _ _ _ _ P Su D).
  - intros s s' Su H.
    apply (ExceptionalService.interrupted_in_setup s s' Su H).
  - eexists. split; [vm_compute; reflexivity |]. repeat split.
  - eexists. split; [vm_compute; reflexivity |]. repeat split.
  - eexists. split; [vm_compute; reflexivity |]. repeat split.
Qed.

Definition es_in_setup := SimPy.state_of (es_run 4).
Definition es_after_interrupt :=
  match ExceptionalService.dispatch (1 # 2) 0 es_draw
          ExceptionalService.Interruption 0 es_in_setup with
  | inr (_, s') => s'
  | inl _ => es_in_setup
  end.

Lemma setup_preemption_drops_job_witness :
  (ExceptionalService.simulate (1 # 2) 0 100 es_draw 4
     = SimPy.Next es_in_setup /\
   ExceptionalService.srv (SimPy.St es_in_setup)
     = ExceptionalService.AtSetup 6 /\
   ExceptionalService.dispatch (1 # 2) 0 es_draw
     ExceptionalService.Interruption 0 es_in_setup
     = inr (tt, es_after_interrupt)) /\
  ExceptionalService.Setup (SimPy.St es_in_setup) = true.
Proof.
  assert (H1 : ExceptionalService.simulate (1 # 2) 0 100 es_draw 4
               = SimPy.Next es_in_setup)
    by (vm_compute; reflexivity).
  assert (H2 : ExceptionalService.srv (SimPy.St es_in_setup)
               = ExceptionalService.AtSetup 6)
    by (vm_compute; reflexivity).
  assert (H3 : ExceptionalService.dispatch (1 # 2) 0 es_draw
                 ExceptionalService.Interruption 0 es_in_setup
               = inr (tt, es_after_interrupt))
    by (vm_compute; reflexivity).
  split; [exact (conj H1 (conj H2 H3)) |].
  exact (proj1 (proj1 setup_preemption_drops_job (1 # 2) 0 100 es_draw
                  4%nat es_in_setup 6%nat 0%nat es_after_interrupt
                  H1 H2 H3)).
Defined.

(** ** C6: the mean of a class without completions *)

Local Open Scope float_scope.

(** C6. The main loops divide the totals of a replicate by its counts with
    no test on the count: for a class that recorded nothing the mean wait
    and the mean preemption count are the float [nan], and nothing is
    raised; the older learning script tests [n == 0] and takes the
    expected value instead. *)
Theorem empty_class_mean_is_nan :
  PreemptionSim.replicate_row [3; 0; 7] [2; 0; 4] [0; 0; 1]
  = ([1.5; nan; 1.75], [2; 0; 4], [0; nan; 0.25]) /\
  PrimFloat.is_nan (Traces.mean 0 0) = true /\
  (forall expected, ActionLearning.class_mean expected 0 0 = expected).
Proof.
  split; [vm_compute; reflexivity |].
  split; [vm_compute; reflexivity |].
  intro expected. reflexivity.
Qed.

Local Close Scope float_scope.

(** ** C7: invalid configurations *)

(** C7. [Simulator] of the preemption simulator tests nothing before its
    replicates: with [K < 1] it binds neither [SHAPE] nor [SCALE], launches
    every replicate, and the first service-time sample raises [NameError]
    inside the run; an arrival rate at or above the service rate and a
    split probability outside [0, 1] are not looked at.  The scripts do
    test: the trace-driven one exits on an unstable system and on [K < 1]
    before any replicate, the two-tier one also on [PHI] outside [0, 1], the
    single-class one on [K < 1], on [K_IN < 1] and on any arrival rate at or
    above the effective service rate. *)
Theorem simulator_runs_invalid_configuration :
  (forall K MU ITERATIONS sample,
     K < 1 ->
     PreemptionSim.Simulator K MU ITERATIONS
       (fun g => PreemptionSim.serv_time K MU g sample)
     = repeat (inl SimPy.NameError) ITERATIONS) /\
  (forall LAM MU LAMBDA_IN MU_IN K PHI (simulate : Q -> nat),
     K < 1 ->
     fst (Traces.main LAM MU K LAMBDA_IN MU_IN PHI simulate)
       <> Traces.Proceed /\
     snd (Traces.main LAM MU K LAMBDA_IN MU_IN PHI simulate) = []) /\
  (forall LAM MU LAMBDA_IN MU_IN K PHI (simulate : Q -> nat),
     1 / ((1 / MU) * (1 + LAMBDA_IN / MU_IN)) <= LAM ->
     Traces.main LAM MU K LAMBDA_IN MU_IN PHI simulate
     = (Traces.Exit Traces.msg_unstable, [])) /\
  (forall LAM MU PHI K,
     PHI < 0 \/ 1 < PHI ->
     MG1NP.check LAM MU PHI K <> Traces.Proceed) /\
  (forall LAM MU K LAMBDA_IN MU_IN K_IN,
     K < 1 \/ K_IN < 1 \/
     Exists (fun l => 1 / ((1 / MU) * (1 + LAMBDA_IN / MU_IN)) <= l) LAM ->
     Lats.check LAM MU K LAMBDA_IN MU_IN K_IN <> Traces.Proceed).
Proof.
  split; [| split; [| split; [| split]]].
  - intros K MU ITERATIONS sample HK.
    unfold PreemptionSim.Simulator, PreemptionSim.derive,
      PreemptionSim.serv_time.
    assert (B1 : Qltb 1 K = false) by (apply Qltb_ge; lra).
    assert (B2 : Qeq_bool K 1 = false).
    { destruct (Qeq_bool K 1) eqn:B; [| reflexivity].
      apply Qeq_bool_iff in B. lra. }
    rewrite B1, B2. generalize 0%nat.
    induction ITERATIONS as [| k IH]; intro a; simpl;
      [reflexivity | rewrite IH; reflexivity].
  - intros LAM MU LAMBDA_IN MU_IN K PHI simulate HK.
    unfold Traces.main, Traces.check.
    destruct (Qle_bool _ LAM); [split; [discriminate | reflexivity] |].
    assert (B : Qltb K 1 = true) by (apply Qltb_lt; exact HK).
    rewrite B. split; [discriminate | reflexivity].
  - intros LAM MU LAMBDA_IN MU_IN K PHI simulate H.
    unfold Traces.main, Traces.check.
    apply Qle_bool_iff in H. rewrite H. reflexivity.
  - intros LAM MU PHI K H. unfold MG1NP.check.
    destruct (MG1NP.unstable LAM MU); [discriminate |].
    assert (B : Qltb PHI 0 || Qltb 1 PHI = true).
    { apply orb_true_iff. destruct H as [H | H]; [left | right];
        apply Qltb_lt; exact H. }
    rewrite B. discriminate.
  - intros LAM MU K LAMBDA_IN MU_IN K_IN H. unfold Lats.check.
    destruct (Qltb K 1) eqn:B1; [discriminate |].
    destruct (Qltb K_IN 1) eqn:B2; [discriminate |].
    destruct H as [H | [H | H]].
    + apply Qltb_lt in H. congruence.
    + apply Qltb_lt in H. congruence.
    + assert (B : existsb
                    (fun l => Qle_bool
                                (1 / ((1 / MU) * (1 + LAMBDA_IN / MU_IN))) l)
                    LAM = true).
      { apply existsb_exists. apply Exists_exists in H.
        destruct H as (l & In1 & Le). exists l.
        split; [exact In1 | apply Qle_bool_iff; exact Le]. }
      cbv zeta. rewrite B. discriminate.
Qed.

Lemma simulator_runs_invalid_configuration_witness :
  (1 # 2) < 1 /\
  PreemptionSim.Simulator (1 # 2) 1 30
    (fun g => PreemptionSim.serv_time (1 # 2) 1 g 4)
  = repeat (inl SimPy.NameError) 30.
Proof.
  split; [lra |].
  apply (proj1 simulator_runs_invalid_configuration). lra.
Defined.

(** ** C10: the class under which a preempted job is recorded *)

(** The claim as it is written: a customer of class 1 or 2 is recorded
    under its own class exactly when it was preempted at most 9999 times. *)
Definition recorded_in_own_class (c : Z) (ts : list Q) : Prop :=
  Traces.recorded_class
    (Traces.prio (Traces.preempted ts (fst (Traces.spawn 0 c 1))))
  = Some (Z.to_nat c).

Definition own_class_iff_at_most_9999 : Prop :=
  forall c ts, c = 1%Z \/ c = 2%Z ->
    (recorded_in_own_class c ts <-> (Z.of_nat (length ts) <= 9999)%Z).

Definition is_class (c : nat) (o : option nat) : bool :=
  match o with
  | Some k => (k =? c)%nat
  | None => false
  end.

Lemma is_class_true c o : is_class c o = true <-> o = Some c.
Proof.
  destruct o as [k |]; simpl; [| split; discriminate].
  rewrite Nat.eqb_eq. split; [intros -> | intro H; inversion H]; reflexivity.
Qed.

(** A class-1 customer preempted 10000 times is still recorded under
    class 1: in binary64 the tag is then a little above 0. *)
Lemma own_class_after_10000 : ~ own_class_iff_at_most_9999.
Proof.
  intro H.
  specialize (H 1%Z (repeat 0 (Z.to_nat 10000)) (or_introl eq_refl)).
  rewrite repeat_length in H. destruct H as [H _].
  assert (L : (Z.of_nat (Z.to_nat 10000) <= 9999)%Z); [apply H | lia].
  unfold recorded_in_own_class.
  destruct (Traces.preempted_prio (repeat 0 (Z.to_nat 10000))
              (fst (Traces.spawn 0 1 1))) as (P & _).
  rewrite P, repeat_length.
  apply is_class_true. vm_compute. reflexivity.
Qed.

(** C10 (amended). Every preemption lowers the priority tag by the float
    0.0001 and leaves the arrival time alone; a completing customer of
    class 1 or 2 is recorded under index [ceil] of its tag; so it is
    recorded under its own class whenever it was preempted at most 10000
    times, and under another class when it was preempted between 10001 and
    30000 times. *)
Theorem recorded_class_of_preempted c ts a sv :
  c = 1%Z \/ c = 2%Z ->
  let j := Traces.preempted ts (fst (Traces.spawn a c sv)) in
  Traces.prio j = Traces.lowered (length ts) (Traces.class_priority c) /\
  Traces.preemption j = Z.of_nat (length ts) /\
  Traces.arrival j = a /\
  ((Z.of_nat (length ts) <= 10000)%Z ->
   Traces.recorded_class (Traces.prio j) = Some (Z.to_nat c)) /\
  ((10001 <= Z.of_nat (length ts) <= 30000)%Z ->
   Traces.recorded_class (Traces.prio j) <> Some (Z.to_nat c)).
Proof.
  intros Hc j.
  destruct (Traces.preempted_prio ts (fst (Traces.spawn a c sv)))
    as (P & C & A).
  fold j in P, C, A. simpl in P, C, A.
  split; [exact P |]. split; [exact C |]. split; [exact A |].
  rewrite P. split.
  - intro L. apply is_class_true.
    apply (Traces.all_recorded_spec (is_class (Z.to_nat c))
             (Z.to_nat 10000)); [| lia].
    destruct Hc as [-> | ->]; vm_compute; reflexivity.
  - intros [L1 L2] Eq1. apply is_class_true in Eq1.
    assert (N : negb (is_class (Z.to_nat c)
                        (Traces.recorded_class
                           (Traces.lowered (length ts)
                              (Traces.class_priority c)))) = true).
    { replace (length ts)
        with (Z.to_nat 10001 + (length ts - Z.to_nat 10001))%nat by lia.
      rewrite Traces.lowered_add.
      apply (Traces.all_recorded_spec
               (fun o => negb (is_class (Z.to_nat c) o)) (Z.to_nat 19999));
        [| lia].
      destruct Hc as [-> | ->]; vm_compute; reflexivity. }
    rewrite Eq1 in N. discriminate.
Qed.

Lemma recorded_class_of_preempted_witness :
  (2%Z = 1%Z \/ 2%Z = 2%Z) /\
  Traces.recorded_class
    (Traces.prio (Traces.preempted [3; 8] (fst (Traces.spawn 1 2 5))))
  = Some 2%nat.
Proof.
  split; [right; reflexivity |].
  apply (recorded_class_of_preempted 2 [3; 8] 1 5 (or_intror eq_refl)).
  simpl. lia.
Defined.
(** ** C1: what a preemption does to the preempted job *)

(** The claim as it is written, for the provider of the trace-driven
    simulators: the remaining service is lowered by the elapsed time, the
    count goes up by one, priority and arrival time are kept. *)
Definition requeued_at_class_priority : Prop :=
  forall t j,
    let j' := fst (Traces.interrupted t j) in
    Traces.serv_time j' = Traces.serv_time j - (t - Traces.start j) /\
    Traces.preemption j' = (Traces.preemption j + 1)%Z /\
    Traces.arrival j' = Traces.arrival j /\
    Traces.prio j' = Traces.prio j.

(** A class-2 customer served from time 1 and preempted at time 3 asks for
    the server again with priority 1.9999. *)
Lemma requeued_below_class_priority : ~ requeued_at_class_priority.
Proof.
  intro H.
  specialize (H 3 (fst (Traces.granted 1 (fst (Traces.spawn 1 2 5))))).
  destruct H as (_ & _ & _ & H).
  apply (f_equal (fun x => PrimFloat.eqb x 2)) in H.
  vm_compute in H. discriminate H.
Qed.

(** C1 (amended). A preempted job keeps its arrival time and has its
    remaining service lowered by exactly the time elapsed since this
    quantum began.  In the two process-per-job simulators its preemption
    count goes up by one; the CBRS one asks for the server again at the
    same priority, the trace-driven one at a priority lowered by 0.0001.
    In the heap simulator, where no count is kept, an interrupt is
    processed only while a job of strictly smaller priority number waits;
    the interrupted job goes back on the heap with its priority and entry
    time and the remaining service, the job taken next has a strictly
    smaller priority number, and the heap serves equal priorities by entry
    time. *)
Theorem preemption_bookkeeping :
  (forall t j,
     PreemptionSim.interrupted t j
     = (PreemptionSim.MkProvider
          (PreemptionSim.arr j) (PreemptionSim.prio j)
          (PreemptionSim.serv j - (t - PreemptionSim.start j))
          (PreemptionSim.preemptions j + 1)
          (PreemptionSim.start j) (PreemptionSim.notDone j)
          PreemptionSim.AtRequest,
        PreemptionSim.Request (PreemptionSim.prio j))) /\
  (forall t j,
     Traces.interrupted t j
     = (Traces.MkProvider
          (Traces.arrival j) (Traces.prio j - Traces.penalty)%float
          (Traces.serv_time j - (t - Traces.start j))
          (Traces.preemption j + 1)
          (Traces.start j) (Traces.notDone j) Traces.AtRequest,
        Traces.Request (Traces.prio j - Traces.penalty)%float)) /\
  (forall PHI Ki MUi T_START SIM_TIME draw GPareto fuel s ev e1 s',
     WaitTimeSimV1.simulate PHI Ki MUi T_START SIM_TIME draw GPareto fuel
       = SimPy.Next s ->
     SimPy.advance (SimPy.E s) = Some (ev, e1) ->
     SimPy.ev_what ev = WaitTimeSimV1.Interruption ->
     SimPy.step (WaitTimeSimV1.dispatch PHI Ki MUi T_START draw GPareto) s
       = SimPy.Next s' ->
     exists t c0 c c1,
       WaitTimeSimV1.prov (SimPy.St s) = WaitTimeSimV1.AtService t /\
       WaitTimeSimV1.next (SimPy.St s) = Some c0 /\
       In c (WaitTimeSimV1.q (SimPy.St s)) /\
       (PriorityQueue.priority c < PriorityQueue.priority c0)%Z /\
       WaitTimeSimV1.next (SimPy.St s') = Some c1 /\
       (PriorityQueue.priority c1 < PriorityQueue.priority c0)%Z /\
       In (PriorityQueue.Customer
             (PriorityQueue.priority c0) (PriorityQueue.entry c0)
             (PriorityQueue.service c0
              - (SimPy.now (SimPy.E s')
                 - WaitTimeSimV1.serv_start (SimPy.St s))))
          (WaitTimeSimV1.q (SimPy.St s')) /\
       WaitTimeSimV1.w (SimPy.St s') = WaitTimeSimV1.w (SimPy.St s) /\
       WaitTimeSimV1.n (SimPy.St s') = WaitTimeSimV1.n (SimPy.St s)) /\
  (forall items c rest x,
     PriorityQueue.pop items = Some (c, rest) -> In x rest ->
     (PriorityQueue.priority c <= PriorityQueue.priority x)%Z /\
     (PriorityQueue.priority x = PriorityQueue.priority c ->
      PriorityQueue.entry c <= PriorityQueue.entry x)).
Proof.
  split; [reflexivity |]. split; [reflexivity |]. split.
  - intros PHI Ki MUi T_START SIM_TIME draw GPareto fuel s ev e1 s'
           Sim A Wx St1.
    destruct (WaitTimeSimV1.simulate_reach _ _ _ _ _ _ _ _ _ Sim) as [H0 R].
    assert (H0' : 0 <= SIM_TIME) by lra.
    destruct (WaitTimeSimV1.interrupt_cause _ _ _ _ _ _ _ _ _ _ H0' R A Wx)
      as (t & c0 & c & P & Nx & Ic & Lt).
    destruct (WaitTimeSimV1.interrupt_requeues _ _ _ _ _ _ _ _ _ _ _ _
                A Wx P Nx St1) as (c1 & Pp & Nx' & Ib & Ws & Ns).
    assert (N : SimPy.now (SimPy.E s') = SimPy.ev_time ev).
    { unfold SimPy.step in St1. rewrite A in St1.
      destruct (WaitTimeSimV1.dispatch _ _ _ _ _ _ _ _ _)
        as [x | [[] s2]] eqn:D; [discriminate |].
      inversion St1; subst.
      destruct (WaitTimeSimV1.dispatch_grows _ _ _ _ _ _ _ _ _ _ _ D)
        as [N _]. simpl in N. rewrite N.
      unfold SimPy.advance in A.
      destruct (SimPy.pop_min _) as [[m r] |]; [| discriminate].
      inversion A; subst. reflexivity. }
    assert (L1 : (PriorityQueue.priority c1 <= PriorityQueue.priority c)%Z).
    { destruct (PriorityQueue.pop_in _ _ _ Pp) as (_ & _ & I3).
      destruct (I3 c (or_intror Ic)) as [-> | Hr]; [lia |].
      pose proof (PriorityQueue.pop_least _ _ _ Pp _ Hr) as K.
      destruct K as [K | [K _]]; lia. }
    exists t, c0, c, c1. rewrite N.
    repeat (split; [first [assumption | lia] |]).
    split; [| split; assumption].
    destruct Ib as [Eq1 | Ib]; [| exact Ib].
    subst c1. simpl in L1. lia.
  - intros items c rest x P Hx.
    pose proof (PriorityQueue.pop_least _ _ _ P _ Hx) as K.
    destruct K as [K | [K1 K2]]; split; try lia.
    intros _. destruct K2 as [K2 | [K2 _]]; [lra | rewrite K2; lra].
Qed.

(** A run of the heap simulator ([PHI] = 1/2, warm-up up to time 0): a
    general customer (service 5) arrives at time 1 and is served at once;
    the next customer, of the priority class (service 3), arrives at time
    6, the instant the first one would complete. *)
Definition v1_draw (k : nat) : Q := nth k [1; 100; 0; 5; 5; 1; 3; 50] 1000.
Definition v1_service (cdf : Q) : Q := cdf.
Abbreviation v1_dispatch :=
  (WaitTimeSimV1.dispatch (1 # 2) 2 1 0 v1_draw v1_service).
Abbreviation v1_run :=
  (WaitTimeSimV1.simulate (1 # 2) 2 1 0 1000 v1_draw v1_service).
Definition v1_at (fuel : nat) := SimPy.state_of (v1_run fuel).
Definition v1_next_event (fuel : nat) :=
  match SimPy.advance (SimPy.E (v1_at fuel)) with
  | Some (ev, e1) => (ev, e1)
  | None => (SimPy.Event 0 0 0 WaitTimeSimV1.Until, SimPy.E (v1_at fuel))
  end.

Lemma preemption_bookkeeping_witness :
  (v1_run 6 = SimPy.Next (v1_at 6) /\
   SimPy.advance (SimPy.E (v1_at 6))
     = Some (fst (v1_next_event 6), snd (v1_next_event 6)) /\
   SimPy.ev_what (fst (v1_next_event 6)) = WaitTimeSimV1.Interruption /\
   SimPy.step v1_dispatch (v1_at 6) = SimPy.Next (v1_at 7)) /\
  exists t c0 c c1,
    WaitTimeSimV1.prov (SimPy.St (v1_at 6)) = WaitTimeSimV1.AtService t /\
    WaitTimeSimV1.next (SimPy.St (v1_at 6)) = Some c0 /\
    In c (WaitTimeSimV1.q (SimPy.St (v1_at 6))) /\
    (PriorityQueue.priority c < PriorityQueue.priority c0)%Z /\
    WaitTimeSimV1.next (SimPy.St (v1_at 7)) = Some c1 /\
    (PriorityQueue.priority c1 < PriorityQueue.priority c0)%Z /\
    In (PriorityQueue.Customer
          (PriorityQueue.priority c0) (PriorityQueue.entry c0)
          (PriorityQueue.service c0
           - (SimPy.now (SimPy.E (v1_at 7))
              - WaitTimeSimV1.serv_start (SimPy.St (v1_at 6)))))
       (WaitTimeSimV1.q (SimPy.St (v1_at 7))) /\
    WaitTimeSimV1.w (SimPy.St (v1_at 7)) = WaitTimeSimV1.w (SimPy.St (v1_at 6)) /\
    WaitTimeSimV1.n (SimPy.St (v1_at 7)) = WaitTimeSimV1.n (SimPy.St (v1_at 6)).
Proof.
  assert (H1 : v1_run 6 = SimPy.Next (v1_at 6)) by (vm_compute; reflexivity).
  assert (H2 : SimPy.advance (SimPy.E (v1_at 6))
               = Some (fst (v1_next_event 6), snd (v1_next_event 6)))
    by (vm_compute; reflexivity).
  assert (H3 : SimPy.ev_what (fst (v1_next_event 6))
               = WaitTimeSimV1.Interruption) by (vm_compute; reflexivity).
  assert (H4 : SimPy.step v1_dispatch (v1_at 6) = SimPy.Next (v1_at 7))
    by (vm_compute; reflexivity).
  split; [exact (conj H1 (conj H2 (conj H3 H4))) |].
  exact (proj1 (proj2 (proj2 preemption_bookkeeping))
           (1 # 2) 2 1 0 1000 v1_draw v1_service 6%nat (v1_at 6)
           (fst (v1_next_event 6)) (snd (v1_next_event 6)) (v1_at 7)
           H1 H2 H3 H4).
Defined.

(** ** C8: a completion and an arrival at the same instant *)

(** The claim as it is written: a job is never interrupted at the instant
    its remaining service reaches 0. *)
Definition completes_before_arrival PHI Ki MUi T_START SIM_TIME draw GPareto
  : Prop :=
  forall fuel s ev e1 s' c0,
    WaitTimeSimV1.simulate PHI Ki MUi T_START SIM_TIME draw GPareto fuel
      = SimPy.Next s ->
    SimPy.advance (SimPy.E s) = Some (ev, e1) ->
    SimPy.ev_what ev = WaitTimeSimV1.Interruption ->
    SimPy.step (WaitTimeSimV1.dispatch PHI Ki MUi T_START draw GPareto) s
      = SimPy.Next s' ->
    WaitTimeSimV1.next (SimPy.St s) = Some c0 ->
    ~ PriorityQueue.service c0
      - (SimPy.ev_time ev - WaitTimeSimV1.serv_start (SimPy.St s)) == 0.

(** In [v1_run] the arrival at time 6 is processed before the service
    timeout due at time 6: the general customer is interrupted with nothing
    left to serve. *)
Lemma preempted_at_completion :
  ~ completes_before_arrival (1 # 2) 2 1 0 1000 v1_draw v1_service.
Proof.
  intro H.
  apply (H 6%nat (v1_at 6) (fst (v1_next_event 6)) (snd (v1_next_event 6))
           (v1_at 7) (PriorityQueue.Customer 2 1 5));
    vm_compute; reflexivity.
Qed.

(** The same start, but a second general customer (service 3) arrives at
    time 2, so that the timeout of the arrival at time 6 is scheduled after
    the service timeout of the first customer. *)
Definition v1b_draw (k : nat) : Q :=
  nth k [1; 100; 0; 5; 1; 0; 3; 4; 1; 2; 50] 1000.
Abbreviation v1b_run :=
  (WaitTimeSimV1.simulate (1 # 2) 2 1 0 1000 v1b_draw v1_service).
Definition v1b_at (fuel : nat) := SimPy.state_of (v1b_run fuel).

(** C8 (amended). When the service timeout of the job in service and the
    timeout of an arrival are due at the same instant, they are processed
    in the order of their event ids, that is in the order they were
    scheduled: the run is a function of the random stream, but the
    completion is not always first.  In [v1b_run] the service timeout is
    the older event: the job completes, is recorded and has left when the
    arrival is processed.  In [v1_run] the arrival's timeout is the older
    event: the arrival is processed first and the job is interrupted with
    remaining service 0 and put back on the heap. *)
Theorem same_instant_by_scheduling_order
  PHI Ki MUi T_START SIM_TIME draw GPareto fuel s ev e1 evS evA :
  WaitTimeSimV1.simulate PHI Ki MUi T_START SIM_TIME draw GPareto fuel
    = SimPy.Next s ->
  SimPy.advance (SimPy.E s) = Some (ev, e1) ->
  In evS (SimPy.queue (SimPy.E s)) -> In evA (SimPy.queue (SimPy.E s)) ->
  SimPy.ev_what evS = WaitTimeSimV1.ServTimeout ->
  SimPy.ev_what evA = WaitTimeSimV1.CustTimeout \/
  SimPy.ev_what evA = WaitTimeSimV1.IncTimeout ->
  SimPy.ev_time evS == SimPy.ev_time evA ->
  ((ev = evA -> (SimPy.ev_id evA <= SimPy.ev_id evS)%nat) /\
   (ev = evS -> (SimPy.ev_id evS <= SimPy.ev_id evA)%nat)) /\
  (exists s6 s7 e1',
     v1b_run 6 = SimPy.Next s6 /\ v1b_run 7 = SimPy.Next s7 /\
     SimPy.advance (SimPy.E s6)
       = Some (SimPy.Event (1 + 5) SimPy.NORMAL 8 WaitTimeSimV1.ServTimeout,
               e1') /\
     In (SimPy.Event (2 + 4) SimPy.NORMAL 9 WaitTimeSimV1.CustTimeout)
        (SimPy.queue (SimPy.E s6)) /\
     WaitTimeSimV1.next (SimPy.St s6) = Some (PriorityQueue.Customer 2 1 5) /\
     WaitTimeSimV1.n (SimPy.St s7) = [0; 0; 0 + 1] /\
     WaitTimeSimV1.q (SimPy.St s7) = []) /\
  (exists s5 s7 e1',
     v1_run 5 = SimPy.Next s5 /\ v1_run 7 = SimPy.Next s7 /\
     SimPy.advance (SimPy.E s5)
       = Some (SimPy.Event (1 + 5) SimPy.NORMAL 7 WaitTimeSimV1.CustTimeout,
               e1') /\
     In (SimPy.Event (1 + 5) SimPy.NORMAL 8 WaitTimeSimV1.ServTimeout)
        (SimPy.queue (SimPy.E s5)) /\
     WaitTimeSimV1.next (SimPy.St s5) = Some (PriorityQueue.Customer 2 1 5) /\
     WaitTimeSimV1.n (SimPy.St s7) = [0; 0; 0] /\
     WaitTimeSimV1.q (SimPy.St s7)
       = [PriorityQueue.Customer 2 1 (5 - (1 + 5 - 1))]).
Proof.
  intros Sim A IS IA WS WA T.
  destruct (WaitTimeSimV1.simulate_reach _ _ _ _ _ _ _ _ _ Sim) as [H0 R].
  split; [| split].
  - eapply WaitTimeSimV1.same_instant_order; try eassumption. lra.
  - eexists. eexists. eexists.
    split; [vm_compute; reflexivity |].
    split; [vm_compute; reflexivity |].
    split; [vm_compute; reflexivity |].
    split; [vm_compute; auto |].
    split; vm_compute; auto.
  - eexists. eexists. eexists.
    split; [vm_compute; reflexivity |].
    split; [vm_compute; reflexivity |].
    split; [vm_compute; reflexivity |].
    split; [vm_compute; auto |].
    split; vm_compute; auto.
Qed.

Lemma same_instant_by_scheduling_order_witness :
  let evA := SimPy.Event (1 + 5) SimPy.NORMAL 7 WaitTimeSimV1.CustTimeout in
  let evS := SimPy.Event (1 + 5) SimPy.NORMAL 8 WaitTimeSimV1.ServTimeout in
  (v1_run 5 = SimPy.Next (v1_at 5) /\
   SimPy.advance (SimPy.E (v1_at 5)) = Some (evA, snd (v1_next_event 5)) /\
   In evS (SimPy.queue (SimPy.E (v1_at 5))) /\
   In evA (SimPy.queue (SimPy.E (v1_at 5))) /\
   SimPy.ev_what evS = WaitTimeSimV1.ServTimeout /\
   (SimPy.ev_what evA = WaitTimeSimV1.CustTimeout \/
    SimPy.ev_what evA = WaitTimeSimV1.IncTimeout) /\
   SimPy.ev_time evS == SimPy.ev_time evA) /\
  (evA = evA -> (SimPy.ev_id evA <= SimPy.ev_id evS)%nat).
Proof.
  intros evA evS.
  assert (H1 : v1_run 5 = SimPy.Next (v1_at 5)) by (vm_compute; reflexivity).
  assert (H2 : SimPy.advance (SimPy.E (v1_at 5))
               = Some (evA, snd (v1_next_event 5)))
    by (vm_compute; reflexivity).
  assert (H3 : In evS (SimPy.queue (SimPy.E (v1_at 5))))
    by (vm_compute; left; reflexivity).
  assert (H4 : In evA (SimPy.queue (SimPy.E (v1_at 5))))
    by (vm_compute; right; left; reflexivity).
  assert (H5 : SimPy.ev_what evS = WaitTimeSimV1.ServTimeout) by reflexivity.
  assert (H6 : SimPy.ev_what evA = WaitTimeSimV1.CustTimeout \/
               SimPy.ev_what evA = WaitTimeSimV1.IncTimeout)
    by (left; reflexivity).
  assert (H7 : SimPy.ev_time evS == SimPy.ev_time evA) by reflexivity.
  split; [exact (conj H1 (conj H2 (conj H3 (conj H4 (conj H5 (conj H6 H7)))))) |].
  exact (proj1 (proj1 (same_instant_by_scheduling_order
           (1 # 2) 2 1 0 1000 v1_draw v1_service 5%nat (v1_at 5)
           evA (snd (v1_next_event 5)) evS evA H1 H2 H3 H4 H5 H6 H7))).
Defined.

(** ** C4: work conservation *)

(** The claim as it is written: in every state a run reaches, an idle
    server means an empty heap. *)
Definition idle_only_when_empty PHI Ki MUi T_START SIM_TIME draw GPareto
  : Prop :=
  forall fuel s,
    WaitTimeSimV1.simulate PHI Ki MUi T_START SIM_TIME draw GPareto fuel
      = SimPy.Next s ->
    WaitTimeSimV1.idle (SimPy.St s) = true ->
    WaitTimeSimV1.q (SimPy.St s) = [].

(** In [v1_run], once the arrival at time 1 has been processed the customer
    is on the heap, the wake-up of the server is triggered but not yet
    processed, and [idle] is still up. *)
Lemma idle_with_customer_waiting :
  ~ idle_only_when_empty (1 # 2) 2 1 0 1000 v1_draw v1_service.
Proof.
  intro H.
  assert (Q0 : WaitTimeSimV1.q (SimPy.St (v1_at 4)) = []).
  { apply (H 4%nat); vm_compute; reflexivity. }
  vm_compute in Q0. discriminate Q0.
Qed.

(** C4 (amended). In every state a run of the heap simulator or of the
    M/D/1 simulator reaches, if the server is idle while a job waits then
    what resumes the server (its start, or the wake-up it is suspended on) is
    already due at the current instant; so the clock never moves on while
    the server is idle and a job waits.  The simulated time the server
    spends busy over any number of events is at most the horizon. *)
Theorem work_conservation :
  (forall PHI Ki MUi T_START SIM_TIME draw GPareto fuel s,
     WaitTimeSimV1.simulate PHI Ki MUi T_START SIM_TIME draw GPareto fuel
       = SimPy.Next s ->
     (WaitTimeSimV1.idle (SimPy.St s) = true ->
      WaitTimeSimV1.q (SimPy.St s) <> [] ->
      SimPy.pending (SimPy.E s)
        (WaitTimeSimV1.resumes_provider (SimPy.St s))) /\
     (forall ev e1,
        SimPy.advance (SimPy.E s) = Some (ev, e1) ->
        SimPy.now (SimPy.E s) < SimPy.now e1 ->
        WaitTimeSimV1.idle (SimPy.St s) = true ->
        WaitTimeSimV1.q (SimPy.St s) = []) /\
     (forall k,
        SimPy.busy_time
          (WaitTimeSimV1.dispatch PHI Ki MUi T_START draw GPareto)
          (fun u => negb (WaitTimeSimV1.idle u)) k
          (WaitTimeSimV1.init SIM_TIME)
        <= SIM_TIME)) /\
  (forall SERV_TIME THRESHOLD T_START SIM_TIME draw fuel s,
     MD1.simulate SERV_TIME THRESHOLD T_START SIM_TIME draw fuel
       = SimPy.Next s ->
     (MD1.idle (SimPy.St s) = true ->
      MD1.q (SimPy.St s) <> [] ->
      SimPy.pending (SimPy.E s) (MD1.resumes_server (SimPy.St s))) /\
     (forall ev e1,
        SimPy.advance (SimPy.E s) = Some (ev, e1) ->
        SimPy.now (SimPy.E s) < SimPy.now e1 ->
        MD1.idle (SimPy.St s) = true ->
        MD1.q (SimPy.St s) = []) /\
     (forall k,
        SimPy.busy_time
          (MD1.dispatch SERV_TIME THRESHOLD T_START draw)
          (fun u => negb (MD1.idle u)) k
          (MD1.init SIM_TIME)
        <= SIM_TIME)).
Proof.
  split.
  - intros PHI Ki MUi T_START SIM_TIME draw GPareto fuel s Sim.
    destruct (WaitTimeSimV1.simulate_reach _ _ _ _ _ _ _ _ _ Sim) as [H0 R].
    assert (H0' : 0 <= SIM_TIME) by lra.
    pose proof (WaitTimeSimV1.reach_inv _ _ _ _ _ _ _ _ H0' R) as I.
    split; [| split].
    + apply WaitTimeSimV1.idle_with_jobs_is_woken. exact I.
    + intros ev e1. apply WaitTimeSimV1.idle_clock_advance. exact I.
    + intro k. apply WaitTimeSimV1.busy_le_horizon. exact H0'.
  - intros SERV_TIME THRESHOLD T_START SIM_TIME draw fuel s Sim.
    destruct (MD1.md1_simulate_reach _ _ _ _ _ _ _ Sim) as [H0 R].
    assert (H0' : 0 <= SIM_TIME) by lra.
    destruct (MD1.reach_coherent _ _ _ _ _ _ H0' R) as [Wf C].
    split; [| split].
    + apply MD1.idle_with_packets_is_woken. exact C.
    + intros ev e1. apply MD1.md1_idle_clock_advance; assumption.
    + intro k. apply MD1.md1_busy_le_horizon. exact H0'.
Qed.

Lemma work_conservation_witness :
  v1_run 4 = SimPy.Next (v1_at 4) /\
  (WaitTimeSimV1.idle (SimPy.St (v1_at 4)) = true ->
   WaitTimeSimV1.q (SimPy.St (v1_at 4)) <> [] ->
   SimPy.pending (SimPy.E (v1_at 4))
     (WaitTimeSimV1.resumes_provider (SimPy.St (v1_at 4)))).
Proof.
  assert (H1 : v1_run 4 = SimPy.Next (v1_at 4)) by (vm_compute; reflexivity).
  split; [exact H1 |].
  exact (proj1 (proj1 work_conservation (1 # 2) 2 1 0 1000 v1_draw
                  v1_service 4%nat (v1_at 4) H1)).
Defined.

(** ** C3: strict preemption, first come first served within a class *)

(** C3. An arrival asks for an interrupt of the server exactly when the
    server is busy with a job whose priority number is strictly greater
    than its own (in the switchover simulator, while a job is in service,
    only then); an arrival of equal or greater priority number never does.
    In a run of the heap simulator an interrupt is processed only while a
    job of strictly smaller priority number than the one in service is on
    the heap.  The heap hands out the least priority number first and,
    among equal priorities, the earliest entry time first. *)
Theorem strict_preemption_and_fifo :
  (forall PHI draw GPareto s s',
     WaitTimeSimV1.custarrivals_resume PHI draw GPareto s = inr (tt, s') ->
     exists c,
       WaitTimeSimV1.q (SimPy.St s') = c :: WaitTimeSimV1.q (SimPy.St s) /\
       SimPy.count WaitTimeSimV1.is_intr (SimPy.E s')
       = (SimPy.count WaitTimeSimV1.is_intr (SimPy.E s)
          + WaitTimeSimV1.interrupts_asked (PriorityQueue.priority c)
              (SimPy.St s))%nat) /\
  (forall Ki MUi draw s s',
     WaitTimeSimV1.incarrivals_resume Ki MUi draw s = inr (tt, s') ->
     exists c,
       WaitTimeSimV1.q (SimPy.St s') = c :: WaitTimeSimV1.q (SimPy.St s) /\
       PriorityQueue.priority c = 0%Z /\
       SimPy.count WaitTimeSimV1.is_intr (SimPy.E s')
       = (SimPy.count WaitTimeSimV1.is_intr (SimPy.E s)
          + WaitTimeSimV1.interrupts_asked 0 (SimPy.St s))%nat) /\
  (forall pr u,
     WaitTimeSimV1.interrupts_asked pr u = 1%nat <->
     WaitTimeSimV1.idle u = false /\
     exists c0, WaitTimeSimV1.next u = Some c0 /\
                (pr < PriorityQueue.priority c0)%Z) /\
  (forall pr u c0,
     WaitTimeSimV1.next u = Some c0 ->
     (PriorityQueue.priority c0 <= pr)%Z ->
     WaitTimeSimV1.interrupts_asked pr u = 0%nat) /\
  (forall PHI Ki MUi T_START SIM_TIME draw GPareto fuel s ev e1,
     WaitTimeSimV1.simulate PHI Ki MUi T_START SIM_TIME draw GPareto fuel
       = SimPy.Next s ->
     SimPy.advance (SimPy.E s) = Some (ev, e1) ->
     SimPy.ev_what ev = WaitTimeSimV1.Interruption ->
     exists t c0 c,
       WaitTimeSimV1.prov (SimPy.St s) = WaitTimeSimV1.AtService t /\
       WaitTimeSimV1.next (SimPy.St s) = Some c0 /\
       In c (WaitTimeSimV1.q (SimPy.St s)) /\
       (PriorityQueue.priority c < PriorityQueue.priority c0)%Z) /\
  (forall PHI T_START SIM_TIME draw fuel s s' t c0,
     Switchover.simulate PHI T_START SIM_TIME draw fuel = SimPy.Next s ->
     Switchover.arrivals_resume PHI draw s = inr (tt, s') ->
     Switchover.srv (SimPy.St s) = Switchover.AtService t ->
     Switchover.next (SimPy.St s) = Some c0 ->
     exists c,
       Switchover.q (SimPy.St s') = c :: Switchover.q (SimPy.St s) /\
       (SimPy.count Switchover.is_intr (SimPy.E s')
        <> SimPy.count Switchover.is_intr (SimPy.E s) ->
        (PriorityQueue.priority c < PriorityQueue.priority c0)%Z)) /\
  (forall items c rest x,
     PriorityQueue.pop items = Some (c, rest) -> In x rest ->
     (PriorityQueue.priority c <= PriorityQueue.priority x)%Z /\
     (PriorityQueue.priority x = PriorityQueue.priority c ->
      PriorityQueue.entry c <= PriorityQueue.entry x)).
Proof.
  split; [| split; [| split; [| split; [| split; [| split]]]]].
  - intros PHI draw GPareto s s' D.
    destruct (WaitTimeSimV1.custarrivals_decision _ _ _ _ _ D)
      as (c & Q1 & _ & _ & Cn).
    exists c. split; assumption.
  - intros Ki MUi draw s s' D.
    destruct (WaitTimeSimV1.incarrivals_decision _ _ _ _ _ D)
      as (c & Q1 & _ & P0 & Cn).
    exists c. repeat split; assumption.
  - intros pr u. unfold WaitTimeSimV1.interrupts_asked.
    destruct (WaitTimeSimV1.idle u).
    { split; [discriminate | intros [H _]; discriminate H]. }
    destruct (WaitTimeSimV1.next u) as [c0 |].
    + destruct (Z.ltb_spec pr (PriorityQueue.priority c0)) as [L | L].
      * split; [| reflexivity]. intros _. split; [reflexivity |].
        exists c0. split; [reflexivity | exact L].
      * split; [discriminate |].
        intros [_ (c1 & E1 & L1)]. inversion E1; subst. lia.
    + split; [discriminate |]. intros [_ (c1 & E1 & _)]. discriminate E1.
  - intros pr u c0 Nx L. unfold WaitTimeSimV1.interrupts_asked.
    rewrite Nx. destruct (WaitTimeSimV1.idle u); [reflexivity |].
    destruct (Z.ltb_spec pr (PriorityQueue.priority c0)); [lia | reflexivity].
  - intros PHI Ki MUi T_START SIM_TIME draw GPareto fuel s ev e1 Sim A Wx.
    destruct (WaitTimeSimV1.simulate_reach _ _ _ _ _ _ _ _ _ Sim) as [H0 R].
    assert (H0' : 0 <= SIM_TIME) by lra.
    exact (WaitTimeSimV1.interrupt_cause _ _ _ _ _ _ _ _ _ _ H0' R A Wx).
  - intros PHI T_START SIM_TIME draw fuel s s' t c0 Sim D P Nx.
    destruct (Switchover.sw_simulate_reach _ _ _ _ _ _ Sim) as [_ R].
    pose proof (Switchover.reach_switching _ _ _ _ _ R) as Sw.
    exact (Switchover.arrivals_preempt_strict _ _ _ _ _ _ Sw D P Nx).
  - intros items c rest x P Hx.
    pose proof (PriorityQueue.pop_least _ _ _ P _ Hx) as K.
    destruct K as [K | [K1 K2]]; split; try lia.
    intros _. destruct K2 as [K2 | [K2 _]]; [lra | rewrite K2; lra].
Qed.

Definition a_heap : list PriorityQueue.customer :=
  [PriorityQueue.Customer 1 5 2; PriorityQueue.Customer 2 1 1;
   PriorityQueue.Customer 1 3 4].

Lemma strict_preemption_and_fifo_witness :
  (PriorityQueue.pop a_heap
   = Some (PriorityQueue.Customer 1 3 4,
           [PriorityQueue.Customer 1 5 2; PriorityQueue.Customer 2 1 1]) /\
   In (PriorityQueue.Customer 1 5 2)
      [PriorityQueue.Customer 1 5 2; PriorityQueue.Customer 2 1 1]) /\
  (1 <= 1)%Z /\ (1%Z = 1%Z -> 3 <= 5).
Proof.
  assert (H1 : PriorityQueue.pop a_heap
               = Some (PriorityQueue.Customer 1 3 4,
                       [PriorityQueue.Customer 1 5 2;
                        PriorityQueue.Customer 2 1 1]))
    by (vm_compute; reflexivity).
  assert (H2 : In (PriorityQueue.Customer 1 5 2)
                  [PriorityQueue.Customer 1 5 2; PriorityQueue.Customer 2 1 1])
    by (left; reflexivity).
  split; [exact (conj H1 H2) |].
  exact (proj2 (proj2 (proj2 (proj2 (proj2 (proj2
           strict_preemption_and_fifo)))))
           a_heap _ _ _ H1 H2).
Defined.
